(** * Meeting summarizer: transcript parsers and filename date extractor

    A shallow embedding of the transcript normalisation code of the
    application (the freeform text parser [parseTxtFile], its duplicate for
    word-processor text [parseDocxFile], the caption parser [parseVttFile]
    of [App.tsx]) and of [extractDate] of [src/lib/utils.ts].

    JavaScript strings are sequences of UTF-16 code units, modelled as
    [list N].  The regular expressions of the source are values of a small
    regex syntax, run by a backtracking matcher that returns the matches in
    the priority order of the ECMAScript matcher.  The arrays that the
    loops push to and whose last element they update in place are lists,
    updated at their last position.  The file reading around the parsers
    ([FileReader], [mammoth]) is not modelled: a parser is a function of
    the text it is given. *)

From Stdlib Require Import List NArith Arith Bool Lia.
From Stdlib Require String Ascii DecimalString.
Import ListNotations.
Import String.StringSyntax.
Delimit Scope string_scope with string.

(** ** JavaScript strings *)

Module JS.

Definition char := N.
Definition jsstring := list char.

(** *** String literals

    Source literals are written as Rocq strings, which hold UTF-8 bytes;
    [lit] decodes them to UTF-16 code units. *)

Fixpoint bytes (s : String.string) : list N :=
  match s with
  | String.EmptyString => []
  | String.String a s' => Ascii.N_of_ascii a :: bytes s'
  end.

Definition cont (b : N) : N := N.land b 63.

Definition utf16 (cp : N) : list N :=
  if (cp <? 65536)%N then [cp]
  else let v := (cp - 65536)%N in
       [(55296 + N.shiftr v 10)%N; (56320 + N.land v 1023)%N].

Fixpoint decode (bs : list N) : jsstring :=
  match bs with
  | [] => []
  | b1 :: t1 =>
    if (b1 <? 128)%N then b1 :: decode t1
    else match t1 with
    | [] => [65533%N]
    | b2 :: t2 =>
      if (b1 <? 224)%N
      then (N.shiftl (N.land b1 31) 6 + cont b2)%N :: decode t2
      else match t2 with
      | [] => [65533%N]
      | b3 :: t3 =>
        if (b1 <? 240)%N
        then (N.shiftl (N.land b1 15) 12 + N.shiftl (cont b2) 6 + cont b3)%N
             :: decode t3
        else match t3 with
        | [] => [65533%N]
        | b4 :: t4 =>
          utf16 (N.shiftl (N.land b1 7) 18 + N.shiftl (cont b2) 12
                 + N.shiftl (cont b3) 6 + cont b4)%N ++ decode t4
        end
      end
    end
  end.

Definition lit (s : String.string) : jsstring := decode (bytes s).

Arguments lit s%_string.

Definition eqb (a b : jsstring) : bool :=
  if list_eq_dec N.eq_dec a b then true else false.

(** *** Character classes *)

Definition charclass := char -> bool.

Definition isChar (c : N) : charclass := fun x => (x =? c)%N.
Definition oneOf (cs : list N) : charclass :=
  fun x => existsb (fun c => (x =? c)%N) cs.
Definition union (p q : charclass) : charclass := fun x => p x || q x.
Definition compl (p : charclass) : charclass := fun x => negb (p x).

(** [\d] *)
Definition digit : charclass := fun x => ((48 <=? x) && (x <=? 57))%N.

(** ECMAScript LineTerminator: LF, CR, LS, PS. *)
Definition lineTerminator : charclass := oneOf [10; 13; 8232; 8233]%N.

(** ECMAScript WhiteSpace: TAB, VT, FF, SP, NBSP, ZWNBSP and the Unicode
    space separators (category Zs). *)
Definition whiteSpace : charclass :=
  fun x => oneOf [9; 11; 12; 32; 160; 5760; 8239; 8287; 12288; 65279]%N x
           || ((8192 <=? x) && (x <=? 8202))%N.

(** [\s], also the set stripped by [trim]. *)
Definition space : charclass := union whiteSpace lineTerminator.

(** [.] without the [s] flag *)
Definition dot : charclass := compl lineTerminator.

(** *** String methods *)

Fixpoint trimStart (s : jsstring) : jsstring :=
  match s with
  | [] => []
  | c :: s' => if space c then trimStart s' else s
  end.

Definition trimEnd (s : jsstring) : jsstring := rev (trimStart (rev s)).

Definition trim (s : jsstring) : jsstring := trimEnd (trimStart s).

(** [s.substring(n)] for [0 <= n] *)
Definition substring (n : nat) (s : jsstring) : jsstring := skipn n s.

(** [s.padStart(n, '0')] and [s.padEnd(n, '0')] *)
Definition padStart0 (n : nat) (s : jsstring) : jsstring :=
  repeat 48%N (n - length s) ++ s.

Definition padEnd0 (n : nat) (s : jsstring) : jsstring :=
  s ++ repeat 48%N (n - length s).

Fixpoint startsWith (pat s : jsstring) : bool :=
  match pat, s with
  | [], _ => true
  | _ :: _, [] => false
  | p :: pat', c :: s' => (p =? c)%N && startsWith pat' s'
  end.

(** [s.includes(pat)] *)
Fixpoint includes (pat s : jsstring) : bool :=
  startsWith pat s ||
  match s with
  | [] => false
  | _ :: s' => includes pat s'
  end.

(** [s.split('\n')]: the result always has at least one element. *)
Fixpoint splitLines (s : jsstring) : list jsstring :=
  match s with
  | [] => [[]]
  | c :: s' =>
    if (c =? 10)%N then [] :: splitLines s'
    else match splitLines s' with
         | [] => [[c]]
         | l :: ls => (c :: l) :: ls
         end
  end.

(** Decimal rendering of a non-negative integer, as in a template literal. *)
Definition ofNumber (n : N) : jsstring :=
  lit (DecimalString.NilZero.string_of_uint (N.to_uint n)).

End JS.

Import JS.

(** ** Regular expressions *)

Module Regex.

(** The regex syntax covers what the source's patterns use: quantifiers are
    applied to single character classes only ([\d{1,2}], [\s*], [.+?],
    [[^>]+] ...), and to non-capturing groups only as [(?:...)?]. *)
Inductive regex : Type :=
| Eps
| Bol
| Chr (p : charclass)
| Rep (p : charclass) (lo : nat) (hi : option nat) (greedy : bool)
| Cat (r1 r2 : regex)
| Alt (r1 r2 : regex)
| Opt (r : regex)
| Grp (n : nat) (r : regex).

Definition seq (rs : list regex) : regex := fold_right Cat Eps rs.

(** Capture groups: [None] is JavaScript's [undefined]. *)
Definition captures := nat -> option jsstring.

Definition noCaptures : captures := fun _ => None.

Definition upd (n : nat) (w : jsstring) (c : captures) : captures :=
  fun k => if Nat.eqb k n then Some w else c k.

Definition isNil (w : jsstring) : bool :=
  match w with [] => true | _ => false end.

Definition consFst (x : char) (p : jsstring * jsstring) :=
  (x :: fst p, snd p).

(** All ways to take a run of at most [hi] characters of class [p] off the
    front of [s], shortest first. *)
Fixpoint splits (p : charclass) (hi : option nat) (s : jsstring)
  : list (jsstring * jsstring) :=
  ([], s) ::
  match s with
  | [] => []
  | x :: s' =>
    if p x then
      match hi with
      | Some 0 => []
      | Some (S h) => map (consFst x) (splits p (Some h) s')
      | None => map (consFst x) (splits p None s')
      end
    else []
  end.

Definition outcome := (jsstring * jsstring * captures)%type.

(** [run r bol s c]: every way [r] matches at the front of [s], as
    (matched text, remaining input, captures), in the order in which the
    backtracking matcher tries them.  [bol] tells whether the front of [s]
    is the start of the input. *)
Fixpoint run (r : regex) (bol : bool) (s : jsstring) (c : captures)
  : list outcome :=
  match r with
  | Eps => [([], s, c)]
  | Bol => if bol then [([], s, c)] else []
  | Chr p =>
    match s with
    | x :: s' => if p x then [([x], s', c)] else []
    | [] => []
    end
  | Rep p lo hi greedy =>
    let l := filter (fun ws => lo <=? length (fst ws)) (splits p hi s) in
    map (fun ws => (fst ws, snd ws, c)) (if greedy then rev l else l)
  | Cat r1 r2 =>
    flat_map (fun o1 : outcome =>
      let '(w1, s1, c1) := o1 in
      map (fun o2 : outcome =>
             let '(w2, s2, c2) := o2 in (w1 ++ w2, s2, c2))
          (run r2 (bol && isNil w1) s1 c1))
      (run r1 bol s c)
  | Alt r1 r2 => run r1 bol s c ++ run r2 bol s c
  | Opt r1 =>
    filter (fun o : outcome => negb (isNil (fst (fst o)))) (run r1 bol s c)
    ++ [([], s, c)]
  | Grp n r1 =>
    map (fun o : outcome => let '(w, s', c') := o in (w, s', upd n w c'))
        (run r1 bol s c)
  end.

(** The result of [RegExp.prototype.exec] without the [g] flag: the index
    of the match, the array of the whole match and the groups, and the
    input after the match. *)
Record MatchResult := {
  m_index : nat;
  m_groups : captures;
  m_rest : jsstring
}.

Fixpoint execFrom (r : regex) (i : nat) (s : jsstring) : option MatchResult :=
  match run r (Nat.eqb i 0) s noCaptures with
  | (w, s', c) :: _ => Some {| m_index := i; m_groups := upd 0 w c; m_rest := s' |}
  | [] =>
    match s with
    | [] => None
    | _ :: s' => execFrom r (S i) s'
    end
  end.

(** [s.match(r)] for a regex without flags *)
Definition exec (r : regex) (s : jsstring) : option MatchResult :=
  execFrom r 0 s.

(** [s.replace(r, '')] for a regex without flags: the first match is
    removed. *)
Definition replaceFirst (r : regex) (s : jsstring) : jsstring :=
  match exec r s with
  | Some m => firstn (m_index m) s ++ m_rest m
  | None => s
  end.

(** [s.replace(r, '')] for a regex with the [g] flag: every match, found
    left to right, is removed.  [skip] counts the characters of the
    current match still to drop; an empty match advances by one
    character. *)
Fixpoint replaceAllFrom (r : regex) (bol : bool) (skip : nat) (s : jsstring)
  : jsstring :=
  match skip with
  | S k =>
    match s with
    | [] => []
    | _ :: s' => replaceAllFrom r false k s'
    end
  | 0 =>
    match s with
    | [] => []
    | x :: s' =>
      match run r bol s noCaptures with
      | (_ :: w, _, _) :: _ => replaceAllFrom r false (length w) s'
      | _ => x :: replaceAllFrom r false 0 s'
      end
    end
  end.

Definition replaceAll (r : regex) (s : jsstring) : jsstring :=
  replaceAllFrom r true 0 s.

End Regex.

Import Regex.

(** ** The patterns of the source *)

Module Patterns.

Definition ch (s : String.string) : char := hd 0%N (lit s).

Arguments ch s%_string.

(** A literal string inside a pattern *)
Definition Str (s : jsstring) : regex :=
  fold_right (fun c r => Cat (Chr (isChar c)) r) Eps s.

Definition plus (p : charclass) : regex := Rep p 1 None true.
Definition star (p : charclass) : regex := Rep p 0 None true.
Definition digits (lo hi : nat) : regex := Rep digit lo (Some hi) true.

(** [^(.+?)\s+\d{1,2}\s*:\s*\d{1,2}] *)
Definition speakerTimeRe : regex :=
  seq [Bol; Grp 1 (Rep dot 1 None false); plus space;
       digits 1 2; star space; Chr (isChar (ch ":")); star space; digits 1 2].

(** [[\s:：]] *)
Definition speakerSep : charclass :=
  union space (oneOf [ch ":"; ch "："]).

(** [^(.+?)[\s:：]+] *)
Definition speakerSepRe : regex :=
  seq [Bol; Grp 1 (Rep dot 1 None false); plus speakerSep].

(** [(\d{1,2})\s*:\s*(\d{1,2})(?:\s*:\s*(\d{1,2}))?(?:\.(\d{1,3}))?], with
    its four groups numbered from [k] *)
Definition timeParts (k : nat) : regex :=
  seq [Grp k (digits 1 2); star space; Chr (isChar (ch ":")); star space;
       Grp (k + 1) (digits 1 2);
       Opt (seq [star space; Chr (isChar (ch ":")); star space;
                 Grp (k + 2) (digits 1 2)]);
       Opt (seq [Chr (isChar (ch ".")); Grp (k + 3) (digits 1 3)])].

(** [[\-~〜\s　]] *)
Definition rangeSep : charclass :=
  union (oneOf [ch "-"; ch "~"; ch "〜"]) (union space (isChar (ch "　"))).

(** The two-timestamp pattern: [^], a time, [[\-~〜\s　]+], a time. *)
Definition timeRangeRe : regex :=
  seq [Bol; timeParts 1; plus rangeSep; timeParts 5].

(** The single-timestamp pattern: [^] and a time. *)
Definition timeRe : regex := seq [Bol; timeParts 1].

(** [\d+:\d+:\d+\.\d+] *)
Definition stamp : regex :=
  seq [plus digit; Chr (isChar (ch ":")); plus digit; Chr (isChar (ch ":"));
       plus digit; Chr (isChar (ch ".")); plus digit].

(** [(\d+:\d+:\d+\.\d+)\s+-->\s+(\d+:\d+:\d+\.\d+)] *)
Definition cueRe : regex :=
  seq [Grp 1 stamp; plus space; Str (lit "-->"); plus space; Grp 2 stamp].

(** [<v\s+([^>]+)>] *)
Definition voiceRe : regex :=
  seq [Str (lit "<v"); plus space;
       Grp 1 (plus (compl (isChar (ch ">")))); Chr (isChar (ch ">"))].

(** [<v\s+[^>]+>|<\/v>], used with the [g] flag *)
Definition voiceTagRe : regex :=
  Alt (seq [Str (lit "<v"); plus space; plus (compl (isChar (ch ">")));
            Chr (isChar (ch ">"))])
      (Str (lit "</v>")).

(** The three-group date patterns [(\d{4})S(\d{1,2})S(\d{1,2})] *)
Definition ymdRe (sep : String.string) : regex :=
  seq [Grp 1 (digits 4 4); Str (lit sep); Grp 2 (digits 1 2); Str (lit sep);
       Grp 3 (digits 1 2)].

(** [(\d{4})(\d{2})(\d{2})] *)
Definition yyyymmddRe : regex :=
  seq [Grp 1 (digits 4 4); Grp 2 (digits 2 2); Grp 3 (digits 2 2)].

(** [(\d{4})年(\d{1,2})月(\d{1,2})日] *)
Definition kanjiYmdRe : regex :=
  seq [Grp 1 (digits 4 4); Str (lit "年"); Grp 2 (digits 1 2); Str (lit "月");
       Grp 3 (digits 1 2); Str (lit "日")].

(** [(\d{2})(\d{2})(\d{2})] *)
Definition yymmddRe : regex :=
  seq [Grp 1 (digits 2 2); Grp 2 (digits 2 2); Grp 3 (digits 2 2)].

(** The two-group date patterns [(\d{1,2})S(\d{1,2})] *)
Definition mdRe (sep : String.string) : regex :=
  seq [Grp 1 (digits 1 2); Str (lit sep); Grp 2 (digits 1 2)].

Arguments ymdRe sep%_string.
Arguments mdRe sep%_string.

(** [(\d{1,2})月(\d{1,2})日] *)
Definition kanjiMdRe : regex :=
  seq [Grp 1 (digits 1 2); Str (lit "月"); Grp 2 (digits 1 2); Str (lit "日")].

End Patterns.

Import Patterns.

(** ** The transcript entry *)

Record TranscriptEntry := {
  speaker : jsstring;
  startTime : jsstring;
  endTime : jsstring;
  text : jsstring
}.

(** A group read as a string.  Every use below is on a group that is
    defined whenever its pattern matches ([speakerMatch_label],
    [timeRe_inv], [timeRangeRe_inv] and [cueRe_inv] below), but for
    [speakerMatch[2]] of [cuePayload], which is [undefined] and is read
    only if [speakerMatch[1]] is empty, which it never is
    ([cuePayload_speaker]). *)
Definition str (o : option jsstring) : jsstring :=
  match o with Some w => w | None => [] end.

(** JavaScript truthiness of [string | undefined] *)
Definition truthy (o : option jsstring) : bool :=
  match o with Some (_ :: _) => true | _ => false end.

(** [parsedTranscript[parsedTranscript.length - 1]] *)
Definition lastEntry (acc : list TranscriptEntry) : option TranscriptEntry :=
  match rev acc with e :: _ => Some e | [] => None end.

(** In-place update of the last element of the array *)
Fixpoint modifyLast (f : TranscriptEntry -> TranscriptEntry)
  (acc : list TranscriptEntry) : list TranscriptEntry :=
  match acc with
  | [] => []
  | [e] => [f e]
  | e :: acc' => e :: modifyLast f acc'
  end.

(** ** The time normaliser

    The source writes these five lines three times (start and end of a
    range, single timestamp); [k] is the number of the first group of the
    time: [m[k+2] ? m[k] : '00'] and so on. *)
Definition normalizeTime (m : captures) (k : nat) : jsstring :=
  let h := if truthy (m (k + 2)) then str (m k) else lit "00" in
  let mi := if truthy (m (k + 2)) then str (m (k + 1)) else str (m k) in
  let s := if truthy (m (k + 2)) then str (m (k + 2)) else str (m (k + 1)) in
  let ms := if truthy (m (k + 3)) then padEnd0 3 (str (m (k + 3)))
            else lit "000" in
  padStart0 2 h ++ lit ":" ++ padStart0 2 mi ++ lit ":" ++ padStart0 2 s
    ++ lit "." ++ ms.

(** ** The freeform line parser ([parseTxtFile], [parseDocxFile]) *)

Definition speakerMatch (line : jsstring) : option MatchResult :=
  match exec speakerTimeRe line with
  | Some m => Some m
  | None => exec speakerSepRe line
  end.

(** [startTime] and [endTime] of a line's content *)
Definition lineTimes (content : jsstring) : jsstring * jsstring :=
  match exec timeRangeRe content with
  | Some timeRangeMatch =>
    (normalizeTime (m_groups timeRangeMatch) 1,
     normalizeTime (m_groups timeRangeMatch) 5)
  | None =>
    match exec timeRe content with
    | Some timeMatchRaw => (normalizeTime (m_groups timeMatchRaw) 1, [])
    | None => ([], [])
    end
  end.

Definition contentWithoutTime (content : jsstring) : jsstring :=
  trim (replaceFirst timeRe (replaceFirst timeRangeRe content)).

(** The entry pushed for a line on which a speaker was found *)
Definition splitLine (line : jsstring) (sm : MatchResult) : TranscriptEntry :=
  let content := trim (substring (length (str (m_groups sm 1))) line) in
  {| speaker := trim (str (m_groups sm 1));
     startTime := fst (lineTimes content);
     endTime := snd (lineTimes content);
     text := contentWithoutTime content |}.

Definition appendText (line : jsstring) (e : TranscriptEntry) : TranscriptEntry :=
  {| speaker := speaker e; startTime := startTime e; endTime := endTime e;
     text := text e ++ line |}.

(** One iteration of the loop, on [lines[i]] *)
Definition txtStep (parsedTranscript : list TranscriptEntry) (raw : jsstring)
  : list TranscriptEntry :=
  let line := trim raw in
  match speakerMatch line with
  | Some sm => parsedTranscript ++ [splitLine line sm]
  | None =>
    if 0 <? length parsedTranscript
    then modifyLast (appendText line) parsedTranscript
    else parsedTranscript ++
         [{| speaker := []; startTime := []; endTime := []; text := line |}]
  end.

Definition nonBlank (line : jsstring) : bool := negb (eqb (trim line) []).

Definition txtLines (text : jsstring) : list jsstring :=
  filter nonBlank (splitLines text).

Definition parseTxtFile (text : jsstring) : list TranscriptEntry :=
  fold_left txtStep (txtLines text) [].

(** [parseDocxFile] runs the same statements on the text extracted from
    the document. *)
Definition parseDocxFile (text : jsstring) : list TranscriptEntry :=
  fold_left txtStep (txtLines text) [].

(** ** The caption parser ([parseVttFile]) *)

Definition arrow : jsstring := lit "-->".

(** The header skip: [while (i < lines.length && !lines[i].includes('-->'))] *)
Fixpoint skipHeader (lines : list jsstring) : list jsstring :=
  match lines with
  | [] => []
  | l :: lines' => if includes arrow l then lines else skipHeader lines'
  end.

(** Speaker and text of a cue's payload line *)
Definition cuePayload (contentLine : jsstring) : jsstring * jsstring :=
  match exec voiceRe contentLine with
  | Some speakerMatch =>
    ((if truthy (m_groups speakerMatch 1) then str (m_groups speakerMatch 1)
      else str (m_groups speakerMatch 2)),
     trim (replaceAll voiceTagRe contentLine))
  | None => (lit "不明", contentLine)
  end.

Definition extendEntry (endTime' text' : jsstring) (e : TranscriptEntry)
  : TranscriptEntry :=
  {| speaker := speaker e; startTime := startTime e; endTime := endTime';
     text := text e ++ text' |}.

(** The merge or push of one cue *)
Definition pushCue (parsedTranscript : list TranscriptEntry)
  (speaker' startTime' endTime' text' : jsstring) : list TranscriptEntry :=
  match lastEntry parsedTranscript with
  | Some e =>
    if eqb (speaker e) speaker'
    then modifyLast (extendEntry endTime' text') parsedTranscript
    else parsedTranscript ++
         [{| speaker := speaker'; startTime := startTime';
             endTime := endTime'; text := text' |}]
  | None =>
    parsedTranscript ++
    [{| speaker := speaker'; startTime := startTime';
        endTime := endTime'; text := text' |}]
  end.

(** The main loop: [lines] is [lines[i..]]. *)
Fixpoint vttLoop (lines : list jsstring) (parsedTranscript : list TranscriptEntry)
  : list TranscriptEntry :=
  match lines with
  | [] => parsedTranscript
  | raw :: lines1 =>
    let line := trim raw in
    if includes arrow line then
      match exec cueRe line with
      | Some timeMatch =>
        match lines1 with
        | rawContent :: lines2 =>
          let contentLine := trim rawContent in
          vttLoop lines2
            (pushCue parsedTranscript (fst (cuePayload contentLine))
               (str (m_groups timeMatch 1)) (str (m_groups timeMatch 2))
               (snd (cuePayload contentLine)))
        | [] => parsedTranscript
        end
      | None => vttLoop lines1 parsedTranscript
      end
    else vttLoop lines1 parsedTranscript
  end.

Definition parseVttFile (text : jsstring) : list TranscriptEntry :=
  vttLoop (skipHeader (splitLines text)) [].

(** ** The filename date extractor ([extractDate]) *)

(** A JavaScript completion: a value, or a [TypeError] from a method call
    on [undefined]. *)
Inductive completion (A : Type) : Type :=
| Return (a : A)
| TypeError.

Arguments Return {A} a.
Arguments TypeError {A}.

Definition bind {A B} (x : completion A) (f : A -> completion B) : completion B :=
  match x with
  | Return a => f a
  | TypeError => TypeError
  end.

Notation "x <- e ;; k" := (bind e (fun x => k))
  (at level 61, e at next level, right associativity).

(** [m[k]] as the receiver of a method call or inside a template literal
    after one *)
Definition grp (m : MatchResult) (k : nat) : completion jsstring :=
  match m_groups m k with
  | Some w => Return w
  | None => TypeError
  end.

(** [`${m[1]}-${m[2].padStart(2, '0')}-${m[3].padStart(2, '0')}`] *)
Definition fmtPadded (m : MatchResult) : completion jsstring :=
  y <- grp m 1 ;; mo <- grp m 2 ;; d <- grp m 3 ;;
  Return (y ++ lit "-" ++ padStart0 2 mo ++ lit "-" ++ padStart0 2 d).

(** [`${m[1]}-${m[2]}-${m[3]}`] *)
Definition fmtPlain (m : MatchResult) : completion jsstring :=
  y <- grp m 1 ;; mo <- grp m 2 ;; d <- grp m 3 ;;
  Return (y ++ lit "-" ++ mo ++ lit "-" ++ d).

(** [`20${m[1]}-${m[2]}-${m[3]}`] *)
Definition fmtCentury (m : MatchResult) : completion jsstring :=
  y <- grp m 1 ;; mo <- grp m 2 ;; d <- grp m 3 ;;
  Return (lit "20" ++ y ++ lit "-" ++ mo ++ lit "-" ++ d).

(** [`${currentYear}-${m[1].padStart(2, '0')}-${m[2].padStart(2, '0')}`] *)
Definition fmtThisYear (currentYear : N) (m : MatchResult) : completion jsstring :=
  mo <- grp m 1 ;; d <- grp m 2 ;;
  Return (ofNumber currentYear ++ lit "-" ++ padStart0 2 mo ++ lit "-"
          ++ padStart0 2 d).

Definition found (r : completion jsstring) : completion (option jsstring) :=
  s <- r ;; Return (Some s).

(** [extractDate], with the year of [new Date()] as a parameter.  The
    result [Return None] is [null]. *)
Definition extractDate (currentYear : N) (fileName : jsstring)
  : completion (option jsstring) :=
  match exec (ymdRe "-") fileName with
  | Some m => found (fmtPadded m)
  | None =>
  match exec (ymdRe "_") fileName with
  | Some m => found (fmtPadded m)
  | None =>
  match exec (ymdRe ".") fileName with
  | Some m => found (fmtPadded m)
  | None =>
  match exec yyyymmddRe fileName with
  | Some m => found (fmtPlain m)
  | None =>
  match exec kanjiYmdRe fileName with
  | Some m => found (fmtPadded m)
  | None =>
  match exec yymmddRe fileName with
  | Some m => found (fmtCentury m)
  | None =>
  match exec (mdRe "-") fileName with
  | Some m => found (fmtThisYear currentYear m)
  | None =>
  match exec (mdRe "_") fileName with
  | Some m => found (fmtThisYear currentYear m)
  | None =>
  match exec (mdRe ".") fileName with
  | Some m => found (fmtThisYear currentYear m)
  | None =>
  match exec kanjiMdRe fileName with
  | Some m => found (fmtThisYear currentYear m)
  | None => Return None
  end end end end end end end end end end.

(** ** The transcript download ([handleDownloadTranscript]) *)

(** [parts.join(sep)] *)
Fixpoint joinWith (sep : jsstring) (parts : list jsstring) : jsstring :=
  match parts with
  | [] => []
  | [p] => p
  | p :: parts' => p ++ sep ++ joinWith sep parts'
  end.

(** The callback of [transcript.map]:
    [`${timeInfo}${entry.speaker}: ${entry.text}`] with
    [timeInfo = entry.startTime ? `[${entry.startTime}] ` : ''] *)
Definition entryText (entry : TranscriptEntry) : jsstring :=
  let timeInfo :=
    if truthy (Some (startTime entry))
    then lit "[" ++ startTime entry ++ lit "] "
    else [] in
  timeInfo ++ speaker entry ++ lit ": " ++ text entry.

(** The text of the downloaded file: the entries joined by ['\n\n'].  The
    guard [!transcript] of the handler never holds, an array being
    truthy. *)
Definition transcriptText (transcript : list TranscriptEntry) : jsstring :=
  joinWith [10; 10]%N (map entryText transcript).

(** ** The thinking blocks of the generated minutes

    [handleDownloadMarkdown] of the application and [extractThinkBlocks] of
    the output area. *)

(** [[\s\S]] *)
Definition anyChar : charclass := fun _ => true.

(** [<think>[\s\S]*?<\/think>], used with the [g] flag *)
Definition thinkStripRe : regex :=
  seq [Str (lit "<think>"); Rep anyChar 0 None false; Str (lit "</think>")].

(** [<think>([\s\S]*?)<\/think>], used with the [g] flag *)
Definition thinkRegex : regex :=
  seq [Str (lit "<think>"); Grp 1 (Rep anyChar 0 None false);
       Str (lit "</think>")].

(** [formattedMarkdown] of [handleDownloadMarkdown]; [None] when the
    handler alerts and returns on empty minutes. *)
Definition formattedMarkdown (markdownContent : jsstring) : option jsstring :=
  if isNil markdownContent then None
  else Some (trim (replaceAll thinkStripRe markdownContent)).

Module Think.

Record ThinkBlock := {
  id : jsstring;
  content : jsstring
}.

End Think.

(** [s.replace(pat, '')] with a string pattern: the first occurrence of
    [pat] is removed. *)
Fixpoint removeFirst (pat s : jsstring) : jsstring :=
  if startsWith pat s then skipn (length pat) s
  else match s with
       | [] => []
       | c :: s' => c :: removeFirst pat s'
       end.

(** The loop [while ((match = thinkRegex.exec(content)) !== null)]: [s] is
    the content from the current position, [skip] the number of its
    characters that precede [lastIndex], [acc] the pair of
    [cleanedContent] and [blocks].  The pattern never matches the empty
    string, so [lastIndex] always advances. *)
Fixpoint thinkScan (skip : nat) (bol : bool) (s : jsstring) (index : nat)
  (acc : jsstring * list Think.ThinkBlock) : jsstring * list Think.ThinkBlock :=
  match s with
  | [] => acc
  | _ :: s' =>
    match skip with
    | S k => thinkScan k false s' index acc
    | 0 =>
      match run thinkRegex bol s noCaptures with
      | (y :: w, _, c) :: _ =>
        thinkScan (length w) false s' (S index)
          (removeFirst (y :: w) (fst acc),
           snd acc ++
           [{| Think.id := lit "think-block-" ++ ofNumber (N.of_nat index);
               Think.content := str (c 1) |}])
      | _ => thinkScan 0 false s' index acc
      end
    end
  end.

(** [extractThinkBlocks]: the pair [(cleanedContent, blocks)] *)
Definition extractThinkBlocks (content : jsstring)
  : jsstring * list Think.ThinkBlock :=
  thinkScan 0 true content 0 (content, []).

(** ** The settings and their storage ([App], [handleSaveSettings]) *)

(** [localStorage]: [None] is the [null] of [getItem]. *)
Definition Storage : Type := jsstring -> option jsstring.

Definition getItem (key : jsstring) (storage : Storage) : option jsstring :=
  storage key.

Definition setItem (key value : jsstring) (storage : Storage) : Storage :=
  fun k => if eqb k key then Some value else storage k.

(** The state variables that the settings handlers read and write.  The
    type [LlmType] is a string at run time. *)
Record Settings := {
  geminiApiKey : jsstring;
  llmType : jsstring;
  ollamaUrl : jsstring;
  ollamaModel : jsstring;
  apiServerUrl : jsstring;
  apiKey : jsstring;
  useApiServer : bool;
  showSettingsModal : bool
}.

(** The initial values of [useState] *)
Definition initialSettings : Settings :=
  {| geminiApiKey := [];
     llmType := lit "gemini";
     ollamaUrl := lit "http://localhost:11434";
     ollamaModel := lit "llama2";
     apiServerUrl := lit "http://localhost:3000";
     apiKey := lit "meeting-summarizer-api-key-for-testing";
     useApiServer := true;
     showSettingsModal := false |}.

(** [stored || current]; the effect's [if (stored) setX(stored)] leaves
    the current value when [stored] is [null] or empty. *)
Definition orElse (stored : option jsstring) (current : jsstring) : jsstring :=
  if truthy stored then str stored else current.

(** The initialisation effect of [App] *)
Definition loadSettings (storage : Storage) (st : Settings) : Settings :=
  {| geminiApiKey := orElse (getItem (lit "geminiApiKey") storage) (geminiApiKey st);
     llmType := orElse (getItem (lit "llmType") storage) (llmType st);
     ollamaUrl := orElse (getItem (lit "ollamaUrl") storage) (ollamaUrl st);
     ollamaModel := orElse (getItem (lit "ollamaModel") storage) (ollamaModel st);
     apiServerUrl := orElse (getItem (lit "apiServerUrl") storage) (apiServerUrl st);
     apiKey := orElse (getItem (lit "apiKey") storage) (apiKey st);
     useApiServer :=
       match getItem (lit "useApiServer") storage with
       | Some stored => eqb stored (lit "true")
       | None => useApiServer st
       end;
     showSettingsModal := showSettingsModal st |}.

(** [String(b)] *)
Definition ofBoolean (b : bool) : jsstring :=
  if b then lit "true" else lit "false".

(** [handleSaveSettings]: the new state and the new storage.  The modal is
    closed at the end. *)
Definition handleSaveSettings (new : Settings) (storage : Storage)
  : Settings * Storage :=
  ({| geminiApiKey := geminiApiKey new;
      llmType := llmType new;
      ollamaUrl := ollamaUrl new;
      ollamaModel := ollamaModel new;
      apiServerUrl := apiServerUrl new;
      apiKey := apiKey new;
      useApiServer := useApiServer new;
      showSettingsModal := false |},
   setItem (lit "useApiServer") (ofBoolean (useApiServer new))
     (setItem (lit "apiKey") (apiKey new)
     (setItem (lit "apiServerUrl") (apiServerUrl new)
     (setItem (lit "ollamaModel") (ollamaModel new)
     (setItem (lit "ollamaUrl") (ollamaUrl new)
     (setItem (lit "llmType") (llmType new)
     (setItem (lit "geminiApiKey") (geminiApiKey new) storage))))))).

(** ** The file selection ([handleFileSelect]) *)

(** [s.split(d)] for a one-character separator *)
Fixpoint splitOn (d : char) (s : jsstring) : list jsstring :=
  match s with
  | [] => [[]]
  | c :: s' =>
    if (c =? d)%N then [] :: splitOn d s'
    else match splitOn d s' with
         | [] => [[c]]
         | l :: ls => (c :: l) :: ls
         end
  end.

(** [exec] for a pattern that ends in [$]: [r] is the pattern before the
    [$], and at each index the first way to match that reaches the end of
    the input is taken. *)
Fixpoint execEndFrom (r : regex) (i : nat) (s : jsstring) : option MatchResult :=
  match filter (fun o : outcome => isNil (snd (fst o)))
               (run r (Nat.eqb i 0) s noCaptures) with
  | (w, s', c) :: _ =>
    Some {| m_index := i; m_groups := upd 0 w c; m_rest := s' |}
  | [] =>
    match s with
    | [] => None
    | _ :: s' => execEndFrom r (S i) s'
    end
  end.

(** The part before [$] of [/\.[^/.]+$/] *)
Definition extensionRe : regex :=
  seq [Chr (isChar (ch ".")); plus (compl (oneOf [ch "/"; ch "."]))].

(** [file.name.replace(/\.[^/.]+$/, "")] *)
Definition withoutExtension (fileName : jsstring) : jsstring :=
  match execEndFrom extensionRe 0 fileName with
  | Some m => firstn (m_index m) fileName ++ m_rest m
  | None => fileName
  end.

(** A selected file: its name, and the text that reading it yields
    ([FileReader.readAsText], or [mammoth.extractRawText] for a
    word-processor file); [None] when the read or the extraction fails, in
    which case the transcript state is left as it is. *)
Record File := {
  name : jsstring;
  readText : option jsstring
}.

(** The state variables that [handleFileSelect] and the parsers' callbacks
    read and write *)
Record FileState := {
  selectedFile : option File;
  transcriptFileName : jsstring;
  meetingDate : jsstring;
  transcript : list TranscriptEntry;
  rawTranscriptText : jsstring
}.

(** The initial values of [useState] *)
Definition initialFileState : FileState :=
  {| selectedFile := None; transcriptFileName := []; meetingDate := [];
     transcript := []; rawTranscriptText := [] |}.

(** The state after the read of [file] has completed under [parse] *)
Definition loaded (parse : jsstring -> list TranscriptEntry) (file : File)
  (st : FileState) : FileState :=
  match readText file with
  | Some text =>
    {| selectedFile := selectedFile st;
       transcriptFileName := transcriptFileName st;
       meetingDate := meetingDate st;
       transcript := parse text;
       rawTranscriptText := text |}
  | None => st
  end.

Definition cleared (st : FileState) : FileState :=
  {| selectedFile := selectedFile st;
     transcriptFileName := transcriptFileName st;
     meetingDate := meetingDate st;
     transcript := [];
     rawTranscriptText := [] |}.

Section FileSelect.

(** [String.prototype.toLowerCase], and the year of [new Date()] *)
Variable toLowerCase : jsstring -> jsstring.
Variable currentYear : N.

(** [handleFileSelect], with the read of the file completed.  [st] is the
    state of the render that created the handler: the handler reads
    [transcriptFileName] from it, while [setTranscriptFileName] takes
    effect in the next state only. *)
Definition handleFileSelect (st : FileState) (file : option File)
  : completion FileState :=
  match file with
  | Some f =>
    d <- extractDate currentYear (transcriptFileName st) ;;
    let st1 :=
      {| selectedFile := Some f;
         transcriptFileName := withoutExtension (name f);
         meetingDate := orElse d [];
         transcript := transcript st;
         rawTranscriptText := rawTranscriptText st |} in
    let fileExtension := toLowerCase (last (splitOn (ch ".") (name f)) []) in
    if eqb fileExtension (lit "vtt") then Return (loaded parseVttFile f st1)
    else if eqb fileExtension (lit "txt") then Return (loaded parseTxtFile f st1)
    else if eqb fileExtension (lit "docx") then Return (loaded parseDocxFile f st1)
    else Return (cleared st1)
  | None =>
    Return (cleared {| selectedFile := None;
                       transcriptFileName := transcriptFileName st;
                       meetingDate := meetingDate st;
                       transcript := transcript st;
                       rawTranscriptText := rawTranscriptText st |})
  end.

End FileSelect.

(** [hasTranscript] of [App] *)
Definition hasTranscript (st : FileState) : bool :=
  (0 <? length (transcript st)) || negb (isNil (rawTranscriptText st)).

(** * Vocabulary of the properties *)

(** ** Matching, declaratively *)

(** Every character of [w] is in the class [p]. *)
Definition allOf (p : charclass) (w : jsstring) : Prop :=
  Forall (fun x => p x = true) w.

(** [Matches r bol s c w s' c']: [r] can match the text [w] at the front of
    [s], leaving [s'] and turning the captures [c] into [c']. *)
Inductive Matches : regex -> bool -> jsstring -> captures ->
                    jsstring -> jsstring -> captures -> Prop :=
| M_Eps b s c : Matches Eps b s c [] s c
| M_Bol s c : Matches Bol true s c [] s c
| M_Chr p b x s c : p x = true -> Matches (Chr p) b (x :: s) c [x] s c
| M_Rep p lo hi g b w s c :
    allOf p w -> lo <= length w ->
    (forall h, hi = Some h -> length w <= h) ->
    Matches (Rep p lo hi g) b (w ++ s) c w s c
| M_Cat r1 r2 b s c w1 s1 c1 w2 s2 c2 :
    Matches r1 b s c w1 s1 c1 ->
    Matches r2 (b && isNil w1) s1 c1 w2 s2 c2 ->
    Matches (Cat r1 r2) b s c (w1 ++ w2) s2 c2
| M_AltL r1 r2 b s c w s' c' :
    Matches r1 b s c w s' c' -> Matches (Alt r1 r2) b s c w s' c'
| M_AltR r1 r2 b s c w s' c' :
    Matches r2 b s c w s' c' -> Matches (Alt r1 r2) b s c w s' c'
| M_OptSome r b s c w s' c' :
    Matches r b s c w s' c' -> w <> [] -> Matches (Opt r) b s c w s' c'
| M_OptNone r b s c : Matches (Opt r) b s c [] s c
| M_Grp n r b s c w s' c' :
    Matches r b s c w s' c' -> Matches (Grp n r) b s c w s' (upd n w c').

(** ** Captured groups *)

(** Group [n] set when the optional part was taken *)
Definition updOpt (n : nat) (o : option jsstring) (c : captures) : captures :=
  match o with Some w => upd n w c | None => c end.

(** The groups of [r] that lie on every path through it *)
Fixpoint mandatory (r : regex) : list nat :=
  match r with
  | Grp n r1 => n :: mandatory r1
  | Cat r1 r2 => mandatory r1 ++ mandatory r2
  | _ => []
  end.

(** All the groups of [r] *)
Fixpoint groupsOf (r : regex) : list nat :=
  match r with
  | Grp n r1 => n :: groupsOf r1
  | Cat r1 r2 | Alt r1 r2 => groupsOf r1 ++ groupsOf r2
  | Opt r1 => groupsOf r1
  | _ => []
  end.

(** ** Time expressions *)

(** Between [lo] and [hi] digits *)
Definition isDigits (lo hi : nat) (w : jsstring) : Prop :=
  allOf digit w /\ lo <= length w <= hi.

Definition optDigits (lo hi : nat) (o : option jsstring) : Prop :=
  match o with Some g => isDigits lo hi g | None => True end.

(** The text of an optional third component: [: g3] with optional white
    space around the colon, or nothing. *)
Definition thirdText (o3 : option jsstring) (t : jsstring) : Prop :=
  match o3 with
  | Some g3 => exists ws3 ws4,
      t = ws3 ++ [ch ":"] ++ ws4 ++ g3 /\ allOf space ws3 /\ allOf space ws4
  | None => t = []
  end.

(** The text of optional milliseconds: [. g4], or nothing. *)
Definition msText (o4 : option jsstring) (t : jsstring) : Prop :=
  match o4 with
  | Some g4 => t = [ch "."] ++ g4
  | None => t = []
  end.

(** The text of a time with the components [g1], [g2] and the optional
    [o3] and [o4]: [g1 : g2], then [: g3] if there is a third component and
    [. g4] if there are milliseconds, with optional white space around the
    colons. *)
Definition timeText (g1 g2 : jsstring) (o3 o4 : option jsstring)
  (w : jsstring) : Prop :=
  exists ws1 ws2 t3 t4,
    w = g1 ++ ws1 ++ [ch ":"] ++ ws2 ++ g2 ++ t3 ++ t4 /\
    thirdText o3 t3 /\ msText o4 t4 /\ allOf space ws1 /\ allOf space ws2.

(** The canonical time string [HH:MM:SS.mmm]: twelve code units, digits
    but for the two colons and the period. *)
Definition isCanonicalTime (t : jsstring) : bool :=
  match t with
  | [h1; h2; c1; m1; m2; c2; s1; s2; p; f1; f2; f3] =>
    digit h1 && digit h2 && (c1 =? ch ":")%N && digit m1 && digit m2
    && (c2 =? ch ":")%N && digit s1 && digit s2 && (p =? ch ".")%N
    && digit f1 && digit f2 && digit f3
  | _ => false
  end.

(** The millisecond field: [000] when absent, padded on the right
    otherwise. *)
Definition msField (o4 : option jsstring) : jsstring :=
  match o4 with
  | None => lit "000"
  | Some g4 => padEnd0 3 g4
  end.

(** Field assignment by component count, as the specification words it:
    two components are minute and second under hour [00], three are hour,
    minute and second. *)
Definition byCount (g1 g2 : jsstring) (o3 o4 : option jsstring) : jsstring :=
  match o3 with
  | None => lit "00" ++ lit ":" ++ padStart0 2 g1 ++ lit ":" ++ padStart0 2 g2
  | Some g3 =>
    padStart0 2 g1 ++ lit ":" ++ padStart0 2 g2 ++ lit ":" ++ padStart0 2 g3
  end
  ++ lit "." ++ msField o4.

(** The matched text and the normalised time of the single-timestamp
    branch *)
Definition singleTime (content : jsstring) : option (jsstring * jsstring) :=
  option_map (fun m => (str (m_groups m 0), normalizeTime (m_groups m) 1))
             (exec timeRe content).

(** The normalised times of the two-timestamp branch *)
Definition rangeTimes (content : jsstring) : option (jsstring * jsstring) :=
  option_map (fun m => (normalizeTime (m_groups m) 1,
                        normalizeTime (m_groups m) 5))
             (exec timeRangeRe content).

(** ** Predicates on utterances *)

(** A time field is empty or canonical. *)
Definition timeOk (t : jsstring) : Prop := t = [] \/ isCanonicalTime t = true.

Definition timesCanonical (e : TranscriptEntry) : Prop :=
  timeOk (startTime e) /\ timeOk (endTime e).

(** An end time comes with a start time. *)
Definition endHasStart (e : TranscriptEntry) : Prop :=
  endTime e <> [] -> startTime e <> [].

(** Only the first entry can lack a speaker. *)
Definition laterAttributed (acc : list TranscriptEntry) : Prop :=
  Forall (fun e => speaker e <> []) (tl acc).

Definition digitRun (d : jsstring) : Prop := allOf digit d /\ 1 <= length d.

(** A cue timestamp as the cue line has it: four non-empty runs of digits,
    separated by [:], [:] and [.]. *)
Definition isStamp (t : jsstring) : Prop :=
  exists d1 d2 d3 d4,
    t = d1 ++ [ch ":"] ++ d2 ++ [ch ":"] ++ d3 ++ [ch "."] ++ d4 /\
    digitRun d1 /\ digitRun d2 /\ digitRun d3 /\ digitRun d4.

Definition timesStamped (e : TranscriptEntry) : Prop :=
  isStamp (startTime e) /\ isStamp (endTime e).

(** The text fields, concatenated in order *)
Definition allText (es : list TranscriptEntry) : jsstring :=
  concat (map text es).

(** The line has no speaker: neither speaker pattern matches it. *)
Definition unattributed (raw : jsstring) : bool :=
  match speakerMatch (trim raw) with
  | None => true
  | Some _ => false
  end.

(** The times of a cue line, when the main loop takes it as one *)
Definition cueOf (raw : jsstring) : option (jsstring * jsstring) :=
  if includes arrow (trim raw)
  then option_map (fun m => (str (m_groups m 1), str (m_groups m 2)))
                  (exec cueRe (trim raw))
  else None.

(** ** The date cascade *)

(** A pattern of the cascade with the formatter of its match *)
Definition datePattern : Type :=
  (regex * (N -> MatchResult -> completion jsstring))%type.

(** The ten patterns in the order of the specification: [YYYY-MM-DD],
    [YYYY_MM_DD], [YYYY.MM.DD], [YYYYMMDD], the long form with the year,
    month and day characters, [YYMMDD], [MM-DD], [MM_DD], [MM.DD] and the
    short form with the month and day characters. *)
Definition datePatterns : list datePattern :=
  [ (ymdRe "-", fun _ => fmtPadded);
    (ymdRe "_", fun _ => fmtPadded);
    (ymdRe ".", fun _ => fmtPadded);
    (yyyymmddRe, fun _ => fmtPlain);
    (kanjiYmdRe, fun _ => fmtPadded);
    (yymmddRe, fun _ => fmtCentury);
    (mdRe "-", fmtThisYear);
    (mdRe "_", fmtThisYear);
    (mdRe ".", fmtThisYear);
    (kanjiMdRe, fmtThisYear) ].

(** The cascade as the specification words it: the patterns are tried in
    sequence, the first one that matches gives the result, and no match
    gives [null]. *)
Fixpoint firstMatch (ps : list datePattern) (currentYear : N)
  (fileName : jsstring) : completion (option jsstring) :=
  match ps with
  | [] => Return None
  | (r, fmt) :: ps' =>
    match exec r fileName with
    | Some m => found (fmt currentYear m)
    | None => firstMatch ps' currentYear fileName
    end
  end.

(** The call returns: it does not raise. *)
Definition returns {A : Type} (x : completion A) : Prop :=
  exists a, x = Return a.

(** ** Documents *)

(** The line break *)
Definition nl : jsstring := [10%N].

(** [lines.join('\n')] *)
Fixpoint joinLines (lines : list jsstring) : jsstring :=
  match lines with
  | [] => []
  | [l] => l
  | l :: lines' => l ++ nl ++ joinLines lines'
  end.

(** The document with its blank lines removed *)
Definition withoutBlankLines (text : jsstring) : jsstring :=
  joinLines (txtLines text).

(** A caption file whose cue timestamps have one-digit fields *)
Definition shortCue : jsstring :=
  lit "WEBVTT" ++ nl ++ nl ++ lit "0:0:0.0 --> 0:0:2.820" ++ nl
  ++ lit "<v 田中>こんにちは</v>".

(** A document of two lines without speaker or time marker; the first
    line begins with a space. *)
Definition plainDoc : jsstring := lit " abc" ++ nl ++ lit "def".

(** ** Further predicates *)

(** The string has no line feed. *)
Definition lineFree (s : jsstring) : Prop := ~ In 10%N s.

(** No field of the entry has a line feed. *)
Definition entryLineFree (e : TranscriptEntry) : Prop :=
  lineFree (speaker e) /\ lineFree (startTime e) /\ lineFree (endTime e)
  /\ lineFree (text e).

(** Neighbours in the sequence have different speakers. *)
Definition neighboursDiffer (l : list TranscriptEntry) : Prop :=
  forall i a b,
    nth_error l i = Some a -> nth_error l (S i) = Some b ->
    speaker a <> speaker b.

(** The parts, with one empty line between two of them *)
Fixpoint withBlankLines (parts : list jsstring) : list jsstring :=
  match parts with
  | [] => []
  | [p] => [p]
  | p :: parts' => p :: [] :: withBlankLines parts'
  end.

(** The canonical date string [YYYY-MM-DD]: ten code units, digits but for
    the two hyphens. *)
Definition isIsoDate (d : jsstring) : bool :=
  match d with
  | [y1; y2; y3; y4; h1; m1; m2; h2; d1; d2] =>
    digit y1 && digit y2 && digit y3 && digit y4 && (h1 =? ch "-")%N
    && digit m1 && digit m2 && (h2 =? ch "-")%N && digit d1 && digit d2
  | _ => false
  end.

(** The characters that may follow the dot of an extension: [[^/.]] *)
Definition extensionChar : charclass := compl (oneOf [ch "/"; ch "."]).

(** Exactly four digits, exactly two digits *)
Definition fourDigits (t : jsstring) : bool :=
  match t with
  | [a; b; c; d] => digit a && digit b && digit c && digit d
  | _ => false
  end.

Definition twoDigits (t : jsstring) : bool :=
  match t with
  | [a; b] => digit a && digit b
  | _ => false
  end.

(** The pattern sets groups 1 to 3 (or 1 and 2) to runs of digits of the
    given lengths whenever it matches. *)
Definition digitGroups3 (r : regex) (a b c d e f : nat) : Prop :=
  forall s m, exec r s = Some m ->
  exists g1 g2 g3,
    m_groups m 1 = Some g1 /\ m_groups m 2 = Some g2 /\ m_groups m 3 = Some g3
    /\ isDigits a b g1 /\ isDigits c d g2 /\ isDigits e f g3.

Definition digitGroups2 (r : regex) (a b c d : nat) : Prop :=
  forall s m, exec r s = Some m ->
  exists g1 g2,
    m_groups m 1 = Some g1 /\ m_groups m 2 = Some g2
    /\ isDigits a b g1 /\ isDigits c d g2.

(** The line has a speaker. *)
Definition attributed (raw : jsstring) : bool := negb (unattributed raw).

(** The keys under which the settings are stored *)
Definition settingsKeys : list jsstring :=
  [lit "geminiApiKey"; lit "llmType"; lit "ollamaUrl"; lit "ollamaModel";
   lit "apiServerUrl"; lit "apiKey"; lit "useApiServer"].

(** What loading gives for a setting saved as [saved]: the saved string,
    or the current value when the saved string is empty. *)
Definition restored (saved current : jsstring) : jsstring :=
  if isNil saved then current else saved.

(** The extensions for which [handleFileSelect] has a parser *)
Definition supported (fileExtension : jsstring) : bool :=
  eqb fileExtension (lit "vtt") || eqb fileExtension (lit "txt")
  || eqb fileExtension (lit "docx").

(** The text before the first occurrence of [pat] in [s] and the text
    after it; [None] when [pat] does not occur. *)
Fixpoint findFirst (pat s : jsstring) : option (jsstring * jsstring) :=
  if startsWith pat s then Some ([], skipn (length pat) s)
  else match s with
       | [] => None
       | x :: s' => option_map (consFst x) (findFirst pat s')
       end.

(** The two tags of a thinking block *)
Definition thinkOpen : jsstring := lit "<think>".
Definition thinkClose : jsstring := lit "</think>".

(** The block that [extractThinkBlocks] pushes at [index] *)
Definition blockAt (index : nat) (thinkContent : jsstring) : Think.ThinkBlock :=
  {| Think.id := lit "think-block-" ++ ofNumber (N.of_nat index);
     Think.content := thinkContent |}.

(** ** Cue lines and further documents *)

(** The main loop does not take the line as a cue line. *)
Definition notCue (raw : jsstring) : bool :=
  match cueOf raw with None => true | Some _ => false end.

(** The speaker that the caption parser gives to a payload without voice
    tag *)
Definition unknownSpeaker : jsstring := lit "不明".

(** A caption file whose second cue has a payload without voice tag *)
Definition untaggedCue : jsstring :=
  lit "WEBVTT" ++ nl ++ nl
  ++ lit "00:00:01.000 --> 00:00:02.000" ++ nl ++ lit "<v 田中>はい" ++ nl ++ nl
  ++ lit "00:00:02.000 --> 00:00:03.000" ++ nl ++ lit "そうです".

(** A document of three lines, the last without speaker *)
Definition foldedDoc : jsstring :=
  lit "A 1:00 - 2:00 x" ++ nl ++ lit "B 3:00 y" ++ nl ++ lit " z ".

(** ** The forms of a date *)

(** The forms of a date in a file name, as the specification lists them:
    year, month and day with the text that follows each ([YYYY-MM-DD],
    [YYYY_MM_DD], [YYYY.MM.DD] and the form with the year, month and day
    characters); eight digits; six digits; month and day with the text
    that follows each. *)
Inductive dateForm : Type :=
| YearMonthDay (afterYear afterMonth afterDay : jsstring)
| EightDigits
| SixDigits
| MonthDay (afterMonth afterDay : jsstring).

(** The text of a date of the form, from its year, month and day *)
Definition formText (form : dateForm) (y mo d : jsstring) : jsstring :=
  match form with
  | YearMonthDay s1 s2 s3 => y ++ s1 ++ mo ++ s2 ++ d ++ s3
  | EightDigits | SixDigits => y ++ mo ++ d
  | MonthDay s1 s2 => mo ++ s1 ++ d ++ s2
  end.

(** The numbers of digits of the year, the month and the day *)
Definition formDigits (form : dateForm) (y mo d : jsstring) : Prop :=
  match form with
  | YearMonthDay _ _ _ => isDigits 4 4 y /\ isDigits 1 2 mo /\ isDigits 1 2 d
  | EightDigits => isDigits 4 4 y /\ isDigits 2 2 mo /\ isDigits 2 2 d
  | SixDigits => isDigits 2 2 y /\ isDigits 2 2 mo /\ isDigits 2 2 d
  | MonthDay _ _ => y = [] /\ isDigits 1 2 mo /\ isDigits 1 2 d
  end.

(** The date that the specification gives: month and day padded to two
    digits where they may have one, the year prefixed with [20] when it
    has two digits, and the current year when the form has none. *)
Definition formDate (form : dateForm) (currentYear : N) (y mo d : jsstring)
  : jsstring :=
  match form with
  | YearMonthDay _ _ _ =>
    y ++ lit "-" ++ padStart0 2 mo ++ lit "-" ++ padStart0 2 d
  | EightDigits => y ++ lit "-" ++ mo ++ lit "-" ++ d
  | SixDigits => lit "20" ++ y ++ lit "-" ++ mo ++ lit "-" ++ d
  | MonthDay _ _ =>
    ofNumber currentYear ++ lit "-" ++ padStart0 2 mo ++ lit "-"
    ++ padStart0 2 d
  end.

(** The ten patterns of [extractDate] in their order, each with its
    form *)
Definition dateForms : list (regex * dateForm) :=
  [ (ymdRe "-", YearMonthDay (lit "-") (lit "-") []);
    (ymdRe "_", YearMonthDay (lit "_") (lit "_") []);
    (ymdRe ".", YearMonthDay (lit ".") (lit ".") []);
    (yyyymmddRe, EightDigits);
    (kanjiYmdRe, YearMonthDay (lit "年") (lit "月") (lit "日"));
    (yymmddRe, SixDigits);
    (mdRe "-", MonthDay (lit "-") []);
    (mdRe "_", MonthDay (lit "_") []);
    (mdRe ".", MonthDay (lit ".") []);
    (kanjiMdRe, MonthDay (lit "月") (lit "日")) ].

(** The first pattern of the list that matches, with its match *)
Fixpoint firstForm (ps : list (regex * dateForm)) (fileName : jsstring)
  : option (dateForm * MatchResult) :=
  match ps with
  | [] => None
  | (r, form) :: ps' =>
    match exec r fileName with
    | Some m => Some (form, m)
    | None => firstForm ps' fileName
    end
  end.

(** The capture groups of a match of the form *)
Definition formGroups (form : dateForm) (g : captures) (y mo d : jsstring)
  : Prop :=
  match form with
  | MonthDay _ _ => g 1 = Some mo /\ g 2 = Some d
  | _ => g 1 = Some y /\ g 2 = Some mo /\ g 3 = Some d
  end.

(** Every match of the pattern is a date of the form. *)
Definition matchesForm (r : regex) (form : dateForm) : Prop :=
  forall s m, exec r s = Some m ->
  exists pre y mo d,
    s = pre ++ formText form y mo d ++ m_rest m /\ m_index m = length pre /\
    formDigits form y mo d /\ formGroups form (m_groups m) y mo d.

(** * Properties *)

(** ** A declarative reading of the matcher *)

Section Matcher.

Lemma splits_spec p : forall s hi w s',
  In (w, s') (splits p hi s) ->
  s = w ++ s' /\ allOf p w /\ (forall h, hi = Some h -> length w <= h).
Proof.
  induction s as [|x s IH]; intros hi w s' Hin; simpl in Hin.
  - destruct Hin as [E|[]]. inversion E; subst.
    repeat split; [constructor | intros; simpl; lia].
  - destruct Hin as [E|Hin].
    + inversion E; subst. repeat split; [constructor | intros; simpl; lia].
    + destruct (p x) eqn:Hp; [|contradiction].
      assert (Hstep : forall hi', In (w, s') (map (consFst x) (splits p hi' s)) ->
                exists w', w = x :: w' /\ In (w', s') (splits p hi' s)).
      { intros hi' H. apply in_map_iff in H. destruct H as [[a b] [E H]].
        unfold consFst in E; simpl in E. inversion E; subst. eauto. }
      destruct hi as [[|h]|].
      * contradiction.
      * apply Hstep in Hin. destruct Hin as [w' [-> Hin]].
        apply IH in Hin. destruct Hin as [-> [Hall Hlen]].
        repeat split; [constructor; assumption|].
        intros h0 E. inversion E; subst. simpl. specialize (Hlen h eq_refl). lia.
      * apply Hstep in Hin. destruct Hin as [w' [-> Hin]].
        apply IH in Hin. destruct Hin as [-> [Hall Hlen]].
        repeat split; [constructor; assumption|]. intros h0 E. discriminate.
Qed.

Lemma run_sound r : forall b s c w s' c',
  In (w, s', c') (run r b s c) -> Matches r b s c w s' c'.
Proof.
  induction r; intros b s c w s' c' Hin; simpl in Hin.
  - destruct Hin as [E|[]]. inversion E; subst. constructor.
  - destruct b; [|contradiction]. destruct Hin as [E|[]].
    inversion E; subst. constructor.
  - destruct s as [|x s]; [contradiction|].
    destruct (p x) eqn:Hp; [|contradiction].
    destruct Hin as [E|[]]. inversion E; subst. constructor. assumption.
  - apply in_map_iff in Hin. destruct Hin as [[a b'] [E Hin]].
    simpl in E. inversion E; subst.
    assert (Hf : In (w, s') (filter (fun ws => lo <=? length (fst ws))
                               (splits p hi s))).
    { destruct greedy; [apply in_rev in Hin|]; assumption. }
    apply filter_In in Hf. destruct Hf as [Hs Hlo]. simpl in Hlo.
    apply Nat.leb_le in Hlo. apply splits_spec in Hs.
    destruct Hs as [-> [Hall Hhi]]. constructor; assumption.
  - apply in_flat_map in Hin. destruct Hin as [[[w1 s1] c1] [H1 H2]].
    apply in_map_iff in H2. destruct H2 as [[[w2 s2] c2] [E H2]].
    inversion E; subst. econstructor; eauto.
  - apply in_app_or in Hin. destruct Hin as [H|H].
    + apply M_AltL; auto.
    + apply M_AltR; auto.
  - apply in_app_or in Hin. destruct Hin as [H|H].
    + apply filter_In in H. destruct H as [H Hne]. simpl in Hne.
      apply M_OptSome; [auto|]. intros ->. simpl in Hne. discriminate.
    + destruct H as [E|[]]. inversion E; subst. apply M_OptNone.
  - apply in_map_iff in Hin. destruct Hin as [[[w0 s0] c0] [E H]].
    inversion E; subst. constructor. auto.
Qed.

Lemma Matches_split r b s c w s' c' :
  Matches r b s c w s' c' -> s = w ++ s'.
Proof.
  induction 1; simpl; auto.
  rewrite <- app_assoc. congruence.
Qed.

(** A successful [exec]: the input splits into the text before the match,
    the match and the rest. *)
Lemma execFrom_sound r : forall s i m,
  execFrom r i s = Some m ->
  exists pre w c,
    s = pre ++ w ++ m_rest m /\ m_index m = i + length pre /\
    Matches r (Nat.eqb (m_index m) 0) (w ++ m_rest m) noCaptures w (m_rest m) c /\
    m_groups m = upd 0 w c.
Proof.
  induction s as [|x s IH]; intros i m H; simpl in H.
  - destruct (run r (i =? 0) [] noCaptures) as [|[[w s'] c] l] eqn:Hr;
      [discriminate|].
    inversion H; subst; simpl.
    assert (Hm : Matches r (i =? 0) [] noCaptures w s' c).
    { apply run_sound. rewrite Hr. left; reflexivity. }
    pose proof (Matches_split _ _ _ _ _ _ _ Hm) as Hs.
    exists [], w, c. simpl. rewrite <- Hs. repeat split; auto.
  - destruct (run r (i =? 0) (x :: s) noCaptures) as [|[[w s'] c] l] eqn:Hr.
    + apply IH in H. destruct H as [pre [w [c [Hs [Hi [Hm Hg]]]]]].
      exists (x :: pre), w, c. simpl. rewrite Hs, Hi.
      repeat split; auto; try lia. rewrite Hi in Hm. exact Hm.
    + inversion H; subst; simpl.
      assert (Hm : Matches r (i =? 0) (x :: s) noCaptures w s' c).
      { apply run_sound. rewrite Hr. left; reflexivity. }
      pose proof (Matches_split _ _ _ _ _ _ _ Hm) as Hs.
      exists [], w, c. simpl. rewrite <- Hs. repeat split; auto.
Qed.

Lemma exec_sound r s m :
  exec r s = Some m ->
  exists pre w c,
    s = pre ++ w ++ m_rest m /\ m_index m = length pre /\
    Matches r (Nat.eqb (m_index m) 0) (w ++ m_rest m) noCaptures w (m_rest m) c /\
    m_groups m = upd 0 w c.
Proof.
  intros H. apply execFrom_sound in H. exact H.
Qed.

End Matcher.

(** ** What the time patterns capture *)

Ltac minv1 H := inversion H; subst; clear H.

Ltac minv :=
  repeat match goal with
  | H : Matches Eps _ _ _ _ _ _ |- _ => minv1 H
  | H : Matches Bol _ _ _ _ _ _ |- _ => minv1 H
  | H : Matches (Chr _) _ _ _ _ _ _ |- _ => minv1 H
  | H : Matches (Rep _ _ _ _) _ _ _ _ _ _ |- _ => minv1 H
  | H : Matches (Cat _ _) _ _ _ _ _ _ |- _ => minv1 H
  | H : Matches (Grp _ _) _ _ _ _ _ _ |- _ => minv1 H
  | H : Matches (Opt _) _ _ _ _ _ _ |- _ => minv1 H
  | H : Matches (Alt _ _) _ _ _ _ _ _ |- _ => minv1 H
  end.

Ltac bounds :=
  repeat match goal with
  | H : forall h, Some ?n = Some h -> _ |- _ => specialize (H n eq_refl)
  | H : forall h, None = Some h -> _ |- _ => clear H
  | H : isChar _ _ = true |- _ => apply N.eqb_eq in H; subst
  end.

Ltac splits :=
  repeat match goal with |- _ /\ _ => split end.

Section TimePatterns.

Ltac digitsOk :=
  unfold optDigits, isDigits;
  lazymatch goal with
  | |- True => exact I
  | |- _ => repeat split; (assumption || lia)
  end.

Ltac timeTextOk :=
  unfold thirdText, msText; rewrite ?app_nil_r;
  repeat split; try assumption;
  try (do 2 eexists; split; [reflexivity|]; split; assumption).

Lemma timeParts_inv k b s c w s' c' :
  Matches (timeParts k) b s c w s' c' ->
  exists g1 g2 o3 o4,
    isDigits 1 2 g1 /\ isDigits 1 2 g2 /\ optDigits 1 2 o3 /\ optDigits 1 3 o4 /\
    c' = updOpt (k + 3) o4 (updOpt (k + 2) o3 (upd (k + 1) g2 (upd k g1 c))) /\
    timeText g1 g2 o3 o4 w.
Proof.
  unfold timeParts, seq, digits, star. cbn [fold_right]. intros H.
  minv; bounds.
  - match goal with
    | |- context [upd _ ?g4 (upd _ ?g3 (upd _ ?g2 (upd _ ?g1 _))) = _] =>
      exists g1, g2, (Some g3), (Some g4)
    end.
    do 4 (split; [digitsOk|]). split; [reflexivity|].
    do 4 eexists. split; [reflexivity|]. timeTextOk.
  - match goal with
    | |- context [upd _ ?g4 (upd _ ?g2 (upd _ ?g1 _)) = _] =>
      exists g1, g2, None, (Some g4)
    end.
    do 4 (split; [digitsOk|]). split; [reflexivity|].
    do 4 eexists. split; [reflexivity|]. timeTextOk.
  - match goal with
    | |- context [upd _ ?g3 (upd _ ?g2 (upd _ ?g1 _)) = _] =>
      exists g1, g2, (Some g3), None
    end.
    do 4 (split; [digitsOk|]). split; [reflexivity|].
    do 4 eexists. split; [reflexivity|]. timeTextOk.
  - match goal with
    | |- context [upd _ ?g2 (upd _ ?g1 _) = _] => exists g1, g2, None, None
    end.
    do 4 (split; [digitsOk|]). split; [reflexivity|].
    do 4 eexists. split; [reflexivity|]. timeTextOk.
Qed.

Lemma isDigits_truthy lo hi g : isDigits (S lo) hi g -> truthy (Some g) = true.
Proof.
  intros [_ [H _]]. destruct g; simpl in *; [lia | reflexivity].
Qed.

Lemma optDigits_truthy lo hi o :
  optDigits (S lo) hi o -> truthy o = match o with Some _ => true | None => false end.
Proof.
  destruct o; simpl; [apply isDigits_truthy | reflexivity].
Qed.

Lemma normalizeTime_byCount (c : captures) k g1 g2 o3 o4 :
  c k = Some g1 -> c (k + 1) = Some g2 -> c (k + 2) = o3 -> c (k + 3) = o4 ->
  optDigits 1 2 o3 -> optDigits 1 3 o4 ->
  normalizeTime c k = byCount g1 g2 o3 o4.
Proof.
  intros H1 H2 H3 H4 D3 D4. unfold normalizeTime, byCount, msField.
  rewrite H1, H2, H3, H4.
  rewrite (@optDigits_truthy _ _ _ D3), (@optDigits_truthy _ _ _ D4).
  destruct o3, o4; simpl str; rewrite <- ?app_assoc; reflexivity.
Qed.

Lemma padStart2_digits g :
  isDigits 1 2 g ->
  exists a b, padStart0 2 g = [a; b] /\ digit a = true /\ digit b = true.
Proof.
  intros [Hall [Hlo Hhi]].
  destruct g as [|a [|b [|x g]]]; simpl in Hlo, Hhi; try lia.
  - inversion Hall; subst. exists 48%N, a. repeat split; auto.
  - inversion Hall as [|? ? Ha Hall']; subst. inversion Hall'; subst.
    exists a, b. repeat split; auto.
Qed.

Lemma padEnd3_digits g :
  isDigits 1 3 g ->
  exists a b c, padEnd0 3 g = [a; b; c]
                /\ digit a = true /\ digit b = true /\ digit c = true.
Proof.
  intros [Hall [Hlo Hhi]].
  destruct g as [|a [|b [|c [|x g]]]]; simpl in Hlo, Hhi; try lia.
  - inversion Hall; subst. exists a, 48%N, 48%N. repeat split; auto.
  - inversion Hall as [|? ? Ha Hall']; subst. inversion Hall'; subst.
    exists a, b, 48%N. repeat split; auto.
  - inversion Hall as [|? ? Ha Hall']; subst.
    inversion Hall' as [|? ? Hb Hall'']; subst. inversion Hall''; subst.
    exists a, b, c. repeat split; auto.
Qed.

Lemma byCount_canonical g1 g2 o3 o4 :
  isDigits 1 2 g1 -> isDigits 1 2 g2 -> optDigits 1 2 o3 -> optDigits 1 3 o4 ->
  isCanonicalTime (byCount g1 g2 o3 o4) = true.
Proof.
  intros D1 D2 D3 D4. unfold byCount.
  destruct (@padStart2_digits _ D1) as [a1 [b1 [-> [Ha1 Hb1]]]].
  destruct (@padStart2_digits _ D2) as [a2 [b2 [-> [Ha2 Hb2]]]].
  assert (Hms : exists a b c,
             msField o4 = [a; b; c]
             /\ digit a = true /\ digit b = true /\ digit c = true).
  { destruct o4 as [g4|]; [apply padEnd3_digits; exact D4|].
    exists 48%N, 48%N, 48%N. repeat split. }
  destruct Hms as [a4 [b4 [c4 [-> [Ha4 [Hb4 Hc4]]]]]].
  destruct o3 as [g3|].
  - destruct (@padStart2_digits _ D3) as [a3 [b3 [-> [Ha3 Hb3]]]].
    cbn. rewrite Ha1, Hb1, Ha2, Hb2, Ha3, Hb3, Ha4, Hb4, Hc4. reflexivity.
  - cbn. rewrite Ha1, Hb1, Ha2, Hb2, Ha4, Hb4, Hc4. reflexivity.
Qed.

Lemma Matches_Cat_inv r1 r2 b s c w s' c' :
  Matches (Cat r1 r2) b s c w s' c' ->
  exists w1 s1 c1 w2,
    Matches r1 b s c w1 s1 c1 /\ Matches r2 (b && isNil w1) s1 c1 w2 s' c' /\
    w = w1 ++ w2.
Proof. inversion 1; subst. do 4 eexists. eauto. Qed.

Lemma Matches_Bol_inv b s c w s' c' :
  Matches Bol b s c w s' c' -> b = true /\ w = [] /\ s' = s /\ c' = c.
Proof. inversion 1; subst. auto. Qed.

Lemma Matches_Eps_inv b s c w s' c' :
  Matches Eps b s c w s' c' -> w = [] /\ s' = s /\ c' = c.
Proof. inversion 1; subst. auto. Qed.

(** A pattern that begins with [^] matches at index 0 only. *)
Lemma exec_anchored r content m :
  exec (Cat Bol r) content = Some m ->
  exists w c,
    content = w ++ m_rest m /\ m_index m = 0 /\
    Matches r true content noCaptures w (m_rest m) c /\
    m_groups m = upd 0 w c.
Proof.
  intros H. apply exec_sound in H.
  destruct H as [pre [w [c [Hs [Hi [Hm Hg]]]]]].
  apply Matches_Cat_inv in Hm.
  destruct Hm as [w1 [s1 [c1 [w2 [Hb [Ht Hw]]]]]].
  apply Matches_Bol_inv in Hb. destruct Hb as [Hb [-> [-> ->]]].
  rewrite Hb in Ht. simpl in Ht, Hw. subst w2.
  apply Nat.eqb_eq in Hb.
  assert (Hpre : pre = []).
  { rewrite Hb in Hi. destruct pre; [reflexivity | simpl in Hi; lia]. }
  subst pre. simpl in Hs. rewrite <- Hs in Ht.
  exists w, c. repeat split; auto.
Qed.

(** A match of the single-timestamp pattern: it starts at index 0 and its
    groups are the components of the matched text. *)
Lemma timeRe_inv content m :
  exec timeRe content = Some m ->
  exists g1 g2 o3 o4 w,
    isDigits 1 2 g1 /\ isDigits 1 2 g2 /\ optDigits 1 2 o3 /\ optDigits 1 3 o4 /\
    m_groups m
    = upd 0 w (updOpt 4 o4 (updOpt 3 o3 (upd 2 g2 (upd 1 g1 noCaptures)))) /\
    timeText g1 g2 o3 o4 w /\ content = w ++ m_rest m /\ m_index m = 0.
Proof.
  intros H. apply exec_anchored in H.
  destruct H as [w [c [Hs [Hi [Hm Hg]]]]].
  apply Matches_Cat_inv in Hm.
  destruct Hm as [w1 [s1 [c1 [w2 [Hp [He Hw]]]]]].
  apply Matches_Eps_inv in He. destruct He as [-> [<- <-]].
  rewrite app_nil_r in Hw. subst w1.
  apply timeParts_inv in Hp.
  destruct Hp as [g1 [g2 [o3 [o4 [D1 [D2 [D3 [D4 [Hc Ht']]]]]]]]].
  exists g1, g2, o3, o4, w. rewrite Hg, Hc.
  splits; auto.
Qed.

(** A match of the two-timestamp pattern. *)
Lemma timeRangeRe_inv content m :
  exec timeRangeRe content = Some m ->
  exists g1 g2 o3 o4 g5 g6 o7 o8 w,
    isDigits 1 2 g1 /\ isDigits 1 2 g2 /\ optDigits 1 2 o3 /\ optDigits 1 3 o4 /\
    isDigits 1 2 g5 /\ isDigits 1 2 g6 /\ optDigits 1 2 o7 /\ optDigits 1 3 o8 /\
    m_groups m
    = upd 0 w
        (updOpt 8 o8 (updOpt 7 o7 (upd 6 g6 (upd 5 g5
        (updOpt 4 o4 (updOpt 3 o3 (upd 2 g2 (upd 1 g1 noCaptures)))))))) /\
    (exists w1 sep w2,
        w = w1 ++ sep ++ w2 /\ timeText g1 g2 o3 o4 w1 /\
        allOf rangeSep sep /\ 1 <= length sep /\ timeText g5 g6 o7 o8 w2) /\
    content = w ++ m_rest m /\ m_index m = 0.
Proof.
  intros H. apply exec_anchored in H.
  destruct H as [w [c [Hs [Hi [Hm Hg]]]]].
  apply Matches_Cat_inv in Hm.
  destruct Hm as [w1 [s1 [c1 [w2 [Hp1 [Hm Hw]]]]]].
  apply Matches_Cat_inv in Hm.
  destruct Hm as [sep [s2 [c2 [w3 [Hsep [Hm Hw2]]]]]].
  apply Matches_Cat_inv in Hm.
  destruct Hm as [w4 [s3 [c3 [w5 [Hp2 [He Hw3]]]]]].
  apply Matches_Eps_inv in He. destruct He as [-> [<- <-]].
  rewrite app_nil_r in Hw3. subst w3 w2 w.
  apply timeParts_inv in Hp1.
  destruct Hp1 as [g1 [g2 [o3 [o4 [D1 [D2 [D3 [D4 [Hc1 Ht1]]]]]]]]].
  apply timeParts_inv in Hp2.
  destruct Hp2 as [g5 [g6 [o7 [o8 [D5 [D6 [D7 [D8 [Hc2 Ht2]]]]]]]]].
  unfold plus in Hsep. inversion Hsep; subst.
  exists g1, g2, o3, o4, g5, g6, o7, o8, (w1 ++ sep ++ w4).
  rewrite Hg. splits; auto.
  exists w1, sep, w4. splits; auto.
Qed.

End TimePatterns.

(** ** Groups that every match defines *)

Section Groups.

Lemma upd_defined n w c k : c k <> None -> upd n w c k <> None.
Proof.
  unfold upd. destruct (k =? n); [discriminate | auto].
Qed.

Lemma Matches_defined r b s c w s' c' :
  Matches r b s c w s' c' ->
  forall k, In k (mandatory r) \/ c k <> None -> c' k <> None.
Proof.
  induction 1; intros k Hk; simpl in Hk.
  - destruct Hk as [[]|Hk]; exact Hk.
  - destruct Hk as [[]|Hk]; exact Hk.
  - destruct Hk as [[]|Hk]; exact Hk.
  - destruct Hk as [[]|Hk]; exact Hk.
  - apply IHMatches2. destruct Hk as [Hk|Hk].
    + apply in_app_or in Hk. destruct Hk as [Hk|Hk]; auto.
    + auto.
  - destruct Hk as [[]|Hk]. auto.
  - destruct Hk as [[]|Hk]. auto.
  - destruct Hk as [[]|Hk]. auto.
  - destruct Hk as [[]|Hk]; exact Hk.
  - destruct Hk as [[Hk|Hk]|Hk].
    + subst. unfold upd. rewrite Nat.eqb_refl. discriminate.
    + apply upd_defined. auto.
    + apply upd_defined. auto.
Qed.

Lemma Matches_preserved r b s c w s' c' :
  Matches r b s c w s' c' ->
  forall k, ~ In k (groupsOf r) -> c' k = c k.
Proof.
  induction 1; intros k Hk; simpl in Hk; try reflexivity.
  - rewrite IHMatches2, IHMatches1; [reflexivity| |];
      intros Hin; apply Hk; apply in_or_app; auto.
  - apply IHMatches. intros Hin. apply Hk. apply in_or_app. auto.
  - apply IHMatches. intros Hin. apply Hk. apply in_or_app. auto.
  - apply IHMatches. exact Hk.
  - unfold upd. destruct (k =? n) eqn:E.
    + apply Nat.eqb_eq in E. subst. exfalso. apply Hk. left. reflexivity.
    + apply IHMatches. intros Hin. apply Hk. right. exact Hin.
Qed.

(** After a successful [exec], every mandatory group is a string. *)
Lemma exec_defined r s m k :
  exec r s = Some m -> In k (mandatory r) ->
  exists g, m_groups m k = Some g.
Proof.
  intros H Hk. apply exec_sound in H.
  destruct H as [pre [w [c [_ [_ [Hm Hg]]]]]].
  assert (Hd : m_groups m k <> None).
  { rewrite Hg. apply upd_defined.
    apply (Matches_defined _ _ _ _ _ _ _ Hm). left. exact Hk. }
  destruct (m_groups m k) as [g|]; [eauto | contradiction].
Qed.

End Groups.

(** ** White space and [trim] *)

Section Trim.

Lemma jsstring_eqb_eq a b : eqb a b = true <-> a = b.
Proof.
  unfold eqb. destruct (list_eq_dec N.eq_dec a b); split; congruence.
Qed.

Lemma trimStart_allSpace s : allOf space s -> trimStart s = [].
Proof.
  induction 1 as [|x s Hx _ IH]; simpl; [reflexivity|].
  rewrite Hx. exact IH.
Qed.

Lemma trimStart_nil s : trimStart s = [] -> allOf space s.
Proof.
  induction s as [|x s IH]; simpl; intros H; [constructor|].
  destruct (space x) eqn:Hx; [|discriminate].
  constructor; [exact Hx | apply IH; exact H].
Qed.

Lemma trimStart_head s :
  trimStart s = [] \/
  exists x t, trimStart s = x :: t /\ space x = false.
Proof.
  induction s as [|x s IH]; simpl; [left; reflexivity|].
  destruct (space x) eqn:Hx; [exact IH|].
  right. exists x, s. split; [reflexivity | exact Hx].
Qed.

Lemma trimStart_snoc s x :
  space x = false -> trimStart (s ++ [x]) = trimStart s ++ [x].
Proof.
  intros Hx. induction s as [|y s IH]; simpl.
  - rewrite Hx. reflexivity.
  - destruct (space y); [exact IH | reflexivity].
Qed.

Lemma trimEnd_cons x t :
  space x = false -> trimEnd (x :: t) = x :: trimEnd t.
Proof.
  intros Hx. unfold trimEnd. simpl rev.
  rewrite (trimStart_snoc _ _ Hx), rev_app_distr. reflexivity.
Qed.

Lemma trim_allSpace s : allOf space s -> trim s = [].
Proof.
  intros H. unfold trim. rewrite (trimStart_allSpace _ H). reflexivity.
Qed.

Lemma trim_nil s : trim s = [] -> allOf space s.
Proof.
  unfold trim. intros H.
  destruct (trimStart_head s) as [E|[x [t [E Hx]]]].
  - apply trimStart_nil. exact E.
  - rewrite E, (trimEnd_cons _ _ Hx) in H. discriminate.
Qed.

(** A trimmed string is empty or begins with a character that is not
    white space. *)
Lemma trim_head s :
  trim s = [] \/ exists x t, trim s = x :: t /\ space x = false.
Proof.
  unfold trim.
  destruct (trimStart_head s) as [E|[x [t [E Hx]]]].
  - left. rewrite E. reflexivity.
  - right. rewrite E, (trimEnd_cons _ _ Hx). eauto.
Qed.

Lemma trim_cons x t : space x = false -> trim (x :: t) <> [].
Proof.
  intros Hx. unfold trim. simpl. rewrite Hx, (trimEnd_cons _ _ Hx). discriminate.
Qed.

Lemma splitLines_allSpace s :
  (forall l, In l (splitLines s) -> allOf space l) -> allOf space s.
Proof.
  induction s as [|x s IH]; intros H; [constructor|].
  simpl in H. destruct (x =? 10)%N eqn:Hx.
  - apply N.eqb_eq in Hx. subst x. constructor; [reflexivity|].
    apply IH. intros l Hl. apply H. right. exact Hl.
  - destruct (splitLines s) as [|l ls] eqn:Hs.
    + assert (Hc : allOf space [x]) by (apply H; left; reflexivity).
      inversion Hc; subst. constructor; [assumption|].
      apply IH. intros l [].
    + assert (Hc : allOf space (x :: l)) by (apply H; left; reflexivity).
      inversion Hc; subst. constructor; [assumption|].
      apply IH. intros l' [<-|Hl]; [assumption|].
      apply H. right. exact Hl.
Qed.

Lemma nonBlank_true l : nonBlank l = true <-> trim l <> [].
Proof.
  unfold nonBlank. rewrite negb_true_iff. split.
  - intros H E. apply jsstring_eqb_eq in E. congruence.
  - intros H. destruct (eqb (trim l) []) eqn:E; [|reflexivity].
    apply jsstring_eqb_eq in E. contradiction.
Qed.

(** A text that is not blank has a line that is not blank. *)
Lemma txtLines_nonempty text : trim text <> [] -> txtLines text <> [].
Proof.
  intros Ht Hl. apply Ht. apply trim_allSpace. apply splitLines_allSpace.
  intros l Hin. apply trim_nil.
  destruct (nonBlank l) eqn:Hb.
  - exfalso. assert (Hf : In l (txtLines text)).
    { unfold txtLines. apply filter_In. split; assumption. }
    rewrite Hl in Hf. exact Hf.
  - unfold nonBlank in Hb. apply negb_false_iff in Hb.
    apply jsstring_eqb_eq in Hb. exact Hb.
Qed.

End Trim.

(** ** The freeform parser *)

Section Freeform.

Lemma modifyLast_snoc f acc e : modifyLast f (acc ++ [e]) = acc ++ [f e].
Proof.
  induction acc as [|a acc IH]; simpl; [reflexivity|].
  rewrite IH. destruct (acc ++ [e]) eqn:E; [|reflexivity].
  destruct acc; discriminate.
Qed.

Lemma lastEntry_snoc acc e : lastEntry (acc ++ [e]) = Some e.
Proof. unfold lastEntry. rewrite rev_app_distr. reflexivity. Qed.

Lemma snoc_cases (acc : list TranscriptEntry) :
  acc = [] \/ exists init e, acc = init ++ [e].
Proof.
  destruct acc as [|a acc]; [left; reflexivity|].
  right. destruct (exists_last (l := a :: acc)) as [init [e E]];
    [discriminate|]. eauto.
Qed.

Lemma groups_single g1 g2 o3 o4 w :
  let c := upd 0 w (updOpt 4 o4 (updOpt 3 o3 (upd 2 g2 (upd 1 g1 noCaptures)))) in
  c 1 = Some g1 /\ c 2 = Some g2 /\ c 3 = o3 /\ c 4 = o4.
Proof. destruct o3, o4; repeat split. Qed.

Lemma groups_range g1 g2 o3 o4 g5 g6 o7 o8 w :
  let c := upd 0 w
        (updOpt 8 o8 (updOpt 7 o7 (upd 6 g6 (upd 5 g5
        (updOpt 4 o4 (updOpt 3 o3 (upd 2 g2 (upd 1 g1 noCaptures)))))))) in
  (c 1 = Some g1 /\ c 2 = Some g2 /\ c 3 = o3 /\ c 4 = o4) /\
  (c 5 = Some g5 /\ c 6 = Some g6 /\ c 7 = o7 /\ c 8 = o8).
Proof. destruct o3, o4, o7, o8; repeat split. Qed.

(** The times of a line are both absent, or a canonical start with an
    absent or canonical end. *)
Lemma lineTimes_cases content :
  lineTimes content = ([], []) \/
  (isCanonicalTime (fst (lineTimes content)) = true /\
   (snd (lineTimes content) = [] \/
    isCanonicalTime (snd (lineTimes content)) = true)).
Proof.
  unfold lineTimes.
  destruct (exec timeRangeRe content) as [m|] eqn:Er.
  - right. apply timeRangeRe_inv in Er.
    destruct Er as [g1 [g2 [o3 [o4 [g5 [g6 [o7 [o8 [w H]]]]]]]]].
    destruct H as [D1 [D2 [D3 [D4 [D5 [D6 [D7 [D8 [Hg _]]]]]]]]].
    destruct (groups_range g1 g2 o3 o4 g5 g6 o7 o8 w)
      as [[A1 [A2 [A3 A4]]] [A5 [A6 [A7 A8]]]].
    rewrite <- Hg in *. simpl fst. simpl snd.
    rewrite (normalizeTime_byCount _ 1 g1 g2 o3 o4 A1 A2 A3 A4 D3 D4).
    rewrite (normalizeTime_byCount _ 5 g5 g6 o7 o8 A5 A6 A7 A8 D7 D8).
    split; [|right]; apply byCount_canonical; assumption.
  - destruct (exec timeRe content) as [m|] eqn:Es.
    + right. apply timeRe_inv in Es.
      destruct Es as [g1 [g2 [o3 [o4 [w [D1 [D2 [D3 [D4 [Hg _]]]]]]]]]].
      destruct (groups_single g1 g2 o3 o4 w) as [A1 [A2 [A3 A4]]].
      rewrite <- Hg in *. simpl fst. simpl snd.
      rewrite (normalizeTime_byCount _ 1 g1 g2 o3 o4 A1 A2 A3 A4 D3 D4).
      split; [|left; reflexivity]. apply byCount_canonical; assumption.
    + left. reflexivity.
Qed.

(** The label captured by either speaker pattern is a non-empty prefix of
    the line. *)
Lemma label_prefix p g r line m :
  exec (Cat Bol (Cat (Grp 1 (Rep p 1 None g)) r)) line = Some m ->
  ~ In 1 (groupsOf r) ->
  exists x w1 rest, m_groups m 1 = Some (x :: w1) /\ line = (x :: w1) ++ rest.
Proof.
  intros H Hr. apply exec_anchored in H.
  destruct H as [w [c [Hs [Hi [Hm Hg]]]]].
  apply Matches_Cat_inv in Hm.
  destruct Hm as [w1 [s1 [c1 [w2 [Hl [Hm Hw]]]]]].
  pose proof (Matches_preserved _ _ _ _ _ _ _ Hm 1 Hr) as Hc.
  inversion Hl as [| | | | | | | | |n r0 b s0 c0 w0 s0' c0' Hrep]; subst.
  inversion Hrep; subst.
  destruct w1 as [|x w1]; [simpl in *; lia|].
  exists x, w1, s1. split; [|reflexivity].
  rewrite Hg. unfold upd at 1. simpl. rewrite Hc. reflexivity.
Qed.

Lemma speakerMatch_label line sm :
  speakerMatch line = Some sm ->
  exists x w1 rest, m_groups sm 1 = Some (x :: w1) /\ line = (x :: w1) ++ rest.
Proof.
  unfold speakerMatch. intros H.
  destruct (exec speakerTimeRe line) as [m|] eqn:E.
  - inversion H; subst. apply (label_prefix _ _ _ _ _ E).
    simpl. intros [].
  - apply (label_prefix _ _ _ _ _ H). simpl. intros [].
Qed.

(** On a trimmed non-blank line the speaker of a split line is not empty. *)
Lemma splitLine_speaker raw sm :
  trim raw <> [] -> speakerMatch (trim raw) = Some sm ->
  speaker (splitLine (trim raw) sm) <> [].
Proof.
  intros Hne H. apply speakerMatch_label in H.
  destruct H as [x [w1 [rest [Hg Hl]]]].
  simpl. rewrite Hg. simpl.
  destruct (trim_head raw) as [E|[y [t [E Hy]]]]; [contradiction|].
  rewrite E in Hl. inversion Hl; subst.
  apply trim_cons. exact Hy.
Qed.

(** A time at the front of a content starts with a digit. *)
Lemma timeText_head g1 g2 o3 o4 w :
  isDigits 1 2 g1 -> timeText g1 g2 o3 o4 w ->
  exists d w', w = d :: w' /\ digit d = true.
Proof.
  intros [Hall [Hlo _]] [ws1 [ws2 [t3 [t4 [-> _]]]]].
  destruct g1 as [|d g1]; [simpl in Hlo; lia|].
  inversion Hall; subst. simpl. eauto.
Qed.

Lemma timeRe_digit c s m : exec timeRe (c :: s) = Some m -> digit c = true.
Proof.
  intros H. apply timeRe_inv in H.
  destruct H as [g1 [g2 [o3 [o4 [w [D1 [_ [_ [_ [_ [Ht [Hc _]]]]]]]]]]]].
  destruct (timeText_head _ _ _ _ _ D1 Ht) as [d [w' [-> Hd]]].
  simpl in Hc. inversion Hc; subst. exact Hd.
Qed.

Lemma timeRangeRe_digit c s m :
  exec timeRangeRe (c :: s) = Some m -> digit c = true.
Proof.
  intros H. apply timeRangeRe_inv in H.
  destruct H as [g1 [g2 [o3 [o4 [g5 [g6 [o7 [o8 [w H]]]]]]]]].
  destruct H as [D1 [_ [_ [_ [_ [_ [_ [_ [_ [Hw [Hc _]]]]]]]]]]].
  destruct Hw as [w1 [sep [w2 [-> [Ht _]]]]].
  destruct (timeText_head _ _ _ _ _ D1 Ht) as [d [w' [-> Hd]]].
  simpl in Hc. inversion Hc; subst. exact Hd.
Qed.

(** A content that starts with a character that is neither white space
    nor a digit keeps it: no time is found and nothing is removed. *)
Lemma contentWithoutTime_head c s :
  space c = false -> digit c = false ->
  lineTimes (c :: s) = ([], []) /\
  contentWithoutTime (c :: s) = c :: trimEnd s.
Proof.
  intros Hs Hd.
  assert (Er : exec timeRangeRe (c :: s) = None).
  { destruct (exec timeRangeRe (c :: s)) as [m|] eqn:E; [|reflexivity].
    apply timeRangeRe_digit in E. congruence. }
  assert (Et : exec timeRe (c :: s) = None).
  { destruct (exec timeRe (c :: s)) as [m|] eqn:E; [|reflexivity].
    apply timeRe_digit in E. congruence. }
  unfold lineTimes, contentWithoutTime, replaceFirst.
  rewrite Er, Et. split; [reflexivity|].
  unfold trim. simpl. rewrite Hs. apply trimEnd_cons. exact Hs.
Qed.

(** The separator that stays: when the character after the label is a
    colon, ASCII or full-width, the text of the entry begins with it. *)
Lemma colon_separator_kept line sm c rest :
  skipn (length (str (m_groups sm 1))) line = c :: rest ->
  c = ch ":" \/ c = ch "：" ->
  text (splitLine line sm) = c :: trimEnd (trimEnd rest) /\
  startTime (splitLine line sm) = [] /\ endTime (splitLine line sm) = [].
Proof.
  intros Hk Hc.
  assert (Hs : space c = false) by (destruct Hc; subst; reflexivity).
  assert (Hd : digit c = false) by (destruct Hc; subst; reflexivity).
  unfold splitLine, substring. simpl. rewrite Hk.
  assert (Et : trim (c :: rest) = c :: trimEnd rest).
  { unfold trim. simpl. rewrite Hs. apply trimEnd_cons. exact Hs. }
  rewrite Et.
  destruct (contentWithoutTime_head c (trimEnd rest) Hs Hd) as [-> ->].
  repeat split.
Qed.

End Freeform.

(** ** Invariants of the freeform loop *)

Section FreeformInvariant.

Variable P : TranscriptEntry -> Prop.

Hypothesis P_split : forall raw sm,
  trim raw <> [] -> speakerMatch (trim raw) = Some sm ->
  P (splitLine (trim raw) sm).

Hypothesis P_append : forall l e, P e -> P (appendText l e).

Hypothesis P_unattributed : forall l,
  P {| speaker := []; startTime := []; endTime := []; text := l |}.

Lemma modifyLast_Forall f acc :
  (forall e, P e -> P (f e)) -> Forall P acc -> Forall P (modifyLast f acc).
Proof.
  intros Hf H. destruct (snoc_cases acc) as [->|[init [e ->]]]; [constructor|].
  rewrite modifyLast_snoc. apply Forall_app in H. destruct H as [Hi He].
  apply Forall_app. split; [exact Hi|].
  inversion He; subst. constructor; auto.
Qed.

Lemma txtStep_Forall acc raw :
  trim raw <> [] -> Forall P acc -> Forall P (txtStep acc raw).
Proof.
  intros Hr H. unfold txtStep.
  destruct (speakerMatch (trim raw)) as [sm|] eqn:E.
  - apply Forall_app. split; [exact H|]. constructor; [|constructor].
    apply P_split; assumption.
  - destruct (0 <? length acc).
    + apply modifyLast_Forall; [|exact H]. intros e. apply P_append.
    + apply Forall_app. split; [exact H|]. constructor; [|constructor].
      apply P_unattributed.
Qed.

Lemma txtLoop_Forall lines : forall acc,
  (forall l, In l lines -> trim l <> []) ->
  Forall P acc -> Forall P (fold_left txtStep lines acc).
Proof.
  induction lines as [|l lines IH]; intros acc Hl H; simpl; [exact H|].
  apply IH.
  - intros l' Hin. apply Hl. right. exact Hin.
  - apply txtStep_Forall; [|exact H]. apply Hl. left. reflexivity.
Qed.

Lemma txtLines_nonBlank text l : In l (txtLines text) -> trim l <> [].
Proof.
  unfold txtLines. intros H. apply filter_In in H. destruct H as [_ H].
  apply nonBlank_true. exact H.
Qed.

Lemma parseTxtFile_Forall text : Forall P (parseTxtFile text).
Proof.
  unfold parseTxtFile. apply txtLoop_Forall; [|constructor].
  apply txtLines_nonBlank.
Qed.

End FreeformInvariant.

Section FreeformFacts.

Lemma splitLine_times line sm :
  timesCanonical (splitLine line sm) /\ endHasStart (splitLine line sm).
Proof.
  unfold timesCanonical, endHasStart, timeOk. simpl.
  destruct (lineTimes_cases
              (trim (substring (length (str (m_groups sm 1))) line)))
    as [E|[Hs He]].
  - rewrite E. simpl. split; [split; left; reflexivity|].
    intros H. contradiction.
  - split; [split|].
    + right. exact Hs.
    + destruct He as [He|He]; [left | right]; exact He.
    + intros _ E. rewrite E in Hs. discriminate.
Qed.

Lemma txt_timesCanonical text : Forall timesCanonical (parseTxtFile text).
Proof.
  apply parseTxtFile_Forall.
  - intros raw sm _ _. apply splitLine_times.
  - intros l e H. exact H.
  - intros l. split; left; reflexivity.
Qed.

Lemma txt_endHasStart text : Forall endHasStart (parseTxtFile text).
Proof.
  apply parseTxtFile_Forall.
  - intros raw sm _ _. apply splitLine_times.
  - intros l e H. exact H.
  - intros l H. simpl in H. contradiction.
Qed.

Lemma laterAttributed_snoc acc e :
  laterAttributed acc -> (acc <> [] -> speaker e <> []) ->
  laterAttributed (acc ++ [e]).
Proof.
  unfold laterAttributed. intros H He.
  destruct acc as [|a acc]; simpl in *; [constructor|].
  apply Forall_app. split; [exact H|].
  constructor; [|constructor]. apply He. discriminate.
Qed.

Lemma laterAttributed_modifyLast l acc :
  laterAttributed acc -> laterAttributed (modifyLast (appendText l) acc).
Proof.
  intros H. destruct (snoc_cases acc) as [->|[init [e ->]]]; [exact H|].
  rewrite modifyLast_snoc. unfold laterAttributed in *.
  destruct init as [|a init]; simpl in *; [constructor|].
  apply Forall_app in H. destruct H as [Hi He].
  apply Forall_app. split; [exact Hi|].
  inversion He; subst. constructor; [|constructor]. exact H1.
Qed.

Lemma txtStep_laterAttributed acc raw :
  trim raw <> [] -> laterAttributed acc -> laterAttributed (txtStep acc raw).
Proof.
  intros Hr H. unfold txtStep.
  destruct (speakerMatch (trim raw)) as [sm|] eqn:E.
  - apply laterAttributed_snoc; [exact H|]. intros _.
    apply splitLine_speaker; assumption.
  - destruct (0 <? length acc) eqn:El.
    + apply laterAttributed_modifyLast. exact H.
    + apply Nat.ltb_ge in El. destruct acc; [|simpl in El; lia].
      constructor.
Qed.

Lemma txt_laterAttributed text : laterAttributed (parseTxtFile text).
Proof.
  unfold parseTxtFile.
  assert (G : forall lines acc,
             (forall l, In l lines -> trim l <> []) ->
             laterAttributed acc ->
             laterAttributed (fold_left txtStep lines acc)).
  { induction lines as [|l lines IH]; intros acc Hl H; simpl; [exact H|].
    apply IH.
    - intros l' Hin. apply Hl. right. exact Hin.
    - apply txtStep_laterAttributed; [|exact H]. apply Hl. left. reflexivity. }
  apply G; [apply txtLines_nonBlank | constructor].
Qed.

Lemma laterAttributed_nth acc i e :
  laterAttributed acc -> nth_error acc i = Some e -> speaker e = [] -> i = 0.
Proof.
  intros H Hn He. destruct i as [|i]; [reflexivity|].
  destruct acc as [|a acc]; [discriminate|]. simpl in Hn.
  apply nth_error_In in Hn. unfold laterAttributed in H. simpl in H.
  rewrite Forall_forall in H. apply H in Hn. contradiction.
Qed.

Lemma txtStep_length acc raw : length acc <= length (txtStep acc raw).
Proof.
  unfold txtStep. destruct (speakerMatch (trim raw)).
  - rewrite length_app. lia.
  - destruct (0 <? length acc).
    + destruct (snoc_cases acc) as [->|[init [e ->]]]; [simpl; lia|].
      rewrite modifyLast_snoc, !length_app. simpl. lia.
    + rewrite length_app. lia.
Qed.

Lemma txtStep_nonempty acc raw : 1 <= length (txtStep acc raw).
Proof.
  unfold txtStep. destruct (speakerMatch (trim raw)).
  - rewrite length_app. simpl. lia.
  - destruct (0 <? length acc) eqn:El.
    + apply Nat.ltb_lt in El.
      destruct (snoc_cases acc) as [->|[init [e ->]]]; [simpl in El; lia|].
      rewrite modifyLast_snoc, length_app. simpl. lia.
    + rewrite length_app. simpl. lia.
Qed.

Lemma txtLoop_length lines : forall acc,
  length acc <= length (fold_left txtStep lines acc).
Proof.
  induction lines as [|l lines IH]; intros acc; simpl; [lia|].
  specialize (IH (txtStep acc l)). pose proof (txtStep_length acc l). lia.
Qed.

End FreeformFacts.

(** ** The caption parser *)

Section Caption.

Lemma isStamp_nonempty t : isStamp t -> t <> [].
Proof.
  intros [d1 [d2 [d3 [d4 [-> [[_ H] _]]]]]].
  destruct d1; [simpl in H; lia | discriminate].
Qed.

Lemma stamp_inv b s c w s' c' :
  Matches stamp b s c w s' c' -> isStamp w /\ c' = c.
Proof.
  unfold stamp, seq, plus. cbn [fold_right]. intros H.
  minv; bounds. split; [|reflexivity].
  match goal with
  | |- isStamp (?d1 ++ _ ++ ?d2 ++ _ ++ ?d3 ++ _ ++ ?d4 ++ []) =>
    exists d1, d2, d3, d4
  end.
  rewrite app_nil_r. split; [reflexivity|].
  unfold digitRun. splits; assumption.
Qed.

Lemma Str_arrow :
  Str (lit "-->")
  = Cat (Chr (isChar (ch "-"))) (Cat (Chr (isChar (ch "-")))
      (Cat (Chr (isChar (ch ">"))) Eps)).
Proof. reflexivity. Qed.

Lemma Str_voice :
  Str (lit "<v") = Cat (Chr (isChar (ch "<"))) (Cat (Chr (isChar (ch "v"))) Eps).
Proof. reflexivity. Qed.

(** Both groups of a matched cue line are timestamps. *)
Lemma cueRe_inv line m :
  exec cueRe line = Some m ->
  exists s e,
    m_groups m 1 = Some s /\ m_groups m 2 = Some e /\ isStamp s /\ isStamp e.
Proof.
  intros H. apply exec_sound in H.
  destruct H as [pre [w [c [_ [_ [Hm Hg]]]]]].
  unfold cueRe, seq, plus in Hm. cbn [fold_right] in Hm.
  rewrite Str_arrow in Hm. minv.
  repeat match goal with
  | H : Matches stamp _ _ _ _ _ _ |- _ =>
    apply stamp_inv in H; destruct H as [? ?]; subst
  end.
  match goal with
  | _ : m_groups m = upd 0 _ (upd 2 ?e (upd 1 ?s _)) |- _ => exists s, e
  end.
  rewrite Hg. splits; auto.
Qed.

(** The speaker of a payload line is never the empty string. *)
Lemma cuePayload_speaker contentLine : fst (cuePayload contentLine) <> [].
Proof.
  unfold cuePayload.
  destruct (exec voiceRe contentLine) as [m|] eqn:E; [|discriminate].
  apply exec_sound in E.
  destruct E as [pre [w [c [_ [_ [Hm Hg]]]]]].
  unfold voiceRe, seq, plus in Hm. cbn [fold_right] in Hm.
  rewrite Str_voice in Hm. minv. rewrite Hg.
  match goal with
  | _ : m_groups m = upd 0 _ (upd 1 ?g _), H : 1 <= length ?g |- _ =>
    destruct g; [simpl in H; lia | simpl; discriminate]
  end.
Qed.

Lemma pushCue_cases acc sp st et tx :
  (exists init e, acc = init ++ [e] /\ speaker e = sp /\
     pushCue acc sp st et tx = init ++ [extendEntry et tx e]) \/
  ((forall e, lastEntry acc = Some e -> speaker e <> sp) /\
   pushCue acc sp st et tx
   = acc ++ [{| speaker := sp; startTime := st; endTime := et; text := tx |}]).
Proof.
  unfold pushCue.
  destruct (snoc_cases acc) as [->|[init [e ->]]].
  - right. split; [intros e H; discriminate | reflexivity].
  - rewrite lastEntry_snoc. destruct (eqb (speaker e) sp) eqn:E.
    + left. apply jsstring_eqb_eq in E. exists init, e.
      rewrite modifyLast_snoc. auto.
    + right. split; [|reflexivity].
      intros e' He' Hs. inversion He'; subst e'.
      apply jsstring_eqb_eq in Hs. congruence.
Qed.

Section CaptionInvariant.

Variable P : TranscriptEntry -> Prop.

Lemma pushCue_Forall acc sp st et tx :
  P {| speaker := sp; startTime := st; endTime := et; text := tx |} ->
  (forall e, P e -> P (extendEntry et tx e)) ->
  Forall P acc -> Forall P (pushCue acc sp st et tx).
Proof.
  intros Hn He H.
  destruct (pushCue_cases acc sp st et tx)
    as [[init [e [-> [_ ->]]]]|[_ ->]].
  - apply Forall_app in H. destruct H as [Hi Hl].
    apply Forall_app. split; [exact Hi|].
    inversion Hl; subst. constructor; auto.
  - apply Forall_app. split; [exact H|]. constructor; [exact Hn | constructor].
Qed.

Hypothesis P_cue : forall line m contentLine,
  exec cueRe line = Some m ->
  P {| speaker := fst (cuePayload contentLine);
       startTime := str (m_groups m 1); endTime := str (m_groups m 2);
       text := snd (cuePayload contentLine) |}.

Hypothesis P_extend : forall line m tx e,
  exec cueRe line = Some m -> P e -> P (extendEntry (str (m_groups m 2)) tx e).

Lemma vttLoop_Forall n : forall lines acc,
  length lines <= n -> Forall P acc -> Forall P (vttLoop lines acc).
Proof.
  induction n as [|n IH]; intros lines acc Hn H.
  - destruct lines; [exact H | simpl in Hn; lia].
  - destruct lines as [|raw lines1]; [exact H|]. simpl in Hn. simpl.
    destruct (includes arrow (trim raw)); [|apply IH; [lia | exact H]].
    destruct (exec cueRe (trim raw)) as [m|] eqn:E;
      [|apply IH; [lia | exact H]].
    destruct lines1 as [|rawContent lines2]; [exact H|]. simpl in Hn.
    apply IH; [lia|].
    apply pushCue_Forall; [| |exact H].
    + apply (P_cue _ _ _ E).
    + intros e. apply (P_extend _ _ _ _ E).
Qed.

Lemma parseVttFile_Forall text : Forall P (parseVttFile text).
Proof.
  unfold parseVttFile. apply (vttLoop_Forall _ _ _ (le_n _)). constructor.
Qed.

End CaptionInvariant.

Lemma vtt_timesStamped text : Forall timesStamped (parseVttFile text).
Proof.
  apply parseVttFile_Forall.
  - intros line m contentLine E. apply cueRe_inv in E.
    destruct E as [s [e [E1 [E2 [Hs He]]]]].
    unfold timesStamped. simpl. rewrite E1, E2. auto.
  - intros line m tx e E [Hs _]. apply cueRe_inv in E.
    destruct E as [s' [e' [E1 [E2 [_ He]]]]].
    unfold timesStamped. simpl. rewrite E2. auto.
Qed.

Lemma vtt_attributed text :
  Forall (fun e => speaker e <> []) (parseVttFile text).
Proof.
  apply parseVttFile_Forall.
  - intros line m contentLine _. simpl. apply cuePayload_speaker.
  - intros line m tx e _ H. exact H.
Qed.

Lemma skipHeader_none lines :
  (forall l, In l lines -> includes arrow l = false) -> skipHeader lines = [].
Proof.
  induction lines as [|l lines IH]; intros H; simpl; [reflexivity|].
  rewrite (H l (or_introl eq_refl)). apply IH.
  intros l' Hin. apply H. right. exact Hin.
Qed.

End Caption.

(** ** The date extractor *)

Section DateExtractor.

Lemma grp_defined r s m k :
  exec r s = Some m -> In k (mandatory r) -> exists g, grp m k = Return g.
Proof.
  intros H Hk. destruct (exec_defined r s m k H Hk) as [g Hg].
  exists g. unfold grp. rewrite Hg. reflexivity.
Qed.

Lemma three_groups_return r s m
  (fmt : MatchResult -> completion jsstring) :
  (fmt = fmtPadded \/ fmt = fmtPlain \/ fmt = fmtCentury) ->
  exec r s = Some m -> mandatory r = [1; 2; 3] ->
  returns (found (fmt m)).
Proof.
  intros Hf E Hm.
  destruct (grp_defined r s m 1 E) as [g1 H1]; [rewrite Hm; simpl; tauto|].
  destruct (grp_defined r s m 2 E) as [g2 H2]; [rewrite Hm; simpl; tauto|].
  destruct (grp_defined r s m 3 E) as [g3 H3]; [rewrite Hm; simpl; tauto|].
  destruct Hf as [->|[->| ->]];
    unfold found, fmtPadded, fmtPlain, fmtCentury;
    rewrite H1, H2, H3; cbn [bind]; eexists; reflexivity.
Qed.

Lemma two_groups_return r s m y :
  exec r s = Some m -> mandatory r = [1; 2] ->
  returns (found (fmtThisYear y m)).
Proof.
  intros E Hm.
  destruct (grp_defined r s m 1 E) as [g1 H1]; [rewrite Hm; simpl; tauto|].
  destruct (grp_defined r s m 2 E) as [g2 H2]; [rewrite Hm; simpl; tauto|].
  unfold found, fmtThisYear. rewrite H1, H2. cbn [bind].
  eexists; reflexivity.
Qed.

Lemma extractDate_cascade currentYear fileName :
  extractDate currentYear fileName
  = firstMatch datePatterns currentYear fileName.
Proof. reflexivity. Qed.

Lemma extractDate_returns currentYear fileName :
  returns (extractDate currentYear fileName).
Proof.
  unfold extractDate.
  repeat match goal with
  | |- returns (match exec ?r ?s with _ => _ end) =>
    let E := fresh "E" in destruct (exec r s) eqn:E
  end;
  try (eapply three_groups_return; [tauto | eassumption | reflexivity]);
  try (eapply two_groups_return; [eassumption | reflexivity]).
  eexists; reflexivity.
Qed.

Lemma firstMatch_none ps currentYear fileName :
  (forall p, In p ps -> exec (fst p) fileName = None) ->
  firstMatch ps currentYear fileName = Return None.
Proof.
  induction ps as [|[r fmt] ps IH]; intros H; simpl; [reflexivity|].
  pose proof (H (r, fmt) (or_introl eq_refl)) as E. simpl in E.
  rewrite E. apply IH.
  intros p Hp. apply H. right. exact Hp.
Qed.

End DateExtractor.

(** ** Remaining facts about the loops *)

Section Loops.

Lemma unattributed_true raw :
  unattributed raw = true -> speakerMatch (trim raw) = None.
Proof. unfold unattributed. destruct (speakerMatch (trim raw)); congruence. Qed.

Lemma txtStep_fold acc last raw :
  speakerMatch (trim raw) = None ->
  txtStep (acc ++ [last]) raw = acc ++ [appendText (trim raw) last].
Proof.
  intros H. unfold txtStep. rewrite H, length_app. simpl.
  replace (0 <? length acc + 1) with true
    by (symmetry; apply Nat.ltb_lt; lia).
  apply modifyLast_snoc.
Qed.

Lemma allText_snoc acc e : allText (acc ++ [e]) = allText acc ++ text e.
Proof.
  unfold allText. rewrite map_app, concat_app. simpl.
  rewrite app_nil_r. reflexivity.
Qed.

Lemma txtStep_allText acc raw :
  speakerMatch (trim raw) = None ->
  allText (txtStep acc raw) = allText acc ++ trim raw.
Proof.
  intros H. destruct (snoc_cases acc) as [->|[init [e ->]]].
  - unfold txtStep. rewrite H. simpl. apply app_nil_r.
  - rewrite (txtStep_fold _ _ _ H), !allText_snoc. simpl.
    rewrite app_assoc. reflexivity.
Qed.

Lemma txtLoop_allText lines : forall acc,
  forallb unattributed lines = true ->
  allText (fold_left txtStep lines acc)
  = allText acc ++ concat (map trim lines).
Proof.
  induction lines as [|l lines IH]; intros acc H; simpl.
  - rewrite app_nil_r. reflexivity.
  - simpl in H. apply andb_true_iff in H. destruct H as [Hl H].
    rewrite (IH _ H), (txtStep_allText _ _ (unattributed_true _ Hl)).
    rewrite app_assoc. reflexivity.
Qed.

Lemma vttLoop_cue raw rawContent lines acc st et :
  cueOf raw = Some (st, et) ->
  vttLoop (raw :: rawContent :: lines) acc
  = vttLoop lines
      (pushCue acc (fst (cuePayload (trim rawContent))) st et
         (snd (cuePayload (trim rawContent)))).
Proof.
  unfold cueOf. intros H. simpl.
  destruct (includes arrow (trim raw)); [|discriminate].
  destruct (exec cueRe (trim raw)) as [m|]; [|discriminate].
  simpl in H. inversion H; subst. reflexivity.
Qed.

Lemma pushCue_same acc e sp et tx :
  speaker e = sp ->
  forall st, pushCue (acc ++ [e]) sp st et tx = acc ++ [extendEntry et tx e].
Proof.
  intros Hs st. unfold pushCue. rewrite lastEntry_snoc.
  replace (eqb (speaker e) sp) with true by (symmetry; apply jsstring_eqb_eq; exact Hs).
  apply modifyLast_snoc.
Qed.

(** A document without any speaker gives one entry that holds all its
    lines. *)
Lemma txtLoop_unattributed l ls :
  forallb unattributed (l :: ls) = true ->
  fold_left txtStep (l :: ls) []
  = [{| speaker := []; startTime := []; endTime := [];
        text := concat (map trim (l :: ls)) |}].
Proof.
  intros H. simpl in H. apply andb_true_iff in H. destruct H as [Hl H].
  simpl. unfold txtStep at 2. rewrite (unattributed_true _ Hl). simpl.
  generalize (trim l) as t. revert H.
  induction ls as [|x ls IH]; intros H t; simpl.
  - rewrite app_nil_r. reflexivity.
  - simpl in H. apply andb_true_iff in H. destruct H as [Hx H].
    pose proof (txtStep_fold []
                  {| speaker := []; startTime := []; endTime := []; text := t |}
                  x (unattributed_true _ Hx)) as E.
    cbn [app] in E. rewrite E. unfold appendText. cbn [text speaker startTime endTime].
    rewrite (IH H), app_assoc. reflexivity.
Qed.

End Loops.

(** * Further properties of the parsers *)

(** ** Only the trimmed lines matter *)

Section TrimmedLines.

Lemma txtStep_trim acc a b : trim a = trim b -> txtStep acc a = txtStep acc b.
Proof. intros E. unfold txtStep. rewrite E. reflexivity. Qed.

Lemma nonBlank_trim a b : trim a = trim b -> nonBlank a = nonBlank b.
Proof. intros E. unfold nonBlank. rewrite E. reflexivity. Qed.

Lemma txtLoop_trim l1 : forall l2 acc,
  map trim l1 = map trim l2 ->
  fold_left txtStep (filter nonBlank l1) acc
  = fold_left txtStep (filter nonBlank l2) acc.
Proof.
  induction l1 as [|a l1 IH]; intros [|b l2] acc E; simpl in E;
    try discriminate; [reflexivity|].
  inversion E as [[Eh Et]]. simpl.
  rewrite (nonBlank_trim a b Eh). destruct (nonBlank b); simpl.
  - rewrite (txtStep_trim acc a b Eh). apply IH. exact Et.
  - apply IH. exact Et.
Qed.

Lemma space_not_hyphen c : space c = true -> (ch "-" =? c)%N = false.
Proof.
  intros H. destruct (ch "-" =? c)%N eqn:E; [|reflexivity].
  apply N.eqb_eq in E. subst c. discriminate.
Qed.

Lemma trimStart_decomp s :
  exists ws, s = ws ++ trimStart s /\ allOf space ws.
Proof.
  induction s as [|c s [ws [E H]]]; simpl.
  - exists []. split; [reflexivity | constructor].
  - destruct (space c) eqn:Hc.
    + exists (c :: ws). split; [simpl; congruence | constructor; assumption].
    + exists []. split; [reflexivity | constructor].
Qed.

Lemma trimEnd_decomp s :
  exists ws, s = trimEnd s ++ ws /\ allOf space ws.
Proof.
  destruct (trimStart_decomp (rev s)) as [ws [E H]].
  exists (rev ws). split.
  - unfold trimEnd. rewrite <- rev_app_distr, <- E, rev_involutive. reflexivity.
  - unfold allOf. apply Forall_rev. exact H.
Qed.

Lemma startsWith_arrow_spaces ws :
  allOf space ws -> forall pat,
  (forall p, In p pat -> space p = false) ->
  forall t, startsWith pat (t ++ ws) = startsWith pat t.
Proof.
  intros Hws pat. induction pat as [|p pat IH]; intros Hp t; [reflexivity|].
  destruct t as [|c t]; simpl.
  - destruct ws as [|w ws']; [reflexivity|].
    inversion Hws; subst.
    destruct (p =? w)%N eqn:E; [|reflexivity].
    apply N.eqb_eq in E. subst w.
    rewrite (Hp p (or_introl eq_refl)) in *. discriminate.
  - rewrite IH; [reflexivity|]. intros q Hq. apply Hp. right. exact Hq.
Qed.

Lemma arrow_no_space : forall p, In p arrow -> space p = false.
Proof.
  intros p H. vm_compute in H.
  destruct H as [<-|[<-|[<-|[]]]]; reflexivity.
Qed.

Lemma includes_arrow_spaces ws :
  allOf space ws -> forall t, includes arrow (t ++ ws) = includes arrow t.
Proof.
  intros Hws. induction t as [|c t IH].
  - simpl app. induction Hws as [|w ws Hw _ IHw]; [reflexivity|].
    change (includes arrow (w :: ws))
      with (startsWith arrow (w :: ws) || includes arrow ws).
    rewrite IHw.
    change (startsWith arrow (w :: ws))
      with ((ch "-" =? w)%N && startsWith (tl arrow) ws).
    rewrite (space_not_hyphen w Hw). reflexivity.
  - change (includes arrow ((c :: t) ++ ws))
      with (startsWith arrow ((c :: t) ++ ws) || includes arrow (t ++ ws)).
    rewrite IH, (startsWith_arrow_spaces ws Hws arrow arrow_no_space).
    reflexivity.
Qed.

Lemma includes_arrow_leading ws :
  allOf space ws -> forall t, includes arrow (ws ++ t) = includes arrow t.
Proof.
  induction 1 as [|w ws Hw _ IH]; intros t; [reflexivity|].
  change (includes arrow ((w :: ws) ++ t))
    with (startsWith arrow (w :: ws ++ t) || includes arrow (ws ++ t)).
  change (startsWith arrow (w :: ws ++ t))
    with ((ch "-" =? w)%N && startsWith (tl arrow) (ws ++ t)).
  rewrite (space_not_hyphen w Hw), IH. reflexivity.
Qed.

(** Trimming a line does not change whether it holds [-->]. *)
Lemma includes_arrow_trim l : includes arrow (trim l) = includes arrow l.
Proof.
  unfold trim.
  destruct (trimStart_decomp l) as [ws1 [E1 H1]].
  destruct (trimEnd_decomp (trimStart l)) as [ws2 [E2 H2]].
  rewrite E1 at 2. rewrite (includes_arrow_leading ws1 H1).
  rewrite E2 at 2. rewrite (includes_arrow_spaces ws2 H2). reflexivity.
Qed.

Lemma skipHeader_trim l1 : forall l2,
  map trim l1 = map trim l2 ->
  map trim (skipHeader l1) = map trim (skipHeader l2).
Proof.
  induction l1 as [|a l1 IH]; intros [|b l2] E; simpl in E;
    try discriminate; [reflexivity|].
  inversion E as [[Eh Et]]. simpl.
  rewrite <- (includes_arrow_trim a), <- (includes_arrow_trim b), Eh.
  destruct (includes arrow (trim b)); [simpl; congruence | apply IH; exact Et].
Qed.

Lemma vttLoop_trim n : forall l1 l2 acc,
  length l1 <= n -> map trim l1 = map trim l2 ->
  vttLoop l1 acc = vttLoop l2 acc.
Proof.
  induction n as [|n IH]; intros l1 l2 acc Hn E.
  - destruct l1; [|simpl in Hn; lia]. destruct l2; [reflexivity | discriminate].
  - destruct l1 as [|a l1]; destruct l2 as [|b l2]; simpl in E;
      try discriminate; [reflexivity|].
    inversion E as [[Eh Et]]. simpl in Hn. simpl. rewrite Eh.
    destruct (includes arrow (trim b)); [|apply IH; [lia | exact Et]].
    destruct (exec cueRe (trim b)); [|apply IH; [lia | exact Et]].
    destruct l1 as [|a' l1]; destruct l2 as [|b' l2]; simpl in Et;
      try discriminate; [reflexivity|].
    inversion Et as [[Eh' Et']]. rewrite Eh'. simpl in Hn.
    apply IH; [lia | exact Et'].
Qed.

End TrimmedLines.

(** X1: the parse depends on the trimmed lines only.  Two texts whose
    lines agree after trimming (indentation, trailing spaces, a carriage
    return before the line feed) have the same parse, with each of the
    three parsers. *)
Theorem parse_depends_on_trimmed_lines (text1 text2 : jsstring) :
  map trim (splitLines text1) = map trim (splitLines text2) ->
  parseTxtFile text1 = parseTxtFile text2 /\
  parseDocxFile text1 = parseDocxFile text2 /\
  parseVttFile text1 = parseVttFile text2.
Proof.
  intros E.
  assert (G : fold_left txtStep (txtLines text1) []
              = fold_left txtStep (txtLines text2) [])
    by (apply txtLoop_trim; exact E).
  split; [exact G|]. split; [exact G|].
  unfold parseVttFile.
  apply (vttLoop_trim _ _ _ _ (le_n _)). apply skipHeader_trim. exact E.
Qed.

Lemma parse_depends_on_trimmed_lines_witness :
  let crlf := lit "WEBVTT" ++ [13; 10]%N ++ lit "  田中: こんにちは " ++ [13; 10]%N
              ++ lit "0:0:1.0 --> 0:0:2.0" ++ [13; 10]%N ++ lit "<v A>x</v>" in
  let lf := lit "WEBVTT" ++ [10]%N ++ lit "田中: こんにちは" ++ [10]%N
            ++ lit "0:0:1.0 --> 0:0:2.0" ++ [10]%N ++ lit "<v A>x</v>" in
  parseTxtFile crlf = parseTxtFile lf /\
  parseDocxFile crlf = parseDocxFile lf /\
  parseVttFile crlf = parseVttFile lf.
Proof.
  apply parse_depends_on_trimmed_lines. reflexivity.
Defined.

(** ** Neighbouring utterances of the caption parser *)

Section Neighbours.

Lemma vttLoop_invariant (Q : list TranscriptEntry -> Prop) :
  (forall acc sp st et tx, Q acc -> Q (pushCue acc sp st et tx)) ->
  forall n lines acc, length lines <= n -> Q acc -> Q (vttLoop lines acc).
Proof.
  intros Hq. induction n as [|n IH]; intros lines acc Hn H.
  - destruct lines; [exact H | simpl in Hn; lia].
  - destruct lines as [|raw lines1]; [exact H|]. simpl in Hn. simpl.
    destruct (includes arrow (trim raw)); [|apply IH; [lia | exact H]].
    destruct (exec cueRe (trim raw)); [|apply IH; [lia | exact H]].
    destruct lines1 as [|rawContent lines2]; [exact H|]. simpl in Hn.
    apply IH; [lia|]. apply Hq. exact H.
Qed.

Lemma nth_error_snoc_at (acc : list TranscriptEntry) e rest :
  nth_error (acc ++ e :: rest) (length acc) = Some e.
Proof.
  rewrite nth_error_app2 by lia. rewrite Nat.sub_diag. reflexivity.
Qed.

Lemma nth_error_snoc_last (acc : list TranscriptEntry) e i a :
  nth_error (acc ++ [e]) i = Some a -> i = length acc -> a = e.
Proof.
  intros H ->. rewrite nth_error_app2 in H by lia.
  rewrite Nat.sub_diag in H. simpl in H. congruence.
Qed.

Lemma neighboursDiffer_snoc acc e :
  neighboursDiffer acc ->
  (forall l, lastEntry acc = Some l -> speaker l <> speaker e) ->
  neighboursDiffer (acc ++ [e]).
Proof.
  intros H He i a b Ha Hb.
  assert (Hi : S i < length (acc ++ [e])).
  { apply nth_error_Some. rewrite Hb. discriminate. }
  rewrite length_app in Hi. simpl in Hi.
  destruct (Nat.eq_dec (S i) (length acc)) as [E|E].
  - rewrite (nth_error_snoc_last acc e (S i) b Hb E).
    rewrite nth_error_app1 in Ha by lia.
    apply He. unfold lastEntry.
    destruct (snoc_cases acc) as [->|[init [l ->]]]; [simpl in E; lia|].
    rewrite rev_app_distr. simpl.
    rewrite length_app in E. simpl in E.
    rewrite nth_error_app2 in Ha by lia.
    replace (i - length init) with 0 in Ha by lia. simpl in Ha. exact Ha.
  - rewrite nth_error_app1 in Ha by lia.
    rewrite nth_error_app1 in Hb by lia.
    apply (H i a b Ha Hb).
Qed.

Lemma neighboursDiffer_init acc e :
  neighboursDiffer (acc ++ [e]) -> neighboursDiffer acc.
Proof.
  intros H i a b Ha Hb.
  assert (Hi : S i < length acc).
  { apply nth_error_Some. rewrite Hb. discriminate. }
  apply (H i a b); rewrite nth_error_app1 by lia; assumption.
Qed.

Lemma neighboursDiffer_last acc e l :
  neighboursDiffer (acc ++ [e]) -> lastEntry acc = Some l ->
  speaker l <> speaker e.
Proof.
  intros H Hl. unfold lastEntry in Hl.
  destruct (snoc_cases acc) as [->|[init [x ->]]]; [discriminate|].
  rewrite rev_app_distr in Hl. simpl in Hl. inversion Hl; subst x.
  apply (H (length init) l e).
  - rewrite <- app_assoc. apply nth_error_snoc_at.
  - replace (S (length init)) with (length (init ++ [l]))
      by (rewrite length_app; simpl; lia).
    apply (nth_error_snoc_at (init ++ [l]) e []).
Qed.

Lemma pushCue_neighboursDiffer acc sp st et tx :
  neighboursDiffer acc -> neighboursDiffer (pushCue acc sp st et tx).
Proof.
  intros H.
  destruct (pushCue_cases acc sp st et tx)
    as [[init [e [-> [Hs ->]]]]|[Hn ->]].
  - apply neighboursDiffer_snoc.
    + apply (neighboursDiffer_init init e H).
    + intros l Hl. simpl. apply (neighboursDiffer_last init e l H Hl).
  - apply neighboursDiffer_snoc; [exact H|]. exact Hn.
Qed.

End Neighbours.

(** X2: in the output of the caption parser two neighbouring utterances
    never have the same speaker: a cue of the speaker of the last
    utterance is merged into it. *)
Theorem caption_neighbours_differ (text : jsstring) (i : nat)
  (a b : TranscriptEntry) :
  nth_error (parseVttFile text) i = Some a ->
  nth_error (parseVttFile text) (S i) = Some b ->
  speaker a <> speaker b.
Proof.
  revert i a b. change (neighboursDiffer (parseVttFile text)).
  unfold parseVttFile.
  apply (vttLoop_invariant neighboursDiffer pushCue_neighboursDiffer
           _ _ _ (le_n _)).
  intros i a b Ha. destruct i; discriminate.
Qed.

Lemma caption_neighbours_differ_witness :
  lit "A" <> lit "B".
Proof.
  apply (caption_neighbours_differ
           (lit "0:0:1.0 --> 0:0:2.0" ++ nl ++ lit "<v A>x</v>" ++ nl
            ++ lit "0:0:2.0 --> 0:0:3.0" ++ nl ++ lit "<v A>y</v>" ++ nl
            ++ lit "0:0:3.0 --> 0:0:4.0" ++ nl ++ lit "<v B>z</v>")
           0
           {| speaker := lit "A"; startTime := lit "0:0:1.0";
              endTime := lit "0:0:3.0"; text := lit "xy" |}
           {| speaker := lit "B"; startTime := lit "0:0:3.0";
              endTime := lit "0:0:4.0"; text := lit "z" |});
    reflexivity.
Defined.

(** ** How many utterances *)

Section Counts.

Lemma txtStep_count acc raw :
  acc <> [] ->
  length (txtStep acc raw)
  = length acc + (if attributed raw then 1 else 0).
Proof.
  intros Hacc. unfold txtStep, attributed, unattributed.
  destruct (speakerMatch (trim raw)); simpl.
  - apply length_app.
  - destruct (snoc_cases acc) as [->|[init [e ->]]]; [contradiction|].
    rewrite length_app. simpl.
    replace (0 <? length init + 1) with true
      by (symmetry; apply Nat.ltb_lt; lia).
    rewrite modifyLast_snoc, length_app. simpl. lia.
Qed.

Lemma txtStep_not_nil acc raw : txtStep acc raw <> [].
Proof.
  intros E. pose proof (txtStep_nonempty acc raw) as H.
  rewrite E in H. simpl in H. lia.
Qed.

Lemma txtStep_count_first raw : length (txtStep [] raw) = 1.
Proof.
  unfold txtStep. destruct (speakerMatch (trim raw)); reflexivity.
Qed.

Lemma skipHeader_count lines :
  length (filter (includes arrow) (skipHeader lines))
  <= length (filter (includes arrow) lines).
Proof.
  induction lines as [|l lines IH]; simpl; [lia|].
  destruct (includes arrow l) eqn:E; simpl; [rewrite E; simpl; lia | exact IH].
Qed.

Lemma txtLoop_count lines : forall acc,
  acc <> [] ->
  length (fold_left txtStep lines acc)
  = length acc + length (filter attributed lines).
Proof.
  induction lines as [|l lines IH]; intros acc Hacc; simpl; [lia|].
  rewrite (IH _ (txtStep_not_nil acc l)), (txtStep_count acc l Hacc).
  destruct (attributed l); simpl; lia.
Qed.

Lemma vttLoop_count n : forall lines acc,
  length lines <= n ->
  length (vttLoop lines acc)
  <= length acc + length (filter (includes arrow) lines).
Proof.
  induction n as [|n IH]; intros lines acc Hn.
  - destruct lines; [simpl; lia | simpl in Hn; lia].
  - destruct lines as [|raw lines1]; [simpl; lia|]. simpl in Hn. simpl.
    rewrite includes_arrow_trim.
    destruct (includes arrow raw) eqn:Ha.
    + destruct (exec cueRe (trim raw)).
      * destruct lines1 as [|rawContent lines2]; [simpl; lia|].
        simpl in Hn. simpl.
        match goal with
        | |- length (vttLoop lines2 ?acc') <= _ =>
          specialize (IH lines2 acc' ltac:(lia));
          assert (Hp : length acc' <= S (length acc))
        end.
        { match goal with
          | |- length (pushCue acc ?sp ?st ?et ?tx) <= _ =>
            destruct (pushCue_cases acc sp st et tx)
              as [[init [e [-> [_ ->]]]]|[_ ->]]
          end; rewrite !length_app; simpl; lia. }
        destruct (includes arrow rawContent); simpl; lia.
      * specialize (IH lines1 acc ltac:(lia)). simpl. lia.
    + apply IH. lia.
Qed.

End Counts.

(** X3: the freeform parser gives one utterance for the first line that
    is not blank and one more for every later line that has a speaker;
    the caption parser gives at most one utterance for each line that
    holds [-->]. *)
Theorem utterance_counts (text : jsstring) :
  length (parseTxtFile text)
  = match txtLines text with
    | [] => 0
    | _ :: later => S (length (filter attributed later))
    end /\
  length (parseVttFile text)
  <= length (filter (includes arrow) (splitLines text)).
Proof.
  split.
  - unfold parseTxtFile. destruct (txtLines text) as [|l later];
      [reflexivity|]. simpl.
    rewrite (txtLoop_count later _ (txtStep_not_nil [] l)).
    pose proof (txtStep_nonempty [] l) as H1.
    pose proof (txtStep_count_first l) as H2. lia.
  - unfold parseVttFile.
    pose proof (vttLoop_count _ (skipHeader (splitLines text)) []
                  (le_n _)) as H. simpl in H.
    pose proof (skipHeader_count (splitLines text)) as H2. lia.
Qed.

(** ** Fields without line feed, and the downloaded transcript *)

Section LineFree.

Lemma lineFree_incl w s : incl w s -> lineFree s -> lineFree w.
Proof. intros Hi Hs H. apply Hs. apply Hi. exact H. Qed.

Lemma lineFree_app a b : lineFree a -> lineFree b -> lineFree (a ++ b).
Proof.
  intros Ha Hb H. apply in_app_or in H. destruct H; [apply Ha | apply Hb]; auto.
Qed.

Lemma splitLines_lineFree s : Forall lineFree (splitLines s).
Proof.
  induction s as [|c s IH]; simpl.
  - constructor; [intros [] | constructor].
  - destruct (c =? 10)%N eqn:E.
    + constructor; [intros [] | exact IH].
    + destruct (splitLines s) as [|l ls]; [constructor; [|constructor]|].
      * intros [H|[]]. subst c. discriminate.
      * inversion IH; subst. constructor; [|assumption].
        intros [H|H]; [subst c; discriminate | contradiction].
Qed.

Lemma trimStart_incl s : incl (trimStart s) s.
Proof.
  induction s as [|c s IH]; simpl; [apply incl_refl|].
  destruct (space c); [apply incl_tl; exact IH | apply incl_refl].
Qed.

Lemma trim_incl s : incl (trim s) s.
Proof.
  unfold trim, trimEnd. intros x H. apply trimStart_incl.
  apply in_rev. apply in_rev in H. apply trimStart_incl in H. exact H.
Qed.

Lemma skipn_incl n (s : jsstring) : incl (skipn n s) s.
Proof.
  intros x H. rewrite <- (firstn_skipn n s). apply in_or_app. right. exact H.
Qed.

Lemma firstn_incl n (s : jsstring) : incl (firstn n s) s.
Proof.
  intros x H. rewrite <- (firstn_skipn n s). apply in_or_app. left. exact H.
Qed.

(** A captured group is made of characters of the input. *)
Lemma Matches_incl r b s c w s' c' :
  Matches r b s c w s' c' ->
  forall k0 g0, c' k0 = Some g0 -> c k0 = Some g0 \/ incl g0 s.
Proof.
  induction 1; intros k0 g0 Hg; auto.
  - destruct (IHMatches2 k0 g0 Hg) as [H1|H1].
    + apply IHMatches1. exact H1.
    + right. rewrite (Matches_split _ _ _ _ _ _ _ H).
      apply incl_appr. exact H1.
  - unfold upd in Hg. destruct (k0 =? n).
    + inversion Hg; subst. right.
      rewrite (Matches_split _ _ _ _ _ _ _ H). apply incl_appl, incl_refl.
    + apply IHMatches. exact Hg.
Qed.

Lemma exec_incl r s m k g :
  exec r s = Some m -> m_groups m k = Some g -> incl g s.
Proof.
  intros H Hg. apply exec_sound in H.
  destruct H as [pre [w [c [Hs [_ [Hm Hk]]]]]].
  rewrite Hk in Hg. unfold upd in Hg. destruct (k =? 0).
  - injection Hg as <-. rewrite Hs. apply incl_appr, incl_appl, incl_refl.
  - destruct (Matches_incl _ _ _ _ _ _ _ Hm k g Hg) as [H|H]; [discriminate|].
    rewrite Hs. apply incl_appr. exact H.
Qed.

Lemma exec_rest_incl r s m : exec r s = Some m -> incl (m_rest m) s.
Proof.
  intros H. apply exec_sound in H.
  destruct H as [pre [w [c [Hs _]]]].
  rewrite Hs. apply incl_appr, incl_appr, incl_refl.
Qed.

Lemma str_incl r s m k : exec r s = Some m -> incl (str (m_groups m k)) s.
Proof.
  intros H. destruct (m_groups m k) as [g|] eqn:E; simpl.
  - apply (exec_incl r s m k g H E).
  - intros x [].
Qed.

Lemma replaceFirst_incl r s : incl (replaceFirst r s) s.
Proof.
  unfold replaceFirst. destruct (exec r s) as [m|] eqn:E; [|apply incl_refl].
  apply incl_app; [apply firstn_incl | apply (exec_rest_incl r s m E)].
Qed.

Lemma replaceAllFrom_incl r s : forall b k, incl (replaceAllFrom r b k s) s.
Proof.
  induction s as [|x s IH]; intros b k.
  - destruct k; apply incl_refl.
  - destruct k as [|k]; simpl.
    + destruct (run r b (x :: s) noCaptures) as [|[[[|y w] s'] c] l].
      * apply incl_cons; [left; reflexivity | apply incl_tl, IH].
      * apply incl_cons; [left; reflexivity | apply incl_tl, IH].
      * apply incl_tl, IH.
    + apply incl_tl, IH.
Qed.

Lemma canonical_lineFree t : isCanonicalTime t = true -> lineFree t.
Proof.
  intros H.
  do 13 (destruct t as [|? t]; try discriminate).
  simpl in H. repeat (apply andb_true_iff in H; destruct H as [H ?]).
  repeat match goal with
  | E : (_ =? _)%N = true |- _ => apply N.eqb_eq in E; subst
  end.
  intros Hin. simpl in Hin.
  repeat (destruct Hin as [Hin|Hin];
          [subst; try discriminate;
           match goal with E : digit 10%N = true |- _ => discriminate E end|]).
  exact Hin.
Qed.

Lemma lineTimes_lineFree content :
  lineFree (fst (lineTimes content)) /\ lineFree (snd (lineTimes content)).
Proof.
  destruct (lineTimes_cases content) as [E|[Hs He]].
  - rewrite E. split; intros [].
  - split; [apply canonical_lineFree; exact Hs|].
    destruct He as [E|E]; [rewrite E; intros [] | apply canonical_lineFree, E].
Qed.

Lemma splitLine_lineFree line sm :
  lineFree line -> speakerMatch line = Some sm ->
  entryLineFree (splitLine line sm).
Proof.
  intros Hl Hm. unfold entryLineFree, splitLine. simpl.
  assert (Hg : incl (str (m_groups sm 1)) line).
  { unfold speakerMatch in Hm.
    destruct (exec speakerTimeRe line) as [m|] eqn:E.
    - inversion Hm; subst. apply (str_incl _ _ _ _ E).
    - apply (str_incl _ _ _ _ Hm). }
  set (content := trim (substring (length (str (m_groups sm 1))) line)).
  assert (Hc : lineFree content).
  { apply (lineFree_incl _ line); [|exact Hl].
    apply (incl_tran (trim_incl _)). apply skipn_incl. }
  destruct (lineTimes_lineFree content) as [H1 H2].
  split; [|split; [exact H1|split; [exact H2|]]].
  - apply (lineFree_incl _ line); [|exact Hl].
    apply (incl_tran (trim_incl _)). exact Hg.
  - apply (lineFree_incl _ content); [|exact Hc].
    unfold contentWithoutTime. apply (incl_tran (trim_incl _)).
    apply (incl_tran (replaceFirst_incl _ _)). apply replaceFirst_incl.
Qed.

Lemma txt_lineFree text : Forall entryLineFree (parseTxtFile text).
Proof.
  unfold parseTxtFile.
  assert (Hl : forall l, In l (txtLines text) -> lineFree (trim l)).
  { intros l H. unfold txtLines in H. apply filter_In in H.
    destruct H as [H _].
    pose proof (splitLines_lineFree text) as F. rewrite Forall_forall in F.
    apply (lineFree_incl _ l (trim_incl l)). apply F. exact H. }
  revert Hl. generalize (txtLines text) as lines.
  assert (G : forall lines acc,
             (forall l, In l lines -> lineFree (trim l)) ->
             Forall entryLineFree acc ->
             Forall entryLineFree (fold_left txtStep lines acc)).
  { induction lines as [|l lines IH]; intros acc Hl H; simpl; [exact H|].
    apply IH; [intros l' Hin; apply Hl; right; exact Hin|].
    assert (Hline : lineFree (trim l)) by (apply Hl; left; reflexivity).
    unfold txtStep. destruct (speakerMatch (trim l)) as [sm|] eqn:E.
    - apply Forall_app. split; [exact H|]. constructor; [|constructor].
      apply splitLine_lineFree; assumption.
    - destruct (0 <? length acc).
      + apply modifyLast_Forall; [|exact H].
        intros e [A [B [C D]]]. unfold entryLineFree, appendText. simpl.
        repeat split; auto. apply lineFree_app; assumption.
      + apply Forall_app. split; [exact H|]. constructor; [|constructor].
        unfold entryLineFree. simpl. repeat split; auto; intros []. }
  intros lines Hl. apply G; [exact Hl | constructor].
Qed.

Lemma cuePayload_lineFree contentLine :
  lineFree contentLine ->
  lineFree (fst (cuePayload contentLine)) /\
  lineFree (snd (cuePayload contentLine)).
Proof.
  intros Hl. unfold cuePayload.
  destruct (exec voiceRe contentLine) as [m|] eqn:E; simpl.
  - split.
    + destruct (truthy (m_groups m 1));
        apply (lineFree_incl _ contentLine (str_incl _ _ _ _ E) Hl).
    + apply (lineFree_incl _ contentLine); [|exact Hl].
      apply (incl_tran (trim_incl _)). apply replaceAllFrom_incl.
  - split; [|exact Hl]. intros H. vm_compute in H.
    destruct H as [H|[H|[]]]; discriminate.
Qed.

Lemma vtt_lineFree n : forall lines acc,
  length lines <= n -> Forall lineFree lines ->
  Forall entryLineFree acc -> Forall entryLineFree (vttLoop lines acc).
Proof.
  induction n as [|n IH]; intros lines acc Hn Hl H.
  - destruct lines; [exact H | simpl in Hn; lia].
  - destruct lines as [|raw lines1]; [exact H|]. simpl in Hn. simpl.
    inversion Hl as [|? ? Hraw Hl1]; subst.
    destruct (includes arrow (trim raw)); [|apply IH; [lia | | ]; assumption].
    destruct (exec cueRe (trim raw)) as [m|] eqn:E;
      [|apply IH; [lia | | ]; assumption].
    destruct lines1 as [|rawContent lines2]; [exact H|]. simpl in Hn.
    inversion Hl1 as [|? ? Hc Hl2]; subst.
    assert (Ht : lineFree (trim raw))
      by (apply (lineFree_incl _ raw (trim_incl raw) Hraw)).
    assert (Hct : lineFree (trim rawContent))
      by (apply (lineFree_incl _ rawContent (trim_incl rawContent) Hc)).
    destruct (cuePayload_lineFree (trim rawContent) Hct) as [P1 P2].
    assert (T1 : lineFree (str (m_groups m 1)))
      by (apply (lineFree_incl _ _ (str_incl _ _ _ 1 E) Ht)).
    assert (T2 : lineFree (str (m_groups m 2)))
      by (apply (lineFree_incl _ _ (str_incl _ _ _ 2 E) Ht)).
    apply IH; [lia | exact Hl2 |].
    apply pushCue_Forall; [| |exact H].
    + unfold entryLineFree. simpl. auto.
    + intros e [A [B [C D]]]. unfold entryLineFree, extendEntry. simpl.
      repeat split; auto. apply lineFree_app; assumption.
Qed.

Lemma skipHeader_Forall (Q : jsstring -> Prop) lines :
  Forall Q lines -> Forall Q (skipHeader lines).
Proof.
  induction 1 as [|l lines Hl H IH]; simpl; [constructor|].
  destruct (includes arrow l); [constructor; assumption | exact IH].
Qed.

Lemma vttFile_lineFree text : Forall entryLineFree (parseVttFile text).
Proof.
  unfold parseVttFile. apply (vtt_lineFree _ _ _ (le_n _)); [|constructor].
  apply skipHeader_Forall. apply splitLines_lineFree.
Qed.

Lemma splitLines_lineFree_eq s : lineFree s -> splitLines s = [s].
Proof.
  induction s as [|c s IH]; intros H; [reflexivity|]. simpl.
  destruct (c =? 10)%N eqn:E.
  - apply N.eqb_eq in E. subst c. exfalso. apply H. left. reflexivity.
  - rewrite IH; [reflexivity|]. intros Hin. apply H. right. exact Hin.
Qed.

Lemma splitLines_app a b :
  lineFree a -> splitLines (a ++ 10%N :: b) = a :: splitLines b.
Proof.
  induction a as [|c a IH]; intros H; [reflexivity|]. simpl.
  destruct (c =? 10)%N eqn:E.
  - apply N.eqb_eq in E. subst c. exfalso. apply H. left. reflexivity.
  - rewrite IH; [reflexivity|]. intros Hin. apply H. right. exact Hin.
Qed.

Lemma splitLines_joinWith parts :
  Forall lineFree parts -> parts <> [] ->
  splitLines (joinWith [10; 10]%N parts) = withBlankLines parts.
Proof.
  induction 1 as [|p parts Hp H IH]; intros Hne; [contradiction|].
  destruct parts as [|q parts].
  - simpl. apply splitLines_lineFree_eq. exact Hp.
  - change (joinWith [10; 10]%N (p :: q :: parts))
      with (p ++ 10%N :: 10%N :: joinWith [10; 10]%N (q :: parts)).
    rewrite (splitLines_app p _ Hp).
    change (splitLines (10%N :: joinWith [10; 10]%N (q :: parts)))
      with ([] :: splitLines (joinWith [10; 10]%N (q :: parts))).
    rewrite IH by discriminate. reflexivity.
Qed.

Lemma entryText_lineFree e : entryLineFree e -> lineFree (entryText e).
Proof.
  intros [A [B [C D]]]. unfold entryText.
  repeat apply lineFree_app; auto.
  - destruct (truthy (Some (startTime e))); [|intros []].
    repeat apply lineFree_app; auto.
    + intros H. vm_compute in H. destruct H as [H|[]]. discriminate.
    + intros H. vm_compute in H. destruct H as [H|[H|[]]]; discriminate.
  - intros H. vm_compute in H. destruct H as [H|[H|[]]]; discriminate.
Qed.

End LineFree.

(** X4: no field of an utterance produced by any of the parsers contains a
    line feed. *)
Theorem fields_have_no_line_feed (text : jsstring) :
  Forall entryLineFree (parseTxtFile text) /\
  Forall entryLineFree (parseDocxFile text) /\
  Forall entryLineFree (parseVttFile text).
Proof.
  split; [apply txt_lineFree|]. split; [apply txt_lineFree|].
  apply vttFile_lineFree.
Qed.

(** X5: the downloaded transcript of a parsed document has one line for
    each utterance, with one empty line between two utterances: splitting
    the download at the line feeds gives back the lines of the
    utterances. *)
Theorem download_has_one_line_per_utterance (text : jsstring) :
  (parseTxtFile text <> [] ->
   splitLines (transcriptText (parseTxtFile text))
   = withBlankLines (map entryText (parseTxtFile text))) /\
  (parseVttFile text <> [] ->
   splitLines (transcriptText (parseVttFile text))
   = withBlankLines (map entryText (parseVttFile text))).
Proof.
  assert (G : forall es, Forall entryLineFree es -> es <> [] ->
                         splitLines (transcriptText es)
                         = withBlankLines (map entryText es)).
  { intros es H Hne. unfold transcriptText. apply splitLines_joinWith.
    - apply Forall_map. apply (Forall_impl _ entryText_lineFree H).
    - destruct es; [contradiction | discriminate]. }
  split; intros H; apply G; auto; [apply txt_lineFree | apply vttFile_lineFree].
Qed.

Lemma download_has_one_line_per_utterance_witness :
  splitLines (transcriptText
                (parseTxtFile (lit "A 1:00 x" ++ nl ++ lit "B: y")))
  = [lit "[00:01:00.000] A: x"; []; lit "B: : y"].
Proof.
  apply (proj1 (download_has_one_line_per_utterance
                  (lit "A 1:00 x" ++ nl ++ lit "B: y"))).
  vm_compute. discriminate.
Defined.

(** * Further properties of the date extractor *)

Section DateShape.

(** The first element of a sequence is a group of digits that nothing
    after it overwrites. *)
Lemma Matches_group_first k lo hi r b s c w s' c' :
  Matches (Cat (Grp k (Rep digit lo (Some hi) true)) r) b s c w s' c' ->
  ~ In k (groupsOf r) ->
  exists g, c' k = Some g /\ isDigits lo hi g.
Proof.
  intros H Hk. apply Matches_Cat_inv in H.
  destruct H as [w1 [s1 [c1 [w2 [Hg [Hr _]]]]]].
  rewrite (Matches_preserved _ _ _ _ _ _ _ Hr k Hk).
  inversion Hg as [| | | | | | | | |n r0 b0 s0 c0 w0 s0' c0' Hrep]; subst.
  inversion Hrep; subst.
  bounds. eexists. split.
  - unfold upd. rewrite Nat.eqb_refl. reflexivity.
  - unfold isDigits. splits; assumption.
Qed.

Lemma Matches_skip r1 r b s c w s' c' :
  Matches (Cat r1 r) b s c w s' c' ->
  exists b1 s1 c1 w1, Matches r b1 s1 c1 w1 s' c'.
Proof.
  intros H. apply Matches_Cat_inv in H.
  destruct H as [w1 [s1 [c1 [w2 [_ [Hr _]]]]]]. eauto.
Qed.

Lemma groupsOf_Str p : groupsOf (Str p) = [].
Proof.
  unfold Str. induction p as [|x p IH]; [reflexivity | simpl; exact IH].
Qed.

Lemma ymdRe_groups sep : digitGroups3 (ymdRe sep) 4 4 1 2 1 2.
Proof.
  intros s m H. apply exec_sound in H.
  destruct H as [pre [w [c [_ [_ [Hm Hg]]]]]]. rewrite Hg. clear Hg.
  unfold ymdRe, seq, digits in Hm. cbn [fold_right] in Hm.
  pose proof (groupsOf_Str (lit sep)) as Hsep.
  pose proof Hm as H1. pose proof Hm as H2. pose proof Hm as H3.
  apply Matches_group_first in H1;
    [|simpl; rewrite !Hsep; simpl; intros [E|[E|E]]; try discriminate; exact E].
  apply Matches_skip in H2. destruct H2 as [? [? [? [? H2]]]].
  apply Matches_skip in H2. destruct H2 as [? [? [? [? H2]]]].
  apply Matches_group_first in H2;
    [|simpl; rewrite !Hsep; simpl; intros [E|E]; try discriminate; exact E].
  do 4 (apply Matches_skip in H3; destruct H3 as [? [? [? [? H3]]]]).
  apply Matches_group_first in H3; [|simpl; tauto].
  destruct H1 as [g1 [E1 D1]], H2 as [g2 [E2 D2]], H3 as [g3 [E3 D3]].
  exists g1, g2, g3. splits; assumption.
Qed.

Lemma mdRe_groups sep : digitGroups2 (mdRe sep) 1 2 1 2.
Proof.
  intros s m H. apply exec_sound in H.
  destruct H as [pre [w [c [_ [_ [Hm Hg]]]]]]. rewrite Hg. clear Hg.
  unfold mdRe, seq, digits in Hm. cbn [fold_right] in Hm.
  pose proof (groupsOf_Str (lit sep)) as Hsep.
  pose proof Hm as H1. pose proof Hm as H2.
  apply Matches_group_first in H1;
    [|simpl; rewrite !Hsep; simpl; intros [E|E]; try discriminate; exact E].
  do 2 (apply Matches_skip in H2; destruct H2 as [? [? [? [? H2]]]]).
  apply Matches_group_first in H2; [|simpl; tauto].
  destruct H1 as [g1 [E1 D1]], H2 as [g2 [E2 D2]].
  exists g1, g2. splits; assumption.
Qed.

Lemma yyyymmddRe_groups : digitGroups3 yyyymmddRe 4 4 2 2 2 2.
Proof.
  intros s m H. apply exec_sound in H.
  destruct H as [pre [w [c [_ [_ [Hm Hg]]]]]]. rewrite Hg. clear Hg.
  unfold yyyymmddRe, seq, digits in Hm. cbn [fold_right] in Hm.
  pose proof Hm as H1. pose proof Hm as H2. pose proof Hm as H3.
  apply Matches_group_first in H1;
    [|simpl; intros [E|[E|E]]; try discriminate; exact E].
  apply Matches_skip in H2. destruct H2 as [? [? [? [? H2]]]].
  apply Matches_group_first in H2;
    [|simpl; intros [E|E]; try discriminate; exact E].
  do 2 (apply Matches_skip in H3; destruct H3 as [? [? [? [? H3]]]]).
  apply Matches_group_first in H3; [|simpl; tauto].
  destruct H1 as [g1 [E1 D1]], H2 as [g2 [E2 D2]], H3 as [g3 [E3 D3]].
  exists g1, g2, g3. splits; assumption.
Qed.

Lemma yymmddRe_groups : digitGroups3 yymmddRe 2 2 2 2 2 2.
Proof.
  intros s m H. apply exec_sound in H.
  destruct H as [pre [w [c [_ [_ [Hm Hg]]]]]]. rewrite Hg. clear Hg.
  unfold yymmddRe, seq, digits in Hm. cbn [fold_right] in Hm.
  pose proof Hm as H1. pose proof Hm as H2. pose proof Hm as H3.
  apply Matches_group_first in H1;
    [|simpl; intros [E|[E|E]]; try discriminate; exact E].
  apply Matches_skip in H2. destruct H2 as [? [? [? [? H2]]]].
  apply Matches_group_first in H2;
    [|simpl; intros [E|E]; try discriminate; exact E].
  do 2 (apply Matches_skip in H3; destruct H3 as [? [? [? [? H3]]]]).
  apply Matches_group_first in H3; [|simpl; tauto].
  destruct H1 as [g1 [E1 D1]], H2 as [g2 [E2 D2]], H3 as [g3 [E3 D3]].
  exists g1, g2, g3. splits; assumption.
Qed.

Lemma kanjiYmdRe_groups : digitGroups3 kanjiYmdRe 4 4 1 2 1 2.
Proof.
  intros s m H. apply exec_sound in H.
  destruct H as [pre [w [c [_ [_ [Hm Hg]]]]]]. rewrite Hg. clear Hg.
  unfold kanjiYmdRe, seq, digits in Hm. cbn [fold_right] in Hm.
  pose proof Hm as H1. pose proof Hm as H2. pose proof Hm as H3.
  apply Matches_group_first in H1;
    [|vm_compute; intros [E|[E|E]]; try discriminate; exact E].
  do 2 (apply Matches_skip in H2; destruct H2 as [? [? [? [? H2]]]]).
  apply Matches_group_first in H2;
    [|vm_compute; intros [E|E]; try discriminate; exact E].
  do 4 (apply Matches_skip in H3; destruct H3 as [? [? [? [? H3]]]]).
  apply Matches_group_first in H3; [|vm_compute; tauto].
  destruct H1 as [g1 [E1 D1]], H2 as [g2 [E2 D2]], H3 as [g3 [E3 D3]].
  exists g1, g2, g3. splits; assumption.
Qed.

Lemma kanjiMdRe_groups : digitGroups2 kanjiMdRe 1 2 1 2.
Proof.
  intros s m H. apply exec_sound in H.
  destruct H as [pre [w [c [_ [_ [Hm Hg]]]]]]. rewrite Hg. clear Hg.
  unfold kanjiMdRe, seq, digits in Hm. cbn [fold_right] in Hm.
  pose proof Hm as H1. pose proof Hm as H2.
  apply Matches_group_first in H1;
    [|vm_compute; intros [E|E]; try discriminate; exact E].
  do 2 (apply Matches_skip in H2; destruct H2 as [? [? [? [? H2]]]]).
  apply Matches_group_first in H2; [|vm_compute; tauto].
  destruct H1 as [g1 [E1 D1]], H2 as [g2 [E2 D2]].
  exists g1, g2. splits; assumption.
Qed.

End DateShape.

Section DateResults.

Lemma isDigits_four g : isDigits 4 4 g -> fourDigits g = true.
Proof.
  intros [Hall [Hlo Hhi]].
  do 5 (destruct g as [|? g]; simpl in Hlo, Hhi; try lia).
  repeat match goal with
  | H : allOf _ (_ :: _) |- _ => inversion H; subst; clear H
  | H : Forall _ (_ :: _) |- _ => inversion H; subst; clear H
  end.
  cbn [fourDigits].
  repeat match goal with E : digit _ = true |- _ => rewrite E; clear E end.
  reflexivity.
Qed.

Lemma isDigits_two g : isDigits 2 2 g -> twoDigits g = true.
Proof.
  intros [Hall [Hlo Hhi]].
  do 3 (destruct g as [|? g]; simpl in Hlo, Hhi; try lia).
  repeat match goal with
  | H : allOf _ (_ :: _) |- _ => inversion H; subst; clear H
  | H : Forall _ (_ :: _) |- _ => inversion H; subst; clear H
  end.
  cbn [twoDigits].
  repeat match goal with E : digit _ = true |- _ => rewrite E; clear E end.
  reflexivity.
Qed.

Lemma padStart2_two g : isDigits 1 2 g -> twoDigits (padStart0 2 g) = true.
Proof.
  intros H. destruct (padStart2_digits g H) as [a [b [-> [Ha Hb]]]].
  cbn [twoDigits]. rewrite Ha, Hb. reflexivity.
Qed.

Lemma isoDate_parts y mo d :
  fourDigits y = true -> twoDigits mo = true -> twoDigits d = true ->
  isIsoDate (y ++ lit "-" ++ mo ++ lit "-" ++ d) = true.
Proof.
  intros Hy Hm Hd.
  do 5 (destruct y as [|? y]; try discriminate).
  do 3 (destruct mo as [|? mo]; try discriminate).
  do 3 (destruct d as [|? d]; try discriminate).
  cbn [fourDigits twoDigits] in Hy, Hm, Hd.
  do 3 (apply andb_true_iff in Hy; destruct Hy as [Hy ?]).
  apply andb_true_iff in Hm; destruct Hm as [Hm ?].
  apply andb_true_iff in Hd; destruct Hd as [Hd ?].
  match goal with
  | |- isIsoDate ([?a; ?b; ?c; ?e] ++ _ ++ [?f; ?g] ++ _ ++ [?h; ?i]) = true =>
    change (isIsoDate [a; b; c; e; ch "-"; f; g; ch "-"; h; i] = true)
  end.
  unfold isIsoDate.
  repeat match goal with E : digit _ = true |- _ => rewrite E; clear E end.
  reflexivity.
Qed.

Lemma century_four g : twoDigits g = true -> fourDigits (lit "20" ++ g) = true.
Proof.
  intros H. do 3 (destruct g as [|? g]; try discriminate). exact H.
Qed.

Lemma years_check :
  forallb (fun k => fourDigits (ofNumber (1000 + N.of_nat k)))
          (List.seq 0 (90 * 100))
  = true.
Proof. vm_compute. reflexivity. Qed.

(** A year from 1000 to 9999 is written with four digits. *)
Lemma year_four (y : N) :
  (1000 <= y <= 9999)%N -> fourDigits (ofNumber y) = true.
Proof.
  intros H.
  replace y with (1000 + N.of_nat (N.to_nat (y - 1000)))%N by lia.
  pose proof years_check as C. rewrite forallb_forall in C.
  apply C. apply in_seq. lia.
Qed.

Lemma padded_iso r s m :
  digitGroups3 r 4 4 1 2 1 2 -> exec r s = Some m ->
  exists d, found (fmtPadded m) = Return (Some d) /\ isIsoDate d = true.
Proof.
  intros G E. destruct (G s m E) as [g1 [g2 [g3 [E1 [E2 [E3 [D1 [D2 D3]]]]]]]].
  unfold found, fmtPadded, grp. rewrite E1, E2, E3. cbn [bind].
  eexists. split; [reflexivity|].
  apply isoDate_parts;
    [apply isDigits_four | apply padStart2_two | apply padStart2_two];
    assumption.
Qed.

Lemma plain_iso r s m :
  digitGroups3 r 4 4 2 2 2 2 -> exec r s = Some m ->
  exists d, found (fmtPlain m) = Return (Some d) /\ isIsoDate d = true.
Proof.
  intros G E. destruct (G s m E) as [g1 [g2 [g3 [E1 [E2 [E3 [D1 [D2 D3]]]]]]]].
  unfold found, fmtPlain, grp. rewrite E1, E2, E3. cbn [bind].
  eexists. split; [reflexivity|].
  apply isoDate_parts;
    [apply isDigits_four | apply isDigits_two | apply isDigits_two];
    assumption.
Qed.

Lemma century_iso r s m :
  digitGroups3 r 2 2 2 2 2 2 -> exec r s = Some m ->
  exists d, found (fmtCentury m) = Return (Some d) /\ isIsoDate d = true.
Proof.
  intros G E. destruct (G s m E) as [g1 [g2 [g3 [E1 [E2 [E3 [D1 [D2 D3]]]]]]]].
  unfold found, fmtCentury, grp. rewrite E1, E2, E3. cbn [bind].
  eexists. split; [reflexivity|].
  rewrite app_assoc.
  apply isoDate_parts;
    [apply century_four, isDigits_two | apply isDigits_two | apply isDigits_two];
    assumption.
Qed.

Lemma thisYear_iso r s m y :
  (1000 <= y <= 9999)%N ->
  digitGroups2 r 1 2 1 2 -> exec r s = Some m ->
  exists d, found (fmtThisYear y m) = Return (Some d) /\ isIsoDate d = true.
Proof.
  intros Hy G E. destruct (G s m E) as [g1 [g2 [E1 [E2 [D1 D2]]]]].
  unfold found, fmtThisYear, grp. rewrite E1, E2. cbn [bind].
  eexists. split; [reflexivity|].
  apply isoDate_parts;
    [apply year_four | apply padStart2_two | apply padStart2_two];
    assumption.
Qed.

Lemma first_digit_in lo hi g s :
  isDigits (S lo) hi g -> incl g s -> exists x, In x s /\ digit x = true.
Proof.
  intros [Hall [Hlo _]] Hi. destruct g as [|x g]; [simpl in Hlo; lia|].
  inversion Hall; subst. exists x. split; [apply Hi; left; reflexivity | assumption].
Qed.

Lemma groups3_need_digit r a b c d e f s :
  digitGroups3 r (S a) b c d e f ->
  (forall x, In x s -> digit x = false) -> exec r s = None.
Proof.
  intros G Hs. destruct (exec r s) as [m|] eqn:E; [|reflexivity].
  destruct (G s m E) as [g1 [g2 [g3 [E1 [_ [_ [D1 _]]]]]]].
  destruct (first_digit_in a b g1 s D1 (exec_incl r s m 1 g1 E E1))
    as [x [Hx Hd]].
  rewrite (Hs x Hx) in Hd. discriminate.
Qed.

Lemma groups2_need_digit r a b c d s :
  digitGroups2 r (S a) b c d ->
  (forall x, In x s -> digit x = false) -> exec r s = None.
Proof.
  intros G Hs. destruct (exec r s) as [m|] eqn:E; [|reflexivity].
  destruct (G s m E) as [g1 [g2 [E1 [_ [D1 _]]]]].
  destruct (first_digit_in a b g1 s D1 (exec_incl r s m 1 g1 E E1))
    as [x [Hx Hd]].
  rewrite (Hs x Hx) in Hd. discriminate.
Qed.

End DateResults.

(** X6: when the current year has four digits, every date that
    [extractDate] returns is a ten-character string of the form
    [YYYY-MM-DD]: four digits, a hyphen, two digits, a hyphen, two digits
    (whatever the digits are: no range of month or day is checked). *)
Theorem extractDate_gives_iso_shape (currentYear : N) (fileName d : jsstring) :
  (1000 <= currentYear <= 9999)%N ->
  extractDate currentYear fileName = Return (Some d) ->
  isIsoDate d = true.
Proof.
  intros Hy. unfold extractDate.
  repeat match goal with
  | |- match exec ?r ?s with _ => _ end = _ -> _ =>
    let E := fresh "E" in destruct (exec r s) eqn:E
  end;
  intros H;
  try (match goal with
       | E : exec (ymdRe ?sep) _ = Some ?m |- _ =>
         destruct (padded_iso _ _ m (ymdRe_groups sep) E) as [d' [Hf Hd]]
       | E : exec yyyymmddRe _ = Some ?m |- _ =>
         destruct (plain_iso _ _ m yyyymmddRe_groups E) as [d' [Hf Hd]]
       | E : exec kanjiYmdRe _ = Some ?m |- _ =>
         destruct (padded_iso _ _ m kanjiYmdRe_groups E) as [d' [Hf Hd]]
       | E : exec yymmddRe _ = Some ?m |- _ =>
         destruct (century_iso _ _ m yymmddRe_groups E) as [d' [Hf Hd]]
       | E : exec (mdRe ?sep) _ = Some ?m |- _ =>
         destruct (thisYear_iso _ _ m currentYear Hy (mdRe_groups sep) E)
           as [d' [Hf Hd]]
       | E : exec kanjiMdRe _ = Some ?m |- _ =>
         destruct (thisYear_iso _ _ m currentYear Hy kanjiMdRe_groups E)
           as [d' [Hf Hd]]
       end;
       rewrite Hf in H; inversion H; subst; exact Hd).
  discriminate.
Qed.

Lemma extractDate_gives_iso_shape_witness :
  isIsoDate (lit "2012-34-56") = true.
Proof.
  apply (extractDate_gives_iso_shape 2026 (lit "call_123456.txt")).
  - lia.
  - reflexivity.
Defined.

(** X7: a file name without any digit gives the no-match result. *)
Theorem extractDate_needs_a_digit (currentYear : N) (fileName : jsstring) :
  (forall x, In x fileName -> digit x = false) ->
  extractDate currentYear fileName = Return None.
Proof.
  intros H. rewrite extractDate_cascade. apply firstMatch_none.
  intros p Hp. simpl in Hp.
  repeat (destruct Hp as [<-|Hp];
          [simpl fst;
           first [ apply (groups3_need_digit _ _ _ _ _ _ _ _ (ymdRe_groups _) H)
                 | apply (groups3_need_digit _ _ _ _ _ _ _ _ yyyymmddRe_groups H)
                 | apply (groups3_need_digit _ _ _ _ _ _ _ _ kanjiYmdRe_groups H)
                 | apply (groups3_need_digit _ _ _ _ _ _ _ _ yymmddRe_groups H)
                 | apply (groups2_need_digit _ _ _ _ _ _ (mdRe_groups _) H)
                 | apply (groups2_need_digit _ _ _ _ _ _ kanjiMdRe_groups H) ]|]).
  contradiction.
Qed.

Lemma extractDate_needs_a_digit_witness :
  extractDate 2026 (lit "議事録-final.v.docx") = Return None.
Proof.
  apply extractDate_needs_a_digit.
  intros x H. vm_compute in H.
  repeat (destruct H as [<-|H]; [reflexivity|]). contradiction.
Defined.

(** * Further properties of the time reader *)

Lemma digit_cases x : digit x = true ->
  (x = 48 \/ x = 49 \/ x = 50 \/ x = 51 \/ x = 52 \/ x = 53 \/ x = 54 \/ x = 55
   \/ x = 56 \/ x = 57)%N.
Proof.
  unfold digit. intros H. apply andb_true_iff in H. destruct H as [A B].
  apply N.leb_le in A. apply N.leb_le in B. lia.
Qed.

(** A digit is no white space, colon, period or range separator. *)
Lemma digit_facts x : digit x = true ->
  space x = false /\ isChar (ch ":") x = false /\ isChar (ch ".") x = false
  /\ rangeSep x = false.
Proof.
  intros H. apply digit_cases in H.
  repeat (destruct H as [->|H]; [repeat split|]). subst. repeat split.
Qed.

(** The twelve characters of a canonical time, with what the character
    classes of the time patterns answer on each. *)
Ltac canonicalChars H :=
  do 11 (apply andb_true_iff in H; destruct H as [H ?]);
  repeat match goal with
  | E : (_ =? _)%N = true |- _ => apply N.eqb_eq in E; subst
  end;
  repeat match goal with
  | E : digit ?x = true |- _ =>
    let A := fresh "A" in let B := fresh "B" in let C := fresh "C" in
    let D := fresh "D" in
    destruct (digit_facts x E) as [A [B [C D]]]; revert E
  end; intros;
  assert (F1 : digit (ch ":") = false) by reflexivity;
  assert (F2 : space (ch ":") = false) by reflexivity;
  assert (F3 : isChar (ch ":") (ch ":") = true) by reflexivity;
  assert (F4 : isChar (ch ".") (ch ":") = false) by reflexivity;
  assert (F5 : digit (ch ".") = false) by reflexivity;
  assert (F6 : space (ch ".") = false) by reflexivity;
  assert (F7 : isChar (ch ":") (ch ".") = false) by reflexivity;
  assert (F8 : isChar (ch ".") (ch ".") = true) by reflexivity;
  assert (F9 : rangeSep (ch ":") = false) by reflexivity;
  assert (F10 : rangeSep (ch ".") = false) by reflexivity.

(** The matcher run on a string whose characters are variables: the
    answers of the character classes come from the context. *)
Ltac runSymbolic :=
  repeat (cbn [run splits flat_map map filter app rev fst snd isNil negb
               andb length Nat.leb consFst Nat.add hd_error];
          repeat match goal with
          | E : _ = true |- _ => rewrite E
          | E : _ = false |- _ => rewrite E
          end).

Section CanonicalTimes.

(** The single-time pattern takes a canonical time whole: hours, minutes,
    seconds and milliseconds. *)
Lemma canonical_single t : isCanonicalTime t = true ->
  exec timeRe t
  = Some {| m_index := 0;
            m_groups := upd 0 t (upd 4 (skipn 9 t) (upd 3 (firstn 2 (skipn 6 t))
                         (upd 2 (firstn 2 (skipn 3 t))
                           (upd 1 (firstn 2 t) noCaptures))));
            m_rest := [] |}.
Proof.
  intros H.
  do 13 (destruct t as [|? t]; try discriminate).
  cbn [isCanonicalTime] in H. canonicalChars H.
  unfold exec, execFrom, timeRe, timeParts, seq, digits, star.
  cbn [fold_right Nat.eqb]. runSymbolic. reflexivity.
Qed.

(** The two-time pattern finds no second time in it. *)
Lemma canonical_range t : isCanonicalTime t = true ->
  exec timeRangeRe t = None.
Proof.
  intros H.
  do 13 (destruct t as [|? t]; try discriminate).
  cbn [isCanonicalTime] in H. canonicalChars H.
  unfold exec, execFrom, timeRangeRe, timeParts, seq, digits, star, plus.
  cbn [fold_right Nat.eqb]. runSymbolic. reflexivity.
Qed.

End CanonicalTimes.

(** X8: the freeform parsers read a time that is already of the form
    [HH:MM:SS.mmm] back unchanged, as a start time without an end time,
    and leave nothing of it in the text. *)
Theorem canonical_time_is_kept (t : jsstring) :
  isCanonicalTime t = true ->
  lineTimes t = (t, []) /\ contentWithoutTime t = [].
Proof.
  intros H. unfold lineTimes, contentWithoutTime, replaceFirst.
  rewrite (canonical_range t H), (canonical_single t H).
  cbn [m_groups m_index m_rest firstn app].
  do 13 (destruct t as [|? t]; try discriminate).
  cbn [isCanonicalTime] in H. canonicalChars H.
  split; reflexivity.
Qed.

Lemma canonical_time_is_kept_witness :
  lineTimes (lit "01:02:03.004") = (lit "01:02:03.004", [])
  /\ contentWithoutTime (lit "01:02:03.004") = [].
Proof.
  apply (canonical_time_is_kept (lit "01:02:03.004")). reflexivity.
Defined.

(** * Further properties of the settings *)

Section SavedSettings.

Lemma orElse_restored saved current :
  orElse (Some saved) current = restored saved current.
Proof. destruct saved; reflexivity. Qed.

Lemma getItem_setItem_same key value storage :
  getItem key (setItem key value storage) = Some value.
Proof.
  unfold getItem, setItem.
  replace (eqb key key) with true; [reflexivity|].
  symmetry. apply jsstring_eqb_eq. reflexivity.
Qed.

Lemma getItem_setItem_other k key value storage :
  k <> key -> getItem k (setItem key value storage) = getItem k storage.
Proof.
  intros H. unfold getItem, setItem.
  destruct (eqb k key) eqn:E; [|reflexivity].
  apply jsstring_eqb_eq in E. contradiction.
Qed.

Lemma ofBoolean_true b : eqb (ofBoolean b) (lit "true") = b.
Proof. destruct b; reflexivity. Qed.

End SavedSettings.

(** X9: saving settings and loading them again restores every text
    setting that was saved non-empty and the server switch; a text setting
    saved empty comes back as the value current at load time.  Saving
    writes the seven keys of the settings only: every other key of the
    storage keeps its value. *)
Theorem saved_settings_are_loaded (new : Settings) (storage : Storage)
  (st : Settings) :
  let stored := snd (handleSaveSettings new storage) in
  let st' := loadSettings stored st in
  geminiApiKey st' = restored (geminiApiKey new) (geminiApiKey st)
  /\ llmType st' = restored (llmType new) (llmType st)
  /\ ollamaUrl st' = restored (ollamaUrl new) (ollamaUrl st)
  /\ ollamaModel st' = restored (ollamaModel new) (ollamaModel st)
  /\ apiServerUrl st' = restored (apiServerUrl new) (apiServerUrl st)
  /\ apiKey st' = restored (apiKey new) (apiKey st)
  /\ useApiServer st' = useApiServer new
  /\ showSettingsModal st' = showSettingsModal st
  /\ forall k, ~ In k settingsKeys -> getItem k stored = getItem k storage.
Proof.
  cbv zeta. unfold handleSaveSettings, loadSettings.
  cbn [snd geminiApiKey llmType ollamaUrl ollamaModel apiServerUrl apiKey
       useApiServer showSettingsModal].
  repeat match goal with
  | |- _ /\ _ => split
  end.
  1-7: repeat first
       [ rewrite getItem_setItem_same
       | rewrite getItem_setItem_other by (intros E; vm_compute in E; discriminate) ].
  1-6: apply orElse_restored.
  - apply ofBoolean_true.
  - reflexivity.
  - intros k Hk.
    repeat (rewrite getItem_setItem_other;
            [|intros E; apply Hk; subst k; simpl; tauto]).
    reflexivity.
Qed.

(** * The matcher finds every declarative match *)

Section MatcherComplete.

Lemma splits_complete p : forall w hi s,
  allOf p w -> (forall h, hi = Some h -> length w <= h) ->
  In (w, s) (splits p hi (w ++ s)).
Proof.
  induction w as [|x w IH]; intros hi s Hall Hhi.
  - destruct s; left; reflexivity.
  - inversion Hall as [|? ? Hx Hw]; subst. simpl. right. rewrite Hx.
    assert (Hstep : forall hi', In (w, s) (splits p hi' (w ++ s)) ->
              In (x :: w, s) (map (consFst x) (splits p hi' (w ++ s)))).
    { intros hi' H. apply in_map_iff. exists (w, s). split; [reflexivity|exact H]. }
    destruct hi as [[|h]|].
    + specialize (Hhi 0 eq_refl). simpl in Hhi. lia.
    + apply Hstep. apply IH; [assumption|].
      intros h0 E. inversion E; subst. specialize (Hhi (S h0) eq_refl).
      simpl in Hhi. lia.
    + apply Hstep. apply IH; [assumption|]. intros h0 E. discriminate.
Qed.

Lemma run_complete r b s c w s' c' :
  Matches r b s c w s' c' -> In (w, s', c') (run r b s c).
Proof.
  induction 1; simpl.
  - left; reflexivity.
  - left; reflexivity.
  - rewrite H. left; reflexivity.
  - apply in_map_iff. exists (w, s). split; [reflexivity|].
    assert (Hf : In (w, s) (filter (fun ws => lo <=? length (fst ws))
                              (splits p hi (w ++ s)))).
    { apply filter_In. split; [apply splits_complete; assumption|].
      simpl. apply Nat.leb_le. assumption. }
    destruct g; [apply -> in_rev|]; exact Hf.
  - apply in_flat_map. exists (w1, s1, c1). split; [assumption|].
    apply in_map_iff. exists (w2, s2, c2). split; [reflexivity|assumption].
  - apply in_or_app. left. assumption.
  - apply in_or_app. right. assumption.
  - apply in_or_app. left. apply filter_In. split; [assumption|].
    simpl. destruct w; [contradiction|reflexivity].
  - apply in_or_app. right. left. reflexivity.
  - apply in_map_iff. exists (w, s', c'). split; [reflexivity|assumption].
Qed.

End MatcherComplete.

(** * Further properties of the file selection *)

Section Extension.

Lemma extensionRe_matches ext b c :
  ext <> [] -> allOf extensionChar ext ->
  Matches extensionRe b (ch "." :: ext) c (ch "." :: ext) [] c.
Proof.
  intros Hne Hall. unfold extensionRe, seq, plus. cbn [fold_right].
  change (ch "." :: ext) with ([ch "."] ++ ext) at 2.
  eapply M_Cat; [apply M_Chr; reflexivity|].
  replace ext with (ext ++ []) at 2 by apply app_nil_r.
  eapply M_Cat; [|apply M_Eps].
  replace ext with (ext ++ []) at 1 by apply app_nil_r.
  apply M_Rep; [exact Hall| |intros h E; discriminate].
  destruct ext; [contradiction|simpl; lia].
Qed.

Lemma extensionRe_inv b s c w s' c' :
  Matches extensionRe b s c w s' c' ->
  exists ext, w = ch "." :: ext /\ ext <> [] /\ allOf extensionChar ext
              /\ s = w ++ s'.
Proof.
  intros H. pose proof (Matches_split _ _ _ _ _ _ _ H) as Hs.
  unfold extensionRe, seq, plus in H. cbn [fold_right] in H.
  minv. bounds.
  match goal with H : allOf _ ?e |- _ => exists e end.
  rewrite app_nil_r. splits; auto.
  intros ->. simpl in *. lia.
Qed.

Lemma execEndFrom_here r i s :
  (exists w c, Matches r (Nat.eqb i 0) s noCaptures w [] c) ->
  exists m, execEndFrom r i s = Some m /\ m_index m = i /\ m_rest m = [].
Proof.
  intros [w [c H]]. apply run_complete in H.
  assert (Hf : In (w, [], c)
                 (filter (fun o : outcome => isNil (snd (fst o)))
                    (run r (Nat.eqb i 0) s noCaptures))).
  { apply filter_In. split; [exact H|reflexivity]. }
  destruct (filter (fun o : outcome => isNil (snd (fst o)))
              (run r (Nat.eqb i 0) s noCaptures)) as [|[[w0 s0] c0] l] eqn:E;
    [contradiction|].
  assert (H0 : In (w0, s0, c0)
                 (filter (fun o : outcome => isNil (snd (fst o)))
                    (run r (Nat.eqb i 0) s noCaptures))).
  { rewrite E. left. reflexivity. }
  apply filter_In in H0. destruct H0 as [_ H0]. simpl in H0.
  destruct s0; [|discriminate].
  destruct s; simpl; rewrite E; eexists; splits; reflexivity.
Qed.

Lemma execEndFrom_skip r i x s :
  (forall w c, ~ Matches r (Nat.eqb i 0) (x :: s) noCaptures w [] c) ->
  execEndFrom r i (x :: s) = execEndFrom r (S i) s.
Proof.
  intros H. simpl.
  destruct (filter (fun o : outcome => isNil (snd (fst o)))
              (run r (Nat.eqb i 0) (x :: s) noCaptures)) as [|[[w0 s0] c0] l] eqn:E;
    [reflexivity|].
  assert (H0 : In (w0, s0, c0)
                 (filter (fun o : outcome => isNil (snd (fst o)))
                    (run r (Nat.eqb i 0) (x :: s) noCaptures))).
  { rewrite E. left. reflexivity. }
  apply filter_In in H0. destruct H0 as [H0 H1]. simpl in H1.
  destruct s0; [|discriminate].
  apply run_sound in H0. exfalso. exact (H _ _ H0).
Qed.

Lemma extensionChar_dot : extensionChar (ch ".") = false.
Proof. reflexivity. Qed.

Lemma execEndFrom_extension ext :
  ext <> [] -> allOf extensionChar ext ->
  forall base i, exists m,
    execEndFrom extensionRe i (base ++ ch "." :: ext) = Some m
    /\ m_index m = i + length base /\ m_rest m = [].
Proof.
  intros Hne Hall. induction base as [|x base IH]; intros i.
  - destruct (execEndFrom_here extensionRe i (ch "." :: ext)) as [m [E [Hi Hr]]].
    + exists (ch "." :: ext), noCaptures. apply extensionRe_matches; assumption.
    + exists m. simpl. splits; auto. lia.
  - cbn [app]. rewrite execEndFrom_skip.
    + destruct (IH (S i)) as [m [E [Hi Hr]]]. exists m. simpl. splits; auto. lia.
    + intros w c H. apply extensionRe_inv in H.
      destruct H as [e [-> [_ [He Hs]]]]. rewrite app_nil_r in Hs.
      inversion Hs; subst.
      assert (Hd : extensionChar (ch ".") = true).
      { unfold allOf in He. rewrite Forall_forall in He. apply He.
        apply in_or_app. right. left. reflexivity. }
      rewrite extensionChar_dot in Hd. discriminate.
Qed.

Lemma execEndFrom_dotless : forall s i,
  ~ In (ch ".") s -> execEndFrom extensionRe i s = None.
Proof.
  induction s as [|x s IH]; intros i H.
  - reflexivity.
  - rewrite execEndFrom_skip.
    + apply IH. intros Hin. apply H. right. exact Hin.
    + intros w c Hm. apply extensionRe_inv in Hm.
      destruct Hm as [e [-> [_ [_ Hs]]]]. inversion Hs; subst.
      apply H. left. reflexivity.
Qed.

Lemma splitOn_not_nil d s : splitOn d s <> [].
Proof.
  destruct s as [|c s]; simpl; [discriminate|].
  destruct (c =? d)%N; [discriminate|].
  destruct (splitOn d s); discriminate.
Qed.

Lemma splitOn_dotless d : forall s, ~ In d s -> splitOn d s = [s].
Proof.
  induction s as [|c s IH]; intros H; simpl; [reflexivity|].
  destruct (c =? d)%N eqn:E.
  - apply N.eqb_eq in E. subst. exfalso. apply H. left. reflexivity.
  - rewrite IH; [reflexivity|]. intros Hin. apply H. right. exact Hin.
Qed.

Lemma splitOn_two d b : forall a, exists l l' ls,
  splitOn d (a ++ d :: b) = l :: l' :: ls.
Proof.
  induction a as [|c a IH]; simpl.
  - rewrite N.eqb_refl. destruct (splitOn d b) as [|l' ls] eqn:E.
    + exfalso. exact (splitOn_not_nil _ _ E).
    + eauto.
  - destruct IH as [l [l' [ls E]]]. rewrite E.
    destruct (c =? d)%N; eauto.
Qed.

Lemma last_splitOn d ext : forall base,
  last (splitOn d (base ++ d :: ext)) [] = last (splitOn d ext) [].
Proof.
  induction base as [|c base IH]; simpl.
  - rewrite N.eqb_refl. destruct (splitOn d ext) eqn:E; [|reflexivity].
    exfalso. exact (splitOn_not_nil _ _ E).
  - destruct (splitOn_two d ext base) as [l [l' [ls E]]].
    rewrite E in IH. rewrite E. rewrite <- IH.
    destruct (c =? d)%N; reflexivity.
Qed.

End Extension.

(** X10: for a file name that ends in a dot followed by at least one
    character other than a dot or a slash, the stored title is the name
    before that last dot, and the extension that selects the parser is the
    text after it. *)
Theorem name_is_title_dot_extension (base ext : jsstring) :
  ext <> [] -> allOf extensionChar ext ->
  withoutExtension (base ++ ch "." :: ext) = base
  /\ last (splitOn (ch ".") (base ++ ch "." :: ext)) [] = ext.
Proof.
  intros Hne Hall. split.
  - unfold withoutExtension.
    destruct (execEndFrom_extension ext Hne Hall base 0) as [m [E [Hi Hr]]].
    rewrite E, Hi, Hr. simpl. rewrite app_nil_r.
    rewrite firstn_app, Nat.sub_diag, firstn_all. simpl. apply app_nil_r.
  - rewrite last_splitOn. rewrite splitOn_dotless; [reflexivity|].
    intros Hin. unfold allOf in Hall. rewrite Forall_forall in Hall.
    apply Hall in Hin. rewrite extensionChar_dot in Hin. discriminate.
Qed.

Lemma name_is_title_dot_extension_witness :
  withoutExtension (lit "2024.05.01 weekly.VTT") = lit "2024.05.01 weekly"
  /\ last (splitOn (ch ".") (lit "2024.05.01 weekly.VTT")) [] = lit "VTT".
Proof.
  apply (name_is_title_dot_extension (lit "2024.05.01 weekly") (lit "VTT")).
  - discriminate.
  - repeat constructor.
Defined.

(** X11: a file name without a dot is kept whole as the title, and is
    also taken whole as the extension that selects the parser. *)
Theorem dotless_name_is_its_own_extension (fileName : jsstring) :
  ~ In (ch ".") fileName ->
  withoutExtension fileName = fileName
  /\ last (splitOn (ch ".") fileName) [] = fileName.
Proof.
  intros H. split.
  - unfold withoutExtension. rewrite execEndFrom_dotless; auto.
  - rewrite splitOn_dotless; auto.
Qed.

Lemma dotless_name_is_its_own_extension_witness :
  withoutExtension (lit "vtt") = lit "vtt"
  /\ last (splitOn (ch ".") (lit "vtt")) [] = lit "vtt".
Proof.
  apply (dotless_name_is_its_own_extension (lit "vtt")).
  intros H. vm_compute in H. repeat (destruct H as [H|H]; [discriminate|]).
  contradiction.
Defined.

Section Selection.

Variable toLowerCase : jsstring -> jsstring.
Variable currentYear : N.

Lemma loaded_keeps parse f st :
  transcriptFileName (loaded parse f st) = transcriptFileName st
  /\ meetingDate (loaded parse f st) = meetingDate st.
Proof. unfold loaded. destruct (readText f); split; reflexivity. Qed.

Lemma handleFileSelect_name_and_date st f :
  exists st1 d,
    handleFileSelect toLowerCase currentYear st (Some f) = Return st1
    /\ extractDate currentYear (transcriptFileName st) = Return d
    /\ transcriptFileName st1 = withoutExtension (name f)
    /\ meetingDate st1 = orElse d [].
Proof.
  unfold handleFileSelect.
  destruct (extractDate_returns currentYear (transcriptFileName st)) as [d E].
  rewrite E. cbn [bind].
  repeat match goal with
  | |- context [if ?b then _ else _] => destruct b
  end;
  eexists; exists d; (split; [reflexivity|]); (split; [reflexivity|]);
  first [ apply loaded_keeps | split; reflexivity ].
Qed.

End Selection.

(** X12: selecting a file always succeeds, and the meeting date it sets
    is extracted from the title stored before the selection, not from the
    selected file's name: after two selections the date is that of the
    first file's name, while the title is that of the second. *)
Theorem meeting_date_follows_previous_file
  (toLowerCase : jsstring -> jsstring) (currentYear : N)
  (st : FileState) (f g : File) :
  exists st1 st2 d0 d1,
    handleFileSelect toLowerCase currentYear st (Some f) = Return st1
    /\ handleFileSelect toLowerCase currentYear st1 (Some g) = Return st2
    /\ extractDate currentYear (transcriptFileName st) = Return d0
    /\ extractDate currentYear (withoutExtension (name f)) = Return d1
    /\ meetingDate st1 = orElse d0 []
    /\ meetingDate st2 = orElse d1 []
    /\ transcriptFileName st2 = withoutExtension (name g).
Proof.
  destruct (handleFileSelect_name_and_date toLowerCase currentYear st f)
    as [st1 [d0 [E1 [D0 [N1 M1]]]]].
  destruct (handleFileSelect_name_and_date toLowerCase currentYear st1 g)
    as [st2 [d1 [E2 [D1 [N2 M2]]]]].
  rewrite N1 in D1.
  exists st1, st2, d0, d1. splits; assumption.
Qed.

(** X13: the first file selected after start-up gets its title but an
    empty meeting date, whatever its name. *)
Theorem first_selection_has_no_date
  (toLowerCase : jsstring -> jsstring) (currentYear : N) (f : File) :
  exists st1,
    handleFileSelect toLowerCase currentYear initialFileState (Some f)
    = Return st1
    /\ meetingDate st1 = []
    /\ transcriptFileName st1 = withoutExtension (name f).
Proof.
  destruct (handleFileSelect_name_and_date toLowerCase currentYear
              initialFileState f) as [st1 [d0 [E1 [D0 [N1 M1]]]]].
  exists st1. splits; auto.
  change (extractDate currentYear []) with (@Return (option jsstring) None) in D0.
  inversion D0; subst. exact M1.
Qed.

(** X14: once the selected file has been read, a transcript is reported
    exactly when the extension is one of [vtt], [txt] and [docx] and the
    text read is not empty, whether or not any utterance was parsed. *)
Theorem loaded_text_counts_as_transcript
  (toLowerCase : jsstring -> jsstring) (currentYear : N)
  (st st1 : FileState) (f : File) (fileText : jsstring) :
  readText f = Some fileText ->
  handleFileSelect toLowerCase currentYear st (Some f) = Return st1 ->
  hasTranscript st1
  = supported (toLowerCase (last (splitOn (ch ".") (name f)) []))
    && negb (isNil fileText).
Proof.
  intros Hr. unfold handleFileSelect, supported.
  destruct (extractDate_returns currentYear (transcriptFileName st)) as [d E].
  rewrite E. cbn [bind].
  assert (Hl : forall parse st0, parse [] = [] ->
            hasTranscript (loaded parse f st0) = negb (isNil fileText)).
  { intros parse st0 Hp. unfold loaded. rewrite Hr. unfold hasTranscript.
    cbn [transcript rawTranscriptText].
    destruct fileText; [rewrite Hp; reflexivity|apply orb_true_r]. }
  repeat match goal with
  | |- context [if ?b then _ else _] => destruct b
  end;
  intros H; inversion H; subst st1; cbn [orb andb];
  first [ apply Hl; reflexivity | reflexivity ].
Qed.

Lemma loaded_text_counts_as_transcript_witness :
  hasTranscript
    {| selectedFile := Some {| name := lit "call.vtt";
                               readText := Some (lit "WEBVTT") |};
       transcriptFileName := lit "call";
       meetingDate := [];
       transcript := [];
       rawTranscriptText := lit "WEBVTT" |}
  = supported (last (splitOn (ch ".") (lit "call.vtt")) [])
    && negb (isNil (lit "WEBVTT")).
Proof.
  apply (loaded_text_counts_as_transcript (fun s => s) 2026 initialFileState
           _ {| name := lit "call.vtt"; readText := Some (lit "WEBVTT") |}
           (lit "WEBVTT")); reflexivity.
Defined.

(** * Further properties of the thinking blocks *)

Section ThinkPattern.

Lemma startsWith_skipn : forall pat s,
  startsWith pat s = true -> s = pat ++ skipn (length pat) s.
Proof.
  induction pat as [|p pat IH]; intros s H; [reflexivity|].
  destruct s as [|x s]; [discriminate|]. simpl in H.
  apply andb_true_iff in H. destruct H as [E H]. apply N.eqb_eq in E. subst.
  simpl. f_equal. apply IH. exact H.
Qed.

Lemma findFirst_split pat : forall s a b,
  findFirst pat s = Some (a, b) -> s = a ++ pat ++ b.
Proof.
  induction s as [|x s IH]; intros a b H.
  - simpl in H. destruct (startsWith pat []) eqn:E; [|discriminate].
    inversion H; subst. apply startsWith_skipn in E. exact E.
  - simpl in H. destruct (startsWith pat (x :: s)) eqn:E.
    + inversion H; subst. apply startsWith_skipn in E. exact E.
    + destruct (findFirst pat s) as [[a' b']|] eqn:F; [|discriminate].
      inversion H; subst. simpl. f_equal. apply IH. reflexivity.
Qed.

Lemma findFirst_none_tail pat x s :
  findFirst pat (x :: s) = None -> findFirst pat s = None.
Proof.
  simpl. destruct (startsWith pat (x :: s)); [discriminate|].
  destruct (findFirst pat s); [discriminate|reflexivity].
Qed.

Lemma findFirst_none_skipn pat : forall n s,
  findFirst pat s = None -> findFirst pat (skipn n s) = None.
Proof.
  induction n as [|n IH]; intros s H; [exact H|].
  destruct s as [|x s]; [exact H|]. simpl. apply IH.
  apply findFirst_none_tail with x. exact H.
Qed.

Lemma run_Str : forall pat b s c,
  run (Str pat) b s c
  = if startsWith pat s then [(pat, skipn (length pat) s, c)] else [].
Proof.
  induction pat as [|p pat IH]; intros b s c; [reflexivity|].
  destruct s as [|x s]; [reflexivity|].
  cbn [Str fold_right run startsWith]. fold (Str pat).
  unfold isChar. rewrite (N.eqb_sym p x).
  destruct (x =? p)%N eqn:E; [|reflexivity].
  apply N.eqb_eq in E. subst x.
  cbn [flat_map]. rewrite IH.
  destruct (startsWith pat s); reflexivity.
Qed.

Lemma flat_map_map {A B C} (f : B -> list C) (g : A -> B) l :
  flat_map f (map g l) = flat_map (fun x => f (g x)) l.
Proof.
  induction l as [|a l IH]; simpl; [reflexivity|]. rewrite IH. reflexivity.
Qed.

Lemma filter_all {A} (f : A -> bool) l :
  (forall x, f x = true) -> filter f l = l.
Proof.
  intros H. induction l as [|a l IH]; simpl; [reflexivity|].
  rewrite H, IH. reflexivity.
Qed.

(** The pattern [open R close], where [R] is a lazy run of any characters
    that sets the captures by [k]. *)
Variable R : regex.
Variable k : jsstring -> captures -> captures.
Hypothesis run_R : forall b s c,
  run R b s c = map (fun ws => (fst ws, snd ws, k (fst ws) c))
                  (splits anyChar None s).

Variables opening closing : jsstring.

Lemma lazy_head c : forall s pre,
  hd_error
    (flat_map (fun ws : jsstring * jsstring =>
       if startsWith closing (snd ws)
       then [((pre ++ fst ws) ++ closing, skipn (length closing) (snd ws),
              k (pre ++ fst ws) c)]
       else [])
      (splits anyChar None s))
  = option_map (fun ab : jsstring * jsstring =>
                  ((pre ++ fst ab) ++ closing, snd ab, k (pre ++ fst ab) c))
      (findFirst closing s).
Proof.
  induction s as [|x s IH]; intros pre.
  - simpl. destruct (startsWith closing []); reflexivity.
  - cbn [splits anyChar flat_map findFirst fst snd].
    destruct (startsWith closing (x :: s)) eqn:E; [reflexivity|].
    cbn [app]. rewrite flat_map_map.
    rewrite (flat_map_ext _
      (fun ws : jsstring * jsstring =>
         if startsWith closing (snd ws)
         then [(((pre ++ [x]) ++ fst ws) ++ closing,
                skipn (length closing) (snd ws), k ((pre ++ [x]) ++ fst ws) c)]
         else [])).
    + rewrite IH. destruct (findFirst closing s) as [[a b]|]; [|reflexivity].
      simpl. rewrite <- !app_assoc. reflexivity.
    + intros [w t]. simpl. rewrite <- !app_assoc. reflexivity.
Qed.

Lemma run_Str_end pat b s c :
  run (Cat (Str pat) Eps) b s c
  = if startsWith pat s then [(pat, skipn (length pat) s, c)] else [].
Proof.
  cbn [run]. rewrite run_Str. destruct (startsWith pat s); [|reflexivity].
  simpl. rewrite app_nil_r. reflexivity.
Qed.

Lemma hd_error_map {A B} (f : A -> B) l :
  hd_error (map f l) = option_map f (hd_error l).
Proof. destruct l; reflexivity. Qed.

Lemma block_head b s c :
  hd_error (run (seq [Str opening; R; Str closing]) b s c)
  = if startsWith opening s
    then option_map (fun ab : jsstring * jsstring =>
                       (opening ++ fst ab ++ closing, snd ab, k (fst ab) c))
           (findFirst closing (skipn (length opening) s))
    else None.
Proof.
  unfold seq. cbn [fold_right]. cbn [run]. rewrite run_Str.
  destruct (startsWith opening s); [|reflexivity].
  cbn [flat_map]. rewrite app_nil_r. rewrite hd_error_map.
  rewrite run_R, flat_map_map.
  rewrite (flat_map_ext _
    (fun ws : jsstring * jsstring =>
       if startsWith closing (snd ws)
       then [(([] ++ fst ws) ++ closing, skipn (length closing) (snd ws),
              k ([] ++ fst ws) c)]
       else [])).
  - rewrite lazy_head.
    destruct (findFirst closing (skipn (length opening) s)) as [[a b']|];
      reflexivity.
  - intros [w t]. cbn [fst snd app].
    change (flat_map _ (run (Str closing) ?b ?t ?c))
      with (run (Cat (Str closing) Eps) b t c).
    rewrite run_Str_end. destruct (startsWith closing t); reflexivity.
Qed.

End ThinkPattern.

Section ThinkBlocks.

Lemma run_lazy_any b s c :
  run (Rep anyChar 0 None false) b s c
  = map (fun ws => (fst ws, snd ws, (fun (_ : jsstring) c => c) (fst ws) c))
      (splits anyChar None s).
Proof. cbn [run]. rewrite filter_all; reflexivity. Qed.

Lemma run_lazy_group b s c :
  run (Grp 1 (Rep anyChar 0 None false)) b s c
  = map (fun ws => (fst ws, snd ws, upd 1 (fst ws) c)) (splits anyChar None s).
Proof.
  cbn [run]. rewrite filter_all by reflexivity. rewrite map_map. reflexivity.
Qed.

Lemma strip_head b s :
  hd_error (run thinkStripRe b s noCaptures)
  = if startsWith thinkOpen s
    then option_map (fun ab : jsstring * jsstring =>
                       (thinkOpen ++ fst ab ++ thinkClose, snd ab, noCaptures))
           (findFirst thinkClose (skipn (length thinkOpen) s))
    else None.
Proof.
  exact (block_head _ _ run_lazy_any thinkOpen thinkClose b s noCaptures).
Qed.

Lemma think_head b s :
  hd_error (run thinkRegex b s noCaptures)
  = if startsWith thinkOpen s
    then option_map (fun ab : jsstring * jsstring =>
                       (thinkOpen ++ fst ab ++ thinkClose, snd ab,
                        upd 1 (fst ab) noCaptures))
           (findFirst thinkClose (skipn (length thinkOpen) s))
    else None.
Proof.
  exact (block_head _ _ run_lazy_group thinkOpen thinkClose b s noCaptures).
Qed.

Lemma replaceAllFrom_step r b x s' :
  replaceAllFrom r b 0 (x :: s')
  = match hd_error (run r b (x :: s') noCaptures) with
    | Some (_ :: w, _, _) => replaceAllFrom r false (length w) s'
    | _ => x :: replaceAllFrom r false 0 s'
    end.
Proof.
  cbn [replaceAllFrom].
  destruct (run r b (x :: s') noCaptures) as [|[[[|y w] t] c] l]; reflexivity.
Qed.

Lemma replaceAllFrom_skip r : forall w b t,
  replaceAllFrom r b (length w) (w ++ t) = replaceAllFrom r (b && isNil w) 0 t.
Proof.
  induction w as [|x w IH]; intros b t.
  - simpl. rewrite andb_true_r. reflexivity.
  - simpl. rewrite IH. simpl. rewrite andb_false_r. reflexivity.
Qed.

Lemma skipn_length_app {A} (a b : list A) : skipn (length a) (a ++ b) = b.
Proof. induction a; simpl; auto. Qed.

Lemma opening_cons : thinkOpen = ch "<" :: lit "think>".
Proof. reflexivity. Qed.

Lemma findFirst_nil_opening : findFirst thinkOpen [] = None.
Proof. reflexivity. Qed.

(** After an thinkOpen tag at the front of [x :: s'], a thinkClose tag missing
    behind it is missing behind every later thinkOpen tag. *)
Lemma closing_missing_later x s' pre' rest' :
  findFirst thinkClose (skipn (length thinkOpen) (x :: s')) = None ->
  findFirst thinkOpen s' = Some (pre', rest') ->
  findFirst thinkClose rest' = None.
Proof.
  intros Hc Ho. apply findFirst_split in Ho.
  assert (E : rest' = skipn (length pre' + 1)
                        (skipn (length thinkOpen) (x :: s'))).
  { change (skipn (length thinkOpen) (x :: s')) with (skipn 6 s').
    rewrite skipn_skipn.
    replace (length pre' + 1 + 6) with (length (pre' ++ thinkOpen))
      by (rewrite length_app; change (length thinkOpen) with 7; lia).
    rewrite Ho. rewrite app_assoc. symmetry. apply skipn_length_app. }
  rewrite E. apply findFirst_none_skipn. exact Hc.
Qed.

Lemma strip_unfold : forall s b,
  replaceAllFrom thinkStripRe b 0 s
  = match findFirst thinkOpen s with
    | None => s
    | Some (pre, rest) =>
      match findFirst thinkClose rest with
      | None => s
      | Some (body, post) => pre ++ replaceAllFrom thinkStripRe false 0 post
      end
    end.
Proof.
  induction s as [|x s' IH]; intros b; [reflexivity|].
  rewrite replaceAllFrom_step, strip_head. cbn [findFirst].
  destruct (startsWith thinkOpen (x :: s')) eqn:Es.
  - destruct (findFirst thinkClose (skipn (length thinkOpen) (x :: s')))
      as [[body post]|] eqn:Ec; cbn [option_map fst snd].
    + rewrite opening_cons. cbn [app].
      apply startsWith_skipn in Es. apply findFirst_split in Ec.
      rewrite Ec in Es. rewrite opening_cons in Es. cbn [app] in Es.
      apply (f_equal (@tl _)) in Es. cbn [tl] in Es. rewrite Es.
      replace (lit "think>" ++ body ++ thinkClose ++ post)
        with ((lit "think>" ++ body ++ thinkClose) ++ post)
        by (rewrite <- !app_assoc; reflexivity).
      rewrite replaceAllFrom_skip. reflexivity.
    + f_equal. rewrite IH.
      destruct (findFirst thinkOpen s') as [[pre' rest']|] eqn:Eo; [|reflexivity].
      rewrite (closing_missing_later x s' pre' rest' Ec Eo). reflexivity.
  - rewrite IH.
    destruct (findFirst thinkOpen s') as [[pre' rest']|]; [|reflexivity].
    cbn [option_map consFst fst snd].
    destruct (findFirst thinkClose rest') as [[body post]|]; reflexivity.
Qed.

End ThinkBlocks.

(** X15: the replacement of [handleDownloadMarkdown] removes the text from
    the first [<think>] to the first [</think>] behind it and goes on
    behind that closing tag; a content without [<think>], or without
    [</think>] behind the first [<think>], is left as it is. *)
Theorem think_strip_unfold (markdownContent : jsstring) :
  replaceAll thinkStripRe markdownContent
  = match findFirst (lit "<think>") markdownContent with
    | None => markdownContent
    | Some (pre, rest) =>
      match findFirst (lit "</think>") rest with
      | None => markdownContent
      | Some (body, post) => pre ++ replaceAll thinkStripRe post
      end
    end.
Proof.
  unfold replaceAll. rewrite strip_unfold. fold thinkOpen. fold thinkClose.
  destruct (findFirst thinkOpen markdownContent) as [[pre rest]|]; [|reflexivity].
  destruct (findFirst thinkClose rest) as [[body post]|]; [|reflexivity].
  f_equal. rewrite (strip_unfold post false), (strip_unfold post true).
  reflexivity.
Qed.

Section ThinkScan.

Lemma thinkScan_step b x s' i acc :
  thinkScan 0 b (x :: s') i acc
  = match hd_error (run thinkRegex b (x :: s') noCaptures) with
    | Some (y :: w, _, c) =>
      thinkScan (length w) false s' (S i)
        (removeFirst (y :: w) (fst acc), snd acc ++ [blockAt i (str (c 1))])
    | _ => thinkScan 0 false s' i acc
    end.
Proof.
  cbn [thinkScan].
  destruct (run thinkRegex b (x :: s') noCaptures) as [|[[[|y w] t] c] l];
    reflexivity.
Qed.

Lemma thinkScan_skip : forall w b t i acc,
  thinkScan (length w) b (w ++ t) i acc = thinkScan 0 (b && isNil w) t i acc.
Proof.
  induction w as [|x w IH]; intros b t i acc.
  - simpl. rewrite andb_true_r. reflexivity.
  - simpl. rewrite IH. simpl. rewrite andb_false_r. reflexivity.
Qed.

Lemma thinkScan_bol : forall s b b' i acc,
  thinkScan 0 b s i acc = thinkScan 0 b' s i acc.
Proof.
  destruct s as [|x s']; intros; [reflexivity|].
  rewrite !thinkScan_step, !think_head. reflexivity.
Qed.

Lemma scan_unfold : forall s b i acc,
  thinkScan 0 b s i acc
  = match findFirst thinkOpen s with
    | None => acc
    | Some (pre, rest) =>
      match findFirst thinkClose rest with
      | None => acc
      | Some (body, post) =>
        thinkScan 0 false post (S i)
          (removeFirst (thinkOpen ++ body ++ thinkClose) (fst acc),
           snd acc ++ [blockAt i body])
      end
    end.
Proof.
  induction s as [|x s' IH]; intros b i acc; [reflexivity|].
  rewrite thinkScan_step, think_head. cbn [findFirst].
  destruct (startsWith thinkOpen (x :: s')) eqn:Es.
  - destruct (findFirst thinkClose (skipn (length thinkOpen) (x :: s')))
      as [[body post]|] eqn:Ec; cbn [option_map fst snd].
    + rewrite opening_cons. cbn [app].
      apply startsWith_skipn in Es. apply findFirst_split in Ec.
      rewrite Ec in Es. rewrite opening_cons in Es. cbn [app] in Es.
      apply (f_equal (@tl _)) in Es. cbn [tl] in Es. rewrite Es.
      replace (lit "think>" ++ body ++ thinkClose ++ post)
        with ((lit "think>" ++ body ++ thinkClose) ++ post)
        by (rewrite <- !app_assoc; reflexivity).
      rewrite thinkScan_skip. reflexivity.
    + rewrite IH.
      destruct (findFirst thinkOpen s') as [[pre' rest']|] eqn:Eo; [|reflexivity].
      rewrite (closing_missing_later x s' pre' rest' Ec Eo). reflexivity.
  - rewrite IH.
    destruct (findFirst thinkOpen s') as [[pre' rest']|]; [|reflexivity].
    cbn [option_map consFst fst snd].
    destruct (findFirst thinkClose rest') as [[body post]|]; reflexivity.
Qed.

(** The contents of the blocks found do not depend on the index or on the
    cleaned content so far. *)
Lemma scan_contents : forall s k b i acc b' i' acc',
  snd acc' = [] ->
  map Think.content (snd (thinkScan k b s i acc))
  = map Think.content (snd acc)
    ++ map Think.content (snd (thinkScan k b' s i' acc')).
Proof.
  induction s as [|x s' IH]; intros k b i acc b' i' acc' Hn.
  - simpl. rewrite Hn. simpl. rewrite app_nil_r. reflexivity.
  - destruct k as [|k].
    + rewrite !thinkScan_step, !think_head.
      destruct (startsWith thinkOpen (x :: s'));
        [|apply IH; exact Hn].
      destruct (findFirst thinkClose (skipn (length thinkOpen) (x :: s')))
        as [[body post]|]; cbn [option_map fst snd]; [|apply IH; exact Hn].
      rewrite opening_cons. cbn [app].
      rewrite (IH _ false (S i) _ false 0 ([], [])) by reflexivity.
      rewrite (IH _ false (S i') _ false 0 ([], [])) by reflexivity.
      cbn [snd]. rewrite Hn. rewrite !map_app. cbn [app map].
      rewrite <- app_assoc. reflexivity.
    + cbn [thinkScan]. apply IH. exact Hn.
Qed.

(** The identifiers of the blocks count up from zero. *)
Lemma scan_ids : forall s k b i acc,
  length (snd acc) = i ->
  map Think.id (snd acc) = map (fun j => Think.id (blockAt j [])) (List.seq 0 i) ->
  map Think.id (snd (thinkScan k b s i acc))
  = map (fun j => Think.id (blockAt j []))
      (List.seq 0 (length (snd (thinkScan k b s i acc)))).
Proof.
  induction s as [|x s' IH]; intros k b i acc Hl Hi.
  - simpl. rewrite Hl. exact Hi.
  - destruct k as [|k].
    + rewrite thinkScan_step.
      destruct (hd_error (run thinkRegex b (x :: s') noCaptures))
        as [[[[|y w] t] c]|]; try (apply IH; assumption).
      apply IH; cbn [snd].
      * rewrite length_app, Hl. simpl. lia.
      * rewrite map_app, Hi, seq_S, map_app. reflexivity.
    + cbn [thinkScan]. apply IH; assumption.
Qed.

Lemma startsWith_app_true : forall pat t, startsWith pat (pat ++ t) = true.
Proof.
  induction pat as [|p pat IH]; intros t; [reflexivity|].
  simpl. rewrite N.eqb_refl. apply IH.
Qed.

Lemma startsWith_app_false : forall pat tail s,
  startsWith pat s = false -> startsWith (pat ++ tail) s = false.
Proof.
  induction pat as [|p pat IH]; intros tail s H; [discriminate|].
  destruct s as [|x s]; [reflexivity|]. simpl in *.
  destruct (p =? x)%N; [|reflexivity]. simpl in *. apply IH. exact H.
Qed.

Lemma removeFirst_here pat s :
  startsWith pat s = true -> removeFirst pat s = skipn (length pat) s.
Proof. intros H. destruct s; simpl; rewrite H; reflexivity. Qed.

(** Removing a string that begins with [pat] at the first occurrence of
    [pat] *)
Lemma removeFirst_at pat tail b : forall s pre rest,
  findFirst pat s = Some (pre, rest) -> rest = tail ++ b ->
  removeFirst (pat ++ tail) s = pre ++ b.
Proof.
  induction s as [|x s IH]; intros pre rest H Hr.
  - simpl in H. destruct pat; simpl in H; [|discriminate].
    inversion H; subst pre rest.
    destruct tail; [|discriminate]. destruct b; [|discriminate]. reflexivity.
  - cbn [findFirst] in H. destruct (startsWith pat (x :: s)) eqn:E.
    + inversion H as [[Hp Hs]]. apply startsWith_skipn in E.
      rewrite Hs, Hr in E. rewrite E, app_assoc.
      rewrite removeFirst_here by apply startsWith_app_true.
      rewrite skipn_length_app. reflexivity.
    + destruct (findFirst pat s) as [[pre' rest']|] eqn:F; [|discriminate].
      inversion H; subst pre rest. cbn [removeFirst].
      rewrite (startsWith_app_false _ _ _ E). cbn [consFst fst app]. f_equal.
      apply IH with rest'; auto.
Qed.

End ThinkScan.

(** X16: [extractThinkBlocks] finds no block and leaves the content as it
    is when there is no [<think>], or no [</think>] behind the first
    [<think>]; otherwise the first block holds the text between the first
    [<think>] and the first [</think>] behind it, and the further blocks
    are those of the text behind that closing tag. *)
Theorem think_blocks_unfold (content : jsstring) :
  match findFirst (lit "<think>") content with
  | None => extractThinkBlocks content = (content, [])
  | Some (pre, rest) =>
    match findFirst (lit "</think>") rest with
    | None => extractThinkBlocks content = (content, [])
    | Some (body, post) =>
      map Think.content (snd (extractThinkBlocks content))
      = body :: map Think.content (snd (extractThinkBlocks post))
    end
  end.
Proof.
  unfold extractThinkBlocks. rewrite scan_unfold. fold thinkOpen. fold thinkClose.
  destruct (findFirst thinkOpen content) as [[pre rest]|]; [|reflexivity].
  destruct (findFirst thinkClose rest) as [[body post]|]; [|reflexivity].
  rewrite (scan_contents post 0 false 1 _ true 0 (post, [])) by reflexivity.
  reflexivity.
Qed.

(** X17: the identifiers of the extracted blocks are [think-block-0],
    [think-block-1], ... in the order of the blocks. *)
Theorem think_block_ids (content : jsstring) :
  map Think.id (snd (extractThinkBlocks content))
  = map (fun index => lit "think-block-" ++ ofNumber (N.of_nat index))
      (List.seq 0 (length (snd (extractThinkBlocks content)))).
Proof.
  unfold extractThinkBlocks.
  apply (scan_ids content 0 true 0 (content, [])); reflexivity.
Qed.

(** X18: for a content with one thinking block, the cleaned content is
    the text around the block, the block list holds its text under
    [think-block-0], and the download is the trimmed text around the
    block. *)
Theorem single_think_block (content pre rest body post : jsstring) :
  findFirst (lit "<think>") content = Some (pre, rest) ->
  findFirst (lit "</think>") rest = Some (body, post) ->
  findFirst (lit "<think>") post = None ->
  extractThinkBlocks content
  = (pre ++ post,
     [{| Think.id := lit "think-block-0"; Think.content := body |}])
  /\ formattedMarkdown content = Some (trim (pre ++ post)).
Proof.
  intros Ho Hc Hn. split.
  - unfold extractThinkBlocks. rewrite scan_unfold. fold thinkOpen thinkClose.
    fold thinkOpen in Ho, Hn. fold thinkClose in Hc.
    rewrite Ho, Hc. rewrite scan_unfold, Hn. cbn [fst snd app].
    rewrite (removeFirst_at thinkOpen (body ++ thinkClose) post content pre rest Ho).
    + reflexivity.
    + rewrite <- app_assoc. apply findFirst_split in Hc. exact Hc.
  - unfold formattedMarkdown.
    assert (Hne : isNil content = false).
    { destruct content; [discriminate|reflexivity]. }
    rewrite Hne. unfold replaceAll. rewrite strip_unfold.
    fold thinkOpen in Ho, Hn. fold thinkClose in Hc.
    rewrite Ho, Hc, strip_unfold, Hn. reflexivity.
Qed.

Lemma single_think_block_witness :
  extractThinkBlocks (lit "# Minutes <think>plan</think> done")
  = (lit "# Minutes  done",
     [{| Think.id := lit "think-block-0"; Think.content := lit "plan" |}])
  /\ formattedMarkdown (lit "# Minutes <think>plan</think> done")
     = Some (trim (lit "# Minutes  done")).
Proof.
  apply (single_think_block (lit "# Minutes <think>plan</think> done")
           (lit "# Minutes ") (lit "plan</think> done") (lit "plan")
           (lit " done")); reflexivity.
Defined.

(** * Further lemmas on the caption loop and the date patterns *)

Section CaptionLoop.

(** A line that is not taken as a cue line is passed over. *)
Lemma vttLoop_skip raw lines acc :
  cueOf raw = None -> vttLoop (raw :: lines) acc = vttLoop lines acc.
Proof.
  unfold cueOf. cbn [vttLoop]. destruct (includes arrow (trim raw)); [|reflexivity].
  destruct (exec cueRe (trim raw)); [discriminate|reflexivity].
Qed.

Lemma vttLoop_gap gap lines acc :
  Forall (fun g => cueOf g = None) gap ->
  vttLoop (gap ++ lines) acc = vttLoop lines acc.
Proof.
  induction 1 as [|g gap Hg _ IH]; [reflexivity|].
  cbn [app]. rewrite (vttLoop_skip _ _ _ Hg). exact IH.
Qed.

(** The main loop passes over the header lines by itself. *)
Lemma vttLoop_skipHeader lines acc :
  vttLoop (skipHeader lines) acc = vttLoop lines acc.
Proof.
  induction lines as [|l lines IH]; [reflexivity|].
  cbn [skipHeader]. destruct (includes arrow l) eqn:E; [reflexivity|].
  rewrite IH. symmetry. apply vttLoop_skip.
  unfold cueOf. rewrite includes_arrow_trim, E. reflexivity.
Qed.

Lemma pushCue_length acc sp st et tx :
  length acc <= length (pushCue acc sp st et tx)
  /\ 1 <= length (pushCue acc sp st et tx).
Proof.
  destruct (pushCue_cases acc sp st et tx)
    as [[init [e [-> [_ ->]]]]|[_ ->]]; rewrite !length_app; simpl; lia.
Qed.

Lemma vttLoop_mono lines acc : length acc <= length (vttLoop lines acc).
Proof.
  apply (vttLoop_invariant (fun r => length acc <= length r))
    with (n := length lines); [|lia|lia].
  intros a sp st et tx H.
  pose proof (pushCue_length a sp st et tx). lia.
Qed.

(** A cue line that has a line after it gives an utterance. *)
Lemma cue_gives_entry : forall pre l p post acc,
  cueOf l <> None -> 1 <= length (vttLoop (pre ++ l :: p :: post) acc).
Proof.
  induction pre as [|x pre IH]; intros l p post acc Hl.
  - cbn [app]. destruct (cueOf l) as [[st et]|] eqn:E; [|contradiction].
    rewrite (vttLoop_cue _ _ _ _ _ _ E).
    pose proof (vttLoop_mono post
      (pushCue acc (fst (cuePayload (trim p))) st et
         (snd (cuePayload (trim p))))).
    pose proof (pushCue_length acc (fst (cuePayload (trim p))) st et
                  (snd (cuePayload (trim p)))). lia.
  - cbn [app]. destruct (cueOf x) as [[st et]|] eqn:E.
    + destruct pre as [|y pre]; cbn [app];
        rewrite (vttLoop_cue _ _ _ _ _ _ E);
        match goal with
        | |- 1 <= length (vttLoop ?ls (pushCue ?a ?sp ?s ?e ?t)) =>
          pose proof (vttLoop_mono ls (pushCue a sp s e t));
          pose proof (pushCue_length a sp s e t); lia
        end.
    + rewrite (vttLoop_skip _ _ _ E). apply IH. exact Hl.
Qed.

(** Without such a line the loop adds nothing. *)
Lemma no_cue_no_entry : forall lines acc,
  (forall pre l p post, lines = pre ++ l :: p :: post -> cueOf l = None) ->
  vttLoop lines acc = acc.
Proof.
  induction lines as [|x lines IH]; intros acc H; [reflexivity|].
  destruct (cueOf x) as [[st et]|] eqn:E.
  - destruct lines as [|p post].
    + unfold cueOf in E. cbn [vttLoop].
      destruct (includes arrow (trim x)); [|reflexivity].
      destruct (exec cueRe (trim x)); reflexivity.
    + rewrite (H [] x p post eq_refl) in E. discriminate.
  - rewrite (vttLoop_skip _ _ _ E). apply IH.
    intros pre l p post ->. apply (H (x :: pre) l p post). reflexivity.
Qed.

Lemma cue_line_dec : forall lines,
  (exists pre l p post, lines = pre ++ l :: p :: post /\ cueOf l <> None)
  \/ (forall pre l p post, lines = pre ++ l :: p :: post -> cueOf l = None).
Proof.
  induction lines as [|x lines IH].
  - right. intros [|y pre] l p post H; discriminate.
  - destruct IH as [[pre [l [p [post [-> Hl]]]]]|IH].
    + left. exists (x :: pre), l, p, post. split; [reflexivity|exact Hl].
    + destruct (cueOf x) as [c|] eqn:E.
      * destruct lines as [|p post].
        -- right. intros [|y [|z pre]] l p post H; discriminate.
        -- left. exists [], x, p, post. split; [reflexivity|].
           rewrite E. discriminate.
      * right. intros [|y pre] l p post H; inversion H; subst.
        -- exact E.
        -- apply (IH pre l p post). reflexivity.
Qed.

Lemma caption_entry_iff text :
  1 <= length (parseVttFile text)
  <-> exists pre l p post,
        splitLines text = pre ++ l :: p :: post /\ cueOf l <> None.
Proof.
  unfold parseVttFile. rewrite vttLoop_skipHeader. split.
  - intros H. destruct (cue_line_dec (splitLines text)) as [E|N]; [exact E|].
    rewrite (no_cue_no_entry _ [] N) in H. simpl in H. lia.
  - intros [pre [l [p [post [-> Hl]]]]]. apply cue_gives_entry. exact Hl.
Qed.

Lemma notCue_gap gap lines acc :
  forallb notCue gap = true -> vttLoop (gap ++ lines) acc = vttLoop lines acc.
Proof.
  intros H. apply vttLoop_gap. apply Forall_forall. intros g Hg.
  rewrite forallb_forall in H. specialize (H g Hg). unfold notCue in H.
  destruct (cueOf g); [discriminate|reflexivity].
Qed.

Lemma txtLoop_snoc before :
  before <> [] -> exists acc last, fold_left txtStep before [] = acc ++ [last].
Proof.
  intros H. destruct before as [|l ls]; [contradiction|]. simpl.
  pose proof (txtLoop_length ls (txtStep [] l)) as H1.
  pose proof (txtStep_nonempty [] l) as H2.
  destruct (snoc_cases (fold_left txtStep ls (txtStep [] l)))
    as [E|[acc [last E]]]; [rewrite E in H1; simpl in H1; lia|].
  exists acc, last. exact E.
Qed.

End CaptionLoop.

Section DateForms.

Lemma Matches_Str_inv : forall s b x c w x' c',
  Matches (Str s) b x c w x' c' -> w = s /\ c' = c.
Proof.
  induction s as [|p s IH]; intros b x c w x' c' H.
  - apply Matches_Eps_inv in H. destruct H as [-> [_ ->]]. auto.
  - cbn [Str fold_right] in H. fold (Str s) in H.
    apply Matches_Cat_inv in H.
    destruct H as [w1 [s1 [c1 [w2 [H1 [H2 ->]]]]]].
    apply IH in H2. destruct H2 as [-> ->].
    inversion H1; subst. unfold isChar in *.
    match goal with E : (_ =? _)%N = true |- _ => apply N.eqb_eq in E; subst end.
    auto.
Qed.

Ltac strInv :=
  repeat match goal with
  | H : Matches (Str _) _ _ _ _ _ _ |- _ =>
    apply Matches_Str_inv in H; destruct H as [? ?]; subst
  end.

Ltac formInv E :=
  apply exec_sound in E;
  let pre := fresh "pre" in let w := fresh "w" in let c := fresh "c" in
  let Hs := fresh "Hs" in let Hi := fresh "Hi" in
  let Hm := fresh "Hm" in let Hg := fresh "Hg" in
  destruct E as [pre [w [c [Hs [Hi [Hm Hg]]]]]];
  cbv [ymdRe yyyymmddRe kanjiYmdRe yymmddRe mdRe kanjiMdRe seq digits] in Hm;
  cbn [fold_right] in Hm; minv; strInv; bounds;
  rewrite ?app_nil_r in *;
  exists pre.

Lemma isDigits_of p lo hi :
  allOf digit p -> lo <= length p -> length p <= hi -> isDigits lo hi p.
Proof. unfold isDigits. auto. Qed.

Ltac formOk :=
  match goal with
  | Hg : m_groups _ = upd 0 _ (upd 3 ?d (upd 2 ?mo (upd 1 ?y _))) |- _ =>
    exists y, mo, d
  | Hg : m_groups _ = upd 0 _ (upd 2 ?d (upd 1 ?mo _)) |- _ =>
    exists [], mo, d
  end;
  cbn [formText formDigits formGroups]; splits;
  try (apply isDigits_of; assumption);
  try reflexivity; try assumption;
  try (match goal with Hg : m_groups _ = _ |- _ => rewrite Hg; reflexivity end);
  match goal with
  | H : _ = _ ++ m_rest _ |- _ =>
    rewrite H; rewrite ?app_nil_r, <- ?app_assoc; reflexivity
  end.

Lemma ymdRe_form sep :
  matchesForm (ymdRe sep) (YearMonthDay (lit sep) (lit sep) []).
Proof. intros s m E. formInv E. formOk. Qed.

Lemma yyyymmddRe_form : matchesForm yyyymmddRe EightDigits.
Proof. intros s m E. formInv E. formOk. Qed.

Lemma kanjiYmdRe_form :
  matchesForm kanjiYmdRe (YearMonthDay (lit "年") (lit "月") (lit "日")).
Proof. intros s m E. formInv E. formOk. Qed.

Lemma yymmddRe_form : matchesForm yymmddRe SixDigits.
Proof. intros s m E. formInv E. formOk. Qed.

Lemma mdRe_form sep : matchesForm (mdRe sep) (MonthDay (lit sep) []).
Proof. intros s m E. formInv E. formOk. Qed.

Lemma kanjiMdRe_form : matchesForm kanjiMdRe (MonthDay (lit "月") (lit "日")).
Proof. intros s m E. formInv E. formOk. Qed.

Lemma dateForms_match :
  Forall (fun p => matchesForm (fst p) (snd p)) dateForms.
Proof.
  repeat constructor; cbn [fst snd];
    first [ apply ymdRe_form | apply yyyymmddRe_form | apply kanjiYmdRe_form
          | apply yymmddRe_form | apply mdRe_form | apply kanjiMdRe_form ].
Qed.

(** What [extractDate] returns at a match of a pattern of the form *)
Lemma formatted_date form currentYear m y mo d :
  formGroups form (m_groups m) y mo d ->
  match form with
  | YearMonthDay _ _ _ => found (fmtPadded m)
  | EightDigits => found (fmtPlain m)
  | SixDigits => found (fmtCentury m)
  | MonthDay _ _ => found (fmtThisYear currentYear m)
  end = Return (Some (formDate form currentYear y mo d)).
Proof.
  destruct form; cbn [formGroups]; intros H;
    unfold fmtPadded, fmtPlain, fmtCentury, fmtThisYear, grp;
    repeat match goal with H : _ /\ _ |- _ => destruct H end;
    repeat match goal with E : m_groups m _ = Some _ |- _ => rewrite E; clear E end;
    reflexivity.
Qed.

End DateForms.

(** * The claims *)

Section Claims.

(** ** C1: canonical time strings *)

(** C1, evaluated on the caption parser: the cue line
    [0:0:0.0 --> 0:0:2.820] gives an utterance whose start and end time are
    the cue's timestamps as written, [0:0:0.0] and [0:0:2.820]; they are
    not empty and not the twelve-character canonical string, so the
    property of C1 fails on this document. *)
Theorem C1_caption_times_verbatim :
  parseVttFile shortCue
  = [{| speaker := lit "田中"; startTime := lit "0:0:0.0";
        endTime := lit "0:0:2.820"; text := lit "こんにちは" |}] /\
  ~ Forall timesCanonical (parseVttFile shortCue).
Proof.
  assert (E : parseVttFile shortCue
              = [{| speaker := lit "田中"; startTime := lit "0:0:0.0";
                    endTime := lit "0:0:2.820"; text := lit "こんにちは" |}])
    by (vm_compute; reflexivity).
  split; [exact E|]. rewrite E. intros H.
  inversion H as [|e l [[Hs|Hs] _] _]; subst.
  - simpl in Hs. discriminate.
  - simpl in Hs. vm_compute in Hs. discriminate.
Qed.

(** The part of C1 that holds: every start and end time produced by the
    freeform parser, on plain text and on word-processor text, is empty or
    the twelve-character canonical string [HH:MM:SS.mmm]; every start and
    end time produced by the caption parser is a timestamp of the cue
    line, four non-empty digit runs separated by [:], [:] and [.], taken as
    written. *)
Theorem time_strings_of_each_parser (text : jsstring) :
  Forall timesCanonical (parseTxtFile text) /\
  Forall timesCanonical (parseDocxFile text) /\
  Forall timesStamped (parseVttFile text).
Proof.
  split; [apply txt_timesCanonical|].
  split; [apply txt_timesCanonical | apply vtt_timesStamped].
Qed.

(** ** C2: the text of a split line *)

(** C2, evaluated: the line with a white-space separator and a time gives
    the text that the claim says; on the lines with a colon separator the
    colon stays at the front of the text, since the content is cut after
    the label ([speakerMatch[1].length]) and only trimmed. *)
Theorem C2_colon_separator_stays_in_text :
  parseTxtFile (lit "田中 5:30 こんにちは")
  = [{| speaker := lit "田中"; startTime := lit "00:05:30.000";
        endTime := []; text := lit "こんにちは" |}] /\
  parseTxtFile (lit "田中：おはよう")
  = [{| speaker := lit "田中"; startTime := []; endTime := [];
        text := lit "：おはよう" |}] /\
  parseTxtFile (lit "田中: こんにちは" ++ nl ++ lit "元気ですか")
  = [{| speaker := lit "田中"; startTime := []; endTime := [];
        text := lit ": こんにちは元気ですか" |}].
Proof. repeat split; vm_compute; reflexivity. Qed.

(** ** C3: at least one utterance *)

(** C3, as stated, fails on the caption parser: a text without a cue line
    is not blank and yet gives no utterance. *)
Lemma C3_caption_blob_gives_nothing :
  ~ (nonBlank (lit "hello") = true -> 1 <= length (parseVttFile (lit "hello"))).
Proof.
  intros H. specialize (H eq_refl). vm_compute in H. lia.
Qed.

(** C3, amended: for every text that is not blank the freeform parser, on
    plain text and on word-processor text, produces at least one utterance,
    and when no line has a speaker it produces exactly one, without
    speaker and times, that holds all the lines.  The caption parser
    produces at least one utterance exactly when a line that is not the
    last line of the text is a cue line; in particular it produces none
    when no line of the text contains [-->]. *)
Theorem C3_at_least_one_utterance (text : jsstring) :
  nonBlank text = true ->
  1 <= length (parseTxtFile text) /\
  1 <= length (parseDocxFile text) /\
  (forallb unattributed (txtLines text) = true ->
   parseTxtFile text
   = [{| speaker := []; startTime := []; endTime := [];
         text := concat (map trim (txtLines text)) |}]) /\
  (1 <= length (parseVttFile text)
   <-> exists pre l p post,
         splitLines text = pre ++ l :: p :: post /\ cueOf l <> None) /\
  ((forall l, In l (splitLines text) -> includes arrow l = false) ->
   parseVttFile text = []).
Proof.
  intros Hb. apply nonBlank_true in Hb. apply txtLines_nonempty in Hb.
  assert (G : 1 <= length (fold_left txtStep (txtLines text) [])).
  { destruct (txtLines text) as [|l ls]; [contradiction|]. simpl.
    pose proof (txtLoop_length ls (txtStep [] l)).
    pose proof (txtStep_nonempty [] l). lia. }
  split; [exact G|]. split; [exact G|]. split; [|split].
  - intros Hu. unfold parseTxtFile.
    destruct (txtLines text) as [|l ls]; [contradiction|].
    apply txtLoop_unattributed. exact Hu.
  - apply caption_entry_iff.
  - intros H. unfold parseVttFile. rewrite (skipHeader_none _ H). reflexivity.
Qed.

Lemma C3_at_least_one_utterance_witness :
  1 <= length (parseTxtFile shortCue) /\
  1 <= length (parseDocxFile shortCue) /\
  (forallb unattributed (txtLines shortCue) = true ->
   parseTxtFile shortCue
   = [{| speaker := []; startTime := []; endTime := [];
         text := concat (map trim (txtLines shortCue)) |}]) /\
  (1 <= length (parseVttFile shortCue)
   <-> exists pre l p post,
         splitLines shortCue = pre ++ l :: p :: post /\ cueOf l <> None) /\
  ((forall l, In l (splitLines shortCue) -> includes arrow l = false) ->
   parseVttFile shortCue = []).
Proof.
  apply (C3_at_least_one_utterance shortCue). reflexivity.
Defined.

(** ** C4: field assignment by component count *)

(** C4: a matched time expression is [g1 : g2], an optional [: g3] and an
    optional [. g4]; its normal form has [g1], [g2] as minute and second
    under hour [00] when there is no third component, and [g1], [g2], [g3]
    as hour, minute, second when there is one; the milliseconds are [000]
    when absent and padded on the right otherwise.  For a line with one
    time and for a line with a range, the components are the capture
    groups of the match, runs of one or two digits (one to three for the
    milliseconds), the matched text is the time, or the two times around
    a non-empty run of range separators, and the times of the line are the
    assignment by count of these components.  The three examples of the
    claim hold, and two ranges are evaluated. *)
Theorem C4_fields_by_component_count :
  (forall content w t,
     singleTime content = Some (w, t) ->
     exists g1 g2 o3 o4,
       timeText g1 g2 o3 o4 w /\
       isDigits 1 2 g1 /\ isDigits 1 2 g2 /\
       optDigits 1 2 o3 /\ optDigits 1 3 o4 /\
       t = byCount g1 g2 o3 o4 /\ isCanonicalTime t = true) /\
  (forall content m,
     exec timeRangeRe content = None -> exec timeRe content = Some m ->
     exists g1 g2 o3 o4 w,
       content = w ++ m_rest m /\ m_groups m 0 = Some w /\
       m_groups m 1 = Some g1 /\ m_groups m 2 = Some g2 /\
       m_groups m 3 = o3 /\ m_groups m 4 = o4 /\
       timeText g1 g2 o3 o4 w /\
       isDigits 1 2 g1 /\ isDigits 1 2 g2 /\
       optDigits 1 2 o3 /\ optDigits 1 3 o4 /\
       lineTimes content = (byCount g1 g2 o3 o4, [])) /\
  (forall content m,
     exec timeRangeRe content = Some m ->
     exists g1 g2 o3 o4 g5 g6 o7 o8 w1 sep w2,
       content = w1 ++ sep ++ w2 ++ m_rest m /\
       m_groups m 0 = Some (w1 ++ sep ++ w2) /\
       m_groups m 1 = Some g1 /\ m_groups m 2 = Some g2 /\
       m_groups m 3 = o3 /\ m_groups m 4 = o4 /\
       m_groups m 5 = Some g5 /\ m_groups m 6 = Some g6 /\
       m_groups m 7 = o7 /\ m_groups m 8 = o8 /\
       timeText g1 g2 o3 o4 w1 /\ timeText g5 g6 o7 o8 w2 /\
       allOf rangeSep sep /\ 1 <= length sep /\
       isDigits 1 2 g1 /\ isDigits 1 2 g2 /\
       optDigits 1 2 o3 /\ optDigits 1 3 o4 /\
       isDigits 1 2 g5 /\ isDigits 1 2 g6 /\
       optDigits 1 2 o7 /\ optDigits 1 3 o8 /\
       rangeTimes content
       = Some (byCount g1 g2 o3 o4, byCount g5 g6 o7 o8) /\
       lineTimes content = (byCount g1 g2 o3 o4, byCount g5 g6 o7 o8) /\
       isCanonicalTime (byCount g1 g2 o3 o4) = true /\
       isCanonicalTime (byCount g5 g6 o7 o8) = true) /\
  lineTimes (lit "5:30") = (lit "00:05:30.000", []) /\
  lineTimes (lit "1:5:30") = (lit "01:05:30.000", []) /\
  lineTimes (lit "1:2:3.4") = (lit "01:02:03.400", []) /\
  lineTimes (lit "1:00 - 2:05 x") = (lit "00:01:00.000", lit "00:02:05.000") /\
  lineTimes (lit "1:2:3.4~10:20:30.45")
  = (lit "01:02:03.400", lit "10:20:30.450").
Proof.
  split; [|split; [|split; [|repeat split; vm_compute; reflexivity]]].
  - intros content w t H. unfold singleTime in H.
    destruct (exec timeRe content) as [m|] eqn:E; [|discriminate].
    simpl in H. inversion H as [[Hw Ht]]. clear H.
    apply timeRe_inv in E.
    destruct E as [g1 [g2 [o3 [o4 [w' [D1 [D2 [D3 [D4 [Hg [Htx _]]]]]]]]]]].
    destruct (groups_single g1 g2 o3 o4 w') as [A1 [A2 [A3 A4]]].
    rewrite <- Hg in A1, A2, A3, A4.
    rewrite (normalizeTime_byCount _ 1 g1 g2 o3 o4 A1 A2 A3 A4 D3 D4).
    assert (E0 : str (m_groups m 0) = w') by (rewrite Hg; reflexivity).
    rewrite E0. exists g1, g2, o3, o4. splits; auto.
    apply byCount_canonical; assumption.
  - intros content m Hr E. unfold lineTimes. rewrite Hr, E.
    apply timeRe_inv in E.
    destruct E as [g1 [g2 [o3 [o4 [w [D1 [D2 [D3 [D4 [Hg [Htx [Hc _]]]]]]]]]]]].
    destruct (groups_single g1 g2 o3 o4 w) as [A1 [A2 [A3 A4]]].
    rewrite <- Hg in A1, A2, A3, A4.
    rewrite (normalizeTime_byCount _ 1 g1 g2 o3 o4 A1 A2 A3 A4 D3 D4).
    exists g1, g2, o3, o4, w. splits; auto.
    rewrite Hg. reflexivity.
  - intros content m E. unfold lineTimes, rangeTimes. rewrite E.
    apply timeRangeRe_inv in E.
    destruct E as [g1 [g2 [o3 [o4 [g5 [g6 [o7 [o8 [w H]]]]]]]]].
    destruct H as [D1 [D2 [D3 [D4 [D5 [D6 [D7 [D8 [Hg [Hw [Hc _]]]]]]]]]]].
    destruct Hw as [w1 [sep [w2 [Hw [T1 [Hs [Hl T2]]]]]]].
    destruct (groups_range g1 g2 o3 o4 g5 g6 o7 o8 w)
      as [[A1 [A2 [A3 A4]]] [A5 [A6 [A7 A8]]]].
    rewrite <- Hg in A1, A2, A3, A4, A5, A6, A7, A8.
    cbn [option_map].
    rewrite (normalizeTime_byCount _ 1 g1 g2 o3 o4 A1 A2 A3 A4 D3 D4).
    rewrite (normalizeTime_byCount _ 5 g5 g6 o7 o8 A5 A6 A7 A8 D7 D8).
    exists g1, g2, o3, o4, g5, g6, o7, o8, w1, sep, w2.
    splits; auto; try (apply byCount_canonical; assumption).
    + rewrite Hc, Hw, <- !app_assoc. reflexivity.
    + rewrite Hg, Hw. reflexivity.
Qed.

Lemma C4_fields_by_component_count_witness :
  exists g1 g2 o3 o4,
    timeText g1 g2 o3 o4 (lit "1:2:3.4") /\
    isDigits 1 2 g1 /\ isDigits 1 2 g2 /\
    optDigits 1 2 o3 /\ optDigits 1 3 o4 /\
    lit "01:02:03.400" = byCount g1 g2 o3 o4 /\
    isCanonicalTime (lit "01:02:03.400") = true.
Proof.
  apply (proj1 C4_fields_by_component_count (lit "1:2:3.4 next")).
  reflexivity.
Defined.

(** ** C5: the date cascade *)

(** C5: the ten patterns are tried in their order.  At the first one that
    matches, the match is a date of the pattern's form inside the file
    name, with the numbers of digits of the form, and the result is the
    date that the form gives: year, month and day joined by hyphens, month
    and day padded to two digits, the two-digit year prefixed with [20],
    and the current year for the forms without year.  When no pattern
    matches the result is the no-match result; the call never raises.  The
    four examples of the claim hold, the third for every current year, and
    one more example is evaluated for each of the other patterns. *)
Theorem C5_date_cascade (currentYear : N) (fileName : jsstring) :
  match firstForm dateForms fileName with
  | Some (form, m) =>
    exists pre y mo d,
      fileName = pre ++ formText form y mo d ++ m_rest m /\
      m_index m = length pre /\
      formDigits form y mo d /\ formGroups form (m_groups m) y mo d /\
      extractDate currentYear fileName
      = Return (Some (formDate form currentYear y mo d))
  | None => extractDate currentYear fileName = Return None
  end /\
  length dateForms = 10 /\
  returns (extractDate currentYear fileName) /\
  ((forall p, In p dateForms -> exec (fst p) fileName = None) ->
   extractDate currentYear fileName = Return None) /\
  extractDate currentYear (lit "minutes_2024-03-05_v2.txt")
  = Return (Some (lit "2024-03-05")) /\
  extractDate currentYear (lit "2024_03_05")
  = Return (Some (lit "2024-03-05")) /\
  extractDate currentYear (lit "03-05notes.txt")
  = Return (Some (ofNumber currentYear ++ lit "-03-05")) /\
  extractDate currentYear (lit "no-date-here.txt") = Return None /\
  extractDate currentYear (lit "2024.3.5.docx")
  = Return (Some (lit "2024-03-05")) /\
  extractDate currentYear (lit "rec20240305.vtt")
  = Return (Some (lit "2024-03-05")) /\
  extractDate currentYear (lit "2024年3月5日 定例")
  = Return (Some (lit "2024-03-05")) /\
  extractDate currentYear (lit "mtg240305")
  = Return (Some (lit "2024-03-05")) /\
  extractDate currentYear (lit "3_5 notes")
  = Return (Some (ofNumber currentYear ++ lit "-03-05")) /\
  extractDate currentYear (lit "v3.5")
  = Return (Some (ofNumber currentYear ++ lit "-03-05")) /\
  extractDate currentYear (lit "3月5日")
  = Return (Some (ofNumber currentYear ++ lit "-03-05")).
Proof.
  split; [|split; [reflexivity|split; [apply extractDate_returns|split]]].
  - pose proof dateForms_match as HF. unfold dateForms in HF.
    repeat match goal with
    | H : Forall _ (_ :: _) |- _ => inversion H; subst; clear H
    | H : Forall _ [] |- _ => clear H
    end.
    cbn [fst snd] in *.
    unfold extractDate, dateForms. cbn [firstForm].
    repeat match goal with
    | |- context [exec ?r fileName] =>
      let E := fresh "E" in
      destruct (exec r fileName) eqn:E
    end;
    try reflexivity;
    match goal with
    | HF : matchesForm ?r ?form, E : exec ?r fileName = Some ?m |- _ =>
      destruct (HF _ _ E) as [pre [y [mo [d [Hs [Hi [Hd Hg]]]]]]];
      exists pre, y, mo, d; splits; try assumption;
      exact (formatted_date form currentYear m y mo d Hg)
    end.
  - intros H. unfold extractDate.
    repeat match goal with
    | |- context [exec ?r fileName] =>
      rewrite (H (r, _)) by (unfold dateForms; simpl; tauto)
    end.
    reflexivity.
  - repeat split; vm_compute; reflexivity.
Qed.

(** ** C6: consecutive cues of one speaker *)

(** C6: when two consecutive cues (the lines between the first payload and
    the second cue line are not cue lines: blank lines, cue identifiers)
    have payloads with the same speaker, the second cue adds no entry: it
    changes the last entry, setting its end time to the second cue's end
    time and appending the second payload's text with no separator.  When
    the entry before the two cues has another speaker (or there is none),
    the two cues give exactly one new entry, from the first cue's start to
    the second cue's end, whose text is the two payload texts in order;
    when it has the same speaker, both payloads are appended to it.  For a
    document whose first cues they are, the parse is the loop on the rest
    of the lines from that single entry. *)
Theorem C6_same_speaker_cues_merge
  (acc : list TranscriptEntry) (l1 p1 : jsstring) (gap : list jsstring)
  (l2 p2 : jsstring) (rest : list jsstring)
  (s1 e1 s2 e2 sp t1 t2 : jsstring) :
  cueOf l1 = Some (s1, e1) -> cuePayload (trim p1) = (sp, t1) ->
  forallb notCue gap = true ->
  cueOf l2 = Some (s2, e2) -> cuePayload (trim p2) = (sp, t2) ->
  vttLoop (l1 :: p1 :: gap ++ l2 :: p2 :: rest) acc
  = vttLoop rest (modifyLast (extendEntry e2 t2) (pushCue acc sp s1 e1 t1)) /\
  length (modifyLast (extendEntry e2 t2) (pushCue acc sp s1 e1 t1))
  = length (pushCue acc sp s1 e1 t1) /\
  ((forall e, lastEntry acc = Some e -> speaker e <> sp) ->
   modifyLast (extendEntry e2 t2) (pushCue acc sp s1 e1 t1)
   = acc ++ [{| speaker := sp; startTime := s1; endTime := e2;
                text := t1 ++ t2 |}]) /\
  (forall init e, acc = init ++ [e] -> speaker e = sp ->
   modifyLast (extendEntry e2 t2) (pushCue acc sp s1 e1 t1)
   = init ++ [{| speaker := sp; startTime := startTime e; endTime := e2;
                 text := (text e ++ t1) ++ t2 |}]) /\
  (forall input header,
     splitLines input = header ++ l1 :: p1 :: gap ++ l2 :: p2 :: rest ->
     forallb notCue header = true ->
     parseVttFile input
     = vttLoop rest [{| speaker := sp; startTime := s1; endTime := e2;
                        text := t1 ++ t2 |}]).
Proof.
  intros C1 P1 Hg C2 P2.
  assert (Hloop : forall acc0,
            vttLoop (l1 :: p1 :: gap ++ l2 :: p2 :: rest) acc0
            = vttLoop rest
                (modifyLast (extendEntry e2 t2) (pushCue acc0 sp s1 e1 t1))).
  { intros acc0.
    rewrite (vttLoop_cue _ _ _ _ _ _ C1), P1. simpl fst. simpl snd.
    rewrite (notCue_gap _ _ _ Hg).
    rewrite (vttLoop_cue _ _ _ _ _ _ C2), P2. simpl fst. simpl snd.
    destruct (pushCue_cases acc0 sp s1 e1 t1)
      as [[init [e [Ha [Hs Hp]]]]|[Hn Hp]]; rewrite Hp.
    - assert (Hs' : speaker (extendEntry e1 t1 e) = sp) by exact Hs.
      rewrite (pushCue_same _ _ _ _ _ Hs'), modifyLast_snoc. reflexivity.
    - rewrite (pushCue_same acc0
                 {| speaker := sp; startTime := s1; endTime := e1; text := t1 |}
                 sp e2 t2 eq_refl s2), modifyLast_snoc. reflexivity. }
  split; [apply Hloop|].
  assert (Hdoc : forall input header,
            splitLines input = header ++ l1 :: p1 :: gap ++ l2 :: p2 :: rest ->
            forallb notCue header = true ->
            parseVttFile input
            = vttLoop rest [{| speaker := sp; startTime := s1; endTime := e2;
                               text := t1 ++ t2 |}]).
  { intros input header Hl Hh. unfold parseVttFile.
    rewrite vttLoop_skipHeader, Hl, (notCue_gap _ _ _ Hh), Hloop.
    reflexivity. }
  cut (length (modifyLast (extendEntry e2 t2) (pushCue acc sp s1 e1 t1))
       = length (pushCue acc sp s1 e1 t1) /\
       ((forall e, lastEntry acc = Some e -> speaker e <> sp) ->
        modifyLast (extendEntry e2 t2) (pushCue acc sp s1 e1 t1)
        = acc ++ [{| speaker := sp; startTime := s1; endTime := e2;
                     text := t1 ++ t2 |}]) /\
       (forall init e, acc = init ++ [e] -> speaker e = sp ->
        modifyLast (extendEntry e2 t2) (pushCue acc sp s1 e1 t1)
        = init ++ [{| speaker := sp; startTime := startTime e; endTime := e2;
                      text := (text e ++ t1) ++ t2 |}])).
  { intros [A [B C]]. splits; assumption. }
  destruct (pushCue_cases acc sp s1 e1 t1)
    as [[init [e [Ha [Hs Hp]]]]|[Hn Hp]]; rewrite Hp.
  - rewrite modifyLast_snoc, !length_app.
    split; [reflexivity|]. split.
    + intros H. exfalso. apply (H e); [|exact Hs].
      rewrite Ha. apply lastEntry_snoc.
    + intros init' e' Ha' Hs2. rewrite Ha in Ha'.
      apply app_inj_tail in Ha'. destruct Ha' as [-> ->].
      unfold extendEntry. cbn [speaker startTime endTime text].
      rewrite Hs. reflexivity.
  - rewrite modifyLast_snoc, !length_app.
    split; [reflexivity|]. split; [reflexivity|].
    intros init e Ha Hs. exfalso. apply (Hn e); [|exact Hs].
    rewrite Ha. apply lastEntry_snoc.
Qed.

Lemma C6_same_speaker_cues_merge_witness :
  vttLoop [lit "00:00:01.000 --> 00:00:02.000"; lit "<v Alice>Hello"; [];
           lit "2"; lit "00:00:02.000 --> 00:00:03.500"; lit "<v Alice>world";
           []] []
  = [{| speaker := lit "Alice"; startTime := lit "00:00:01.000";
        endTime := lit "00:00:03.500"; text := lit "Helloworld" |}].
Proof.
  destruct (C6_same_speaker_cues_merge []
              (lit "00:00:01.000 --> 00:00:02.000") (lit "<v Alice>Hello")
              [[]; lit "2"]
              (lit "00:00:02.000 --> 00:00:03.500") (lit "<v Alice>world") [[]]
              (lit "00:00:01.000") (lit "00:00:02.000")
              (lit "00:00:02.000") (lit "00:00:03.500")
              (lit "Alice") (lit "Hello") (lit "world")
              eq_refl eq_refl eq_refl eq_refl eq_refl) as [H [_ [G _]]].
  etransitivity; [exact H|]. simpl vttLoop. apply G. intros e He. discriminate.
Defined.

(** ** C7: where an utterance without speaker can be *)

(** C7, as stated, fails on the caption parser: the payload of the second
    cue of [untaggedCue] has no voice tag, and it is not appended to the
    entry of the first cue. *)
Lemma C7_untagged_payload_makes_entry :
  ~ (exec voiceRe (lit "そうです") = None ->
     exists e, parseVttFile untaggedCue = [e]
               /\ text e = lit "はい" ++ lit "そうです").
Proof.
  intros H. destruct (H eq_refl) as [e [E _]].
  apply (f_equal (@length _)) in E. vm_compute in E. discriminate.
Qed.

(** C7, amended: in the output of the freeform parser, on plain text and
    on word-processor text, an utterance whose speaker is empty is at
    index 0, and the caption parser never produces one.  In the freeform
    parser a later line without speaker adds no entry: its trimmed text is
    appended to the text of the last entry, whose other fields stay.  In
    the caption parser a cue whose payload has no voice tag gets the
    speaker [不明]: it is a new entry unless the last entry has that
    speaker, in which case it is merged into it; a line that is not taken
    as a cue line or as a payload is passed over. *)
Theorem C7_empty_speaker_only_first (input : jsstring) :
  (forall i e, nth_error (parseTxtFile input) i = Some e ->
               speaker e = [] -> i = 0) /\
  (forall i e, nth_error (parseDocxFile input) i = Some e ->
               speaker e = [] -> i = 0) /\
  Forall (fun e => speaker e <> []) (parseVttFile input) /\
  (forall acc last raw, unattributed raw = true ->
     txtStep (acc ++ [last]) raw
     = acc ++ [{| speaker := speaker last; startTime := startTime last;
                  endTime := endTime last; text := text last ++ trim raw |}]) /\
  (forall before raw after,
     txtLines input = before ++ raw :: after -> before <> [] ->
     unattributed raw = true ->
     exists acc last,
       fold_left txtStep before [] = acc ++ [last] /\
       parseTxtFile input
       = fold_left txtStep after
           (acc ++ [{| speaker := speaker last; startTime := startTime last;
                       endTime := endTime last;
                       text := text last ++ trim raw |}]) /\
       parseDocxFile input = parseTxtFile input) /\
  (forall acc l p rest s e,
     cueOf l = Some (s, e) -> exec voiceRe (trim p) = None ->
     vttLoop (l :: p :: rest) acc
     = vttLoop rest (pushCue acc unknownSpeaker s e (trim p)) /\
     ((forall x, lastEntry acc = Some x -> speaker x <> unknownSpeaker) ->
      pushCue acc unknownSpeaker s e (trim p)
      = acc ++ [{| speaker := unknownSpeaker; startTime := s; endTime := e;
                   text := trim p |}]) /\
     (forall init x, acc = init ++ [x] -> speaker x = unknownSpeaker ->
      pushCue acc unknownSpeaker s e (trim p)
      = init ++ [{| speaker := unknownSpeaker; startTime := startTime x;
                    endTime := e; text := text x ++ trim p |}])) /\
  (forall acc l rest, cueOf l = None ->
     vttLoop (l :: rest) acc = vttLoop rest acc).
Proof.
  splits.
  - intros i e. apply laterAttributed_nth. apply txt_laterAttributed.
  - intros i e. apply laterAttributed_nth. apply txt_laterAttributed.
  - apply vtt_attributed.
  - intros acc last raw Hu. apply unattributed_true in Hu.
    rewrite (txtStep_fold _ _ _ Hu). reflexivity.
  - intros before raw after Ht Hb Hu.
    destruct (txtLoop_snoc before Hb) as [acc [last E]].
    exists acc, last. split; [exact E|]. split; [|reflexivity].
    unfold parseTxtFile. rewrite Ht, fold_left_app, E. cbn [fold_left].
    apply unattributed_true in Hu. rewrite (txtStep_fold _ _ _ Hu). reflexivity.
  - intros acc l p rest s e Hc Hv.
    assert (Hp : cuePayload (trim p) = (unknownSpeaker, trim p)).
    { unfold cuePayload. rewrite Hv. reflexivity. }
    splits.
    + rewrite (vttLoop_cue _ _ _ _ _ _ Hc), Hp. reflexivity.
    + intros Hn.
      destruct (pushCue_cases acc unknownSpeaker s e (trim p))
        as [[init [x [Ha [Hs _]]]]|[_ E]]; [|exact E].
      exfalso. apply (Hn x); [|exact Hs]. rewrite Ha. apply lastEntry_snoc.
    + intros init x Ha Hs. rewrite Ha.
      rewrite (pushCue_same _ _ _ _ _ Hs). unfold extendEntry. rewrite Hs.
      reflexivity.
  - intros acc l rest Hc. apply vttLoop_skip. exact Hc.
Qed.

Lemma C7_empty_speaker_only_first_witness :
  exists acc last,
    fold_left txtStep [lit "A 1:00 - 2:00 x"; lit "B 3:00 y"] [] = acc ++ [last]
    /\ parseTxtFile foldedDoc
       = fold_left txtStep []
           (acc ++ [{| speaker := speaker last; startTime := startTime last;
                       endTime := endTime last;
                       text := text last ++ trim (lit " z ") |}])
    /\ parseDocxFile foldedDoc = parseTxtFile foldedDoc.
Proof.
  apply (proj1 (proj2 (proj2 (proj2 (proj2
           (C7_empty_speaker_only_first foldedDoc)))))
           [lit "A 1:00 - 2:00 x"; lit "B 3:00 y"] (lit " z ") []).
  - reflexivity.
  - discriminate.
  - reflexivity.
Defined.

(** ** C8: folding a continuation line *)

(** C8: when the loop has produced [acc ++ [last]] and the next line has no
    speaker, the result is [acc] unchanged followed by [last] with the
    same speaker, start time and end time and with the trimmed line
    appended to its text. *)
Theorem C8_fold_changes_text_only
  (lines : list jsstring) (raw : jsstring)
  (acc : list TranscriptEntry) (last : TranscriptEntry) :
  fold_left txtStep lines [] = acc ++ [last] ->
  unattributed raw = true ->
  fold_left txtStep (lines ++ [raw]) []
  = acc ++ [{| speaker := speaker last; startTime := startTime last;
               endTime := endTime last; text := text last ++ trim raw |}].
Proof.
  intros H Hu. rewrite fold_left_app, H. simpl.
  apply txtStep_fold. apply unattributed_true. exact Hu.
Qed.

Lemma C8_fold_changes_text_only_witness :
  fold_left txtStep [lit "A 1:00 - 2:00 x"; lit "B 3:00 y"; lit " z "] []
  = [{| speaker := lit "A"; startTime := lit "00:01:00.000";
        endTime := lit "00:02:00.000"; text := lit "x" |}]
    ++ [{| speaker := lit "B"; startTime := lit "00:03:00.000";
           endTime := []; text := lit "y" ++ trim (lit " z ") |}].
Proof.
  apply (C8_fold_changes_text_only
           [lit "A 1:00 - 2:00 x"; lit "B 3:00 y"] (lit " z ")
           [{| speaker := lit "A"; startTime := lit "00:01:00.000";
               endTime := lit "00:02:00.000"; text := lit "x" |}]
           {| speaker := lit "B"; startTime := lit "00:03:00.000";
              endTime := []; text := lit "y" |});
    reflexivity.
Defined.

(** ** C9: the text fields of an unmarked document *)

(** C9, as stated, fails: [plainDoc] has no blank line, no line of it
    matches a speaker pattern (trimmed as the parser reads it, or as
    written) and no time is matched, and the text fields concatenate to
    [abcdef], which is neither the document nor its lines put together:
    the line break and the leading space are lost. *)
Lemma C9_text_is_trimmed :
  ~ (splitLines plainDoc = txtLines plainDoc ->
     forallb unattributed (splitLines plainDoc) = true ->
     forallb (fun l => match speakerMatch l with None => true | _ => false end)
             (splitLines plainDoc) = true ->
     forallb (fun l => eqb (fst (lineTimes (trim l))) []) (splitLines plainDoc)
     = true ->
     allText (parseTxtFile plainDoc) = withoutBlankLines plainDoc
     \/ allText (parseTxtFile plainDoc) = concat (txtLines plainDoc)).
Proof.
  intros H.
  destruct (H eq_refl eq_refl eq_refl eq_refl) as [E|E];
    vm_compute in E; discriminate.
Qed.

(** C9, amended: for every document in which no line that is not blank
    matches a speaker pattern, the text fields of the freeform parse,
    concatenated in order, are the lines of the document that are not
    blank, each trimmed, concatenated in order. *)
Theorem C9_text_fields_concatenate (text : jsstring) :
  forallb unattributed (txtLines text) = true ->
  allText (parseTxtFile text) = concat (map trim (txtLines text)) /\
  allText (parseDocxFile text) = concat (map trim (txtLines text)).
Proof.
  intros H. unfold parseTxtFile, parseDocxFile.
  rewrite (txtLoop_allText _ [] H). split; reflexivity.
Qed.

Lemma C9_text_fields_concatenate_witness :
  allText (parseTxtFile plainDoc) = concat (map trim (txtLines plainDoc)) /\
  allText (parseDocxFile plainDoc) = concat (map trim (txtLines plainDoc)).
Proof.
  apply (C9_text_fields_concatenate plainDoc). reflexivity.
Defined.

(** ** C10: an end time comes with a start time *)

(** C10: in the output of each parser, an utterance whose end time is not
    empty has a start time that is not empty. *)
Theorem C10_end_time_has_start_time (text : jsstring) :
  Forall endHasStart (parseTxtFile text) /\
  Forall endHasStart (parseDocxFile text) /\
  Forall endHasStart (parseVttFile text).
Proof.
  split; [apply txt_endHasStart|]. split; [apply txt_endHasStart|].
  apply Forall_impl with (P := timesStamped); [|apply vtt_timesStamped].
  intros e [Hs _] _. apply isStamp_nonempty. exact Hs.
Qed.

End Claims.
